(** * CapsuleSampler: the voice engine of [Sampler.cpp]

A shallow embedding of the channel methods, the envelope engine, the
resampling kernel, the mixing pass and the output stage of
[src/Sampler.cpp], with the properties of the specification proved
about it.

- [float] is IEEE 754 binary32, taken from the Standard Library's
  executable [SpecFloat] (precision 24, emax 128, round to nearest even).
- Unsigned and signed 32-bit integers are [Z] with the wrap-around
  written out.
- The voice pool ([players]) and the mix bus are lists accessed by
  index; an access out of range is undefined behaviour and makes the
  modelled function return [None].
- A pointer into sample memory is an index into a total view [Z -> Z]
  of the memory behind the sample's base address.  The code does not
  know how far the array behind that address extends: where a statement
  is about the reads staying inside it, the number of cells is a
  parameter of the statement. *)

From Stdlib Require Import ZArith Lia Bool.
From Stdlib Require Import Floats.SpecFloat.
From stdpp Require Import base option list.

Local Open Scope Z_scope.

(** ** binary32 arithmetic *)

Module F32.

Definition prec : Z := 24.
Definition emax : Z := 128.

Definition float : Type := spec_float.

Definition fadd : float -> float -> float := SFadd prec emax.
Definition fsub : float -> float -> float := SFsub prec emax.
Definition fmul : float -> float -> float := SFmul prec emax.
Definition fdiv : float -> float -> float := SFdiv prec emax.

(** [x < y], [x <= y] and [x >= y] of C: false when an operand is NaN. *)
Definition flt (x y : float) : bool := SFltb x y.
Definition fle (x y : float) : bool := SFleb x y.
Definition fge (x y : float) : bool := SFleb y x.

(** Conversion of an integer to [float] (round to nearest even). *)
Definition of_int (z : Z) : float := binary_normalize prec emax z 0 false.

Definition valid (x : float) : bool := valid_binary prec emax x.

(** The magnitude of a finite float, truncated toward zero. *)
Definition trunc_abs (m : positive) (e : Z) : Z :=
  if 0 <=? e then Zpos m * 2 ^ e else Zpos m / 2 ^ (- e).

(** [(uint32_t) x]: truncation toward zero; the conversion is undefined
    when the truncated value does not fit in 32 unsigned bits. *)
Definition to_uint32 (x : float) : option Z :=
  match x with
  | S754_zero _ => Some 0
  | S754_finite s m e =>
      let n := trunc_abs m e in
      if s then (if n =? 0 then Some 0 else None)
      else if n <? 2 ^ 32 then Some n else None
  | _ => None
  end.

Definition zero : float := S754_zero false.
Definition one : float := Eval vm_compute in of_int 1.
Definition two : float := Eval vm_compute in of_int 2.
Definition twelve : float := Eval vm_compute in of_int 12.
Definition f8192 : float := Eval vm_compute in of_int 8192.
Definition f65536 : float := Eval vm_compute in of_int 65536.
  (** [0.001f] *)
Definition f0_001 : float := Eval vm_compute in fdiv (of_int 1) (of_int 1000).

End F32.

Import F32.

(** ** Machine integers *)

Definition wrap_uint32 (z : Z) : Z := z mod 2 ^ 32.
Definition wrap_int32 (z : Z) : Z := (z + 2 ^ 31) mod 2 ^ 32 - 2 ^ 31.
Definition wrap_uint8 (z : Z) : Z := z mod 2 ^ 8.

(** ** Build configuration

The compile-time constants of [Sampler.h], the velocity curve of
[Tables.h] and [powf] of the C library are not part of [Sampler.cpp];
the development is parametric in them.  Loop counters over voices and
envelope steps ([uint_fast8_t]) are natural numbers: [MAX_SOUND] and
[SAMPLE_BUFFER_SIZE / ADSR_UPDATE_SAMPLE_COUNT] are taken to fit them. *)

Class Config := {
  CH_COUNT : nat;
  MAX_SOUND : nat;
  SAMPLE_BUFFER_SIZE : nat;
  ADSR_UPDATE_SAMPLE_COUNT : nat;
  velocityTable : Z -> float;
  powf : float -> float -> float
}.

(** ** Data model *)

(** [struct Sample] is declared in [Sampler.h]; its fields are the ones
    [Sampler.cpp] reads.  [sample] is the PCM data seen through its base
    pointer (16-bit signed values). *)
Module Sample.
Record t := {
    sample : Z -> Z;
    length : Z;
    root : Z;
    adsrEnabled : bool;
    attack : float;
    decay : float;
    sustain : float;
    release : float;
    loopStart : Z;
    loopEnd : Z
  }.
End Sample.

Module MappedSample.
Record t := {
    sample : Sample.t;
    lowerNoteNo : Z;
    upperNoteNo : Z;
    lowerVelocity : Z;
    upperVelocity : Z
  }.
End MappedSample.

Module Timbre.
Record t := { samples : list MappedSample.t }.

(** [Timbre::GetAppropriateSample]: first fit, bounds inclusive. *)
Fixpoint first_fit (l : list MappedSample.t) (noteNo velocity : Z) : option Sample.t :=
  match l with
  | [] => None
  | ms :: rest =>
      if (MappedSample.lowerNoteNo ms <=? noteNo) && (noteNo <=? MappedSample.upperNoteNo ms)
         && (MappedSample.lowerVelocity ms <=? velocity) && (velocity <=? MappedSample.upperVelocity ms)
      then Some (MappedSample.sample ms)
      else first_fit rest noteNo velocity
  end.

Definition GetAppropriateSample (this : t) (noteNo velocity : Z) : option Sample.t :=
  first_fit (samples this) noteNo velocity.
End Timbre.

Inductive SampleAdsr := attack | decay | sustain | release.

(** ** Voices *)

Module SamplePlayer.

(** [class Sampler::SamplePlayer] is declared in [Sampler.h]; the fields
    are those [Sampler.cpp] reads and writes (spec, section 3). *)
Record t := {
    sample : option Sample.t;
    noteNo : Z;
    volume : float;
    pitchBend : float;
    channel : Z;
    createdAt : Z;
    pos : Z;
    pos_f : float;
    playing : bool;
    released : bool;
    gain : float;
    pitch : float;
    adsrState : SampleAdsr
  }.

Definition set_gain (g : float) (p : t) : t :=
  {| sample := sample p; noteNo := noteNo p; volume := volume p;
     pitchBend := pitchBend p; channel := channel p; createdAt := createdAt p;
     pos := pos p; pos_f := pos_f p; playing := playing p;
     released := released p; gain := g; pitch := pitch p;
     adsrState := adsrState p |}.

Definition set_pitch (x : float) (p : t) : t :=
  {| sample := sample p; noteNo := noteNo p; volume := volume p;
     pitchBend := pitchBend p; channel := channel p; createdAt := createdAt p;
     pos := pos p; pos_f := pos_f p; playing := playing p;
     released := released p; gain := gain p; pitch := x;
     adsrState := adsrState p |}.

Definition set_pitchBend (x : float) (p : t) : t :=
  {| sample := sample p; noteNo := noteNo p; volume := volume p;
     pitchBend := x; channel := channel p; createdAt := createdAt p;
     pos := pos p; pos_f := pos_f p; playing := playing p;
     released := released p; gain := gain p; pitch := pitch p;
     adsrState := adsrState p |}.

Definition set_adsrState (a : SampleAdsr) (p : t) : t :=
  {| sample := sample p; noteNo := noteNo p; volume := volume p;
     pitchBend := pitchBend p; channel := channel p; createdAt := createdAt p;
     pos := pos p; pos_f := pos_f p; playing := playing p;
     released := released p; gain := gain p; pitch := pitch p;
     adsrState := a |}.

Definition set_playing (b : bool) (p : t) : t :=
  {| sample := sample p; noteNo := noteNo p; volume := volume p;
     pitchBend := pitchBend p; channel := channel p; createdAt := createdAt p;
     pos := pos p; pos_f := pos_f p; playing := b;
     released := released p; gain := gain p; pitch := pitch p;
     adsrState := adsrState p |}.

Definition set_released (b : bool) (p : t) : t :=
  {| sample := sample p; noteNo := noteNo p; volume := volume p;
     pitchBend := pitchBend p; channel := channel p; createdAt := createdAt p;
     pos := pos p; pos_f := pos_f p; playing := playing p;
     released := b; gain := gain p; pitch := pitch p;
     adsrState := adsrState p |}.

Definition set_pos (n : Z) (f : float) (p : t) : t :=
  {| sample := sample p; noteNo := noteNo p; volume := volume p;
     pitchBend := pitchBend p; channel := channel p; createdAt := createdAt p;
     pos := n; pos_f := f; playing := playing p;
     released := released p; gain := gain p; pitch := pitch p;
     adsrState := adsrState p |}.

Section Methods.
Context {cfg : Config}.

(** [SamplePlayer::UpdatePitch] *)
Definition UpdatePitch (p : t) : t :=
  match sample p with
  | None => p
  | Some s =>
      let delta := fadd (of_int (noteNo p - Sample.root s)) (pitchBend p) in
      set_pitch (powf two (fdiv delta twelve)) p
  end.

(** [SamplePlayer::UpdateGain] *)
Definition UpdateGain (p : t) : t :=
  match sample p with
  | None => p
  | Some sampleRef =>
      if negb (Sample.adsrEnabled sampleRef) then set_gain (volume p) p
      else
        let p := if released p then set_adsrState release p else p in
        match adsrState p with
        | attack =>
            let p := set_gain (fadd (gain p) (fmul (Sample.attack sampleRef) (volume p))) p in
            if fge (gain p) (volume p)
            then set_adsrState decay (set_gain (volume p) p)
            else p
        | decay =>
            let goal := fmul (Sample.sustain sampleRef) (volume p) in
            let p := set_gain (fadd (fmul (fsub (gain p) goal) (Sample.decay sampleRef)) goal) p in
            if flt (fsub (gain p) goal) f0_001
            then set_gain goal (set_adsrState sustain p)
            else p
        | sustain => p
        | release =>
            let p := set_gain (fmul (gain p) (Sample.release sampleRef)) p in
            if flt (gain p) f0_001
            then set_playing false (set_gain zero p)
            else p
        end
  end.

(** Modelled from the spec: the constructor
    [SamplePlayer(sample, noteNo, volume, pitchBend, channel)], which is
    defined in [Sampler.h] and is not among the sources.  Section 4.B:
    on allocation the voice is reset with [gain=0], [adsrState=attack],
    [released=false], [playing=true], [pos=0], [pos_f=0] and
    [createdAt] the next tick; "if [adsrEnabled=false], the envelope is
    inert: [gain = volume] permanently" (also section 8, invariant 3,
    and scenario 2, where the first buffer of a sample without ADSR
    already sounds at [volume]; the mixing pass never sets the gain of
    such a voice).  Section 3: [pitch] is
    [2^((noteNo - root + pitchBend)/12)].  Section 4.E: without a
    matching sample the voice is reset to idle, [playing=false].
    [tick] is the value of the tick counter. *)
Definition new (s : option Sample.t) (noteNo_ : Z) (volume_ pitchBend_ : float)
    (channel_ : Z) (tick : Z) : t :=
  UpdatePitch
    {| sample := s; noteNo := noteNo_; volume := volume_;
       pitchBend := pitchBend_; channel := channel_; createdAt := tick;
       pos := 0; pos_f := zero;
       playing := match s with Some _ => true | None => false end;
       released := false;
       gain := match s with
               | Some smp => if Sample.adsrEnabled smp then zero else volume_
               | None => zero
               end;
       pitch := one;
       adsrState := attack |}.
End Methods.

End SamplePlayer.

(** ** Channels *)

Module PlayingNote.
Record t := { noteNo : Z; playerId : nat }.
End PlayingNote.

(** The result of [sampler.lock()] on the channel's weak back-reference. *)
Inductive weak_ref := Expired | Alive.

Module Channel.

(** [class Sampler::Channel] is declared in [Sampler.h]. *)
Record t := {
    sampler : weak_ref;
    timbre : option Timbre.t;
    pitchBend : float;
    playingNotes : list PlayingNote.t
  }.

Definition set_timbre (tm : option Timbre.t) (this : t) : t :=
  {| sampler := sampler this; timbre := tm; pitchBend := pitchBend this;
     playingNotes := playingNotes this |}.

Definition set_pitchBend (x : float) (this : t) : t :=
  {| sampler := sampler this; timbre := timbre this; pitchBend := x;
     playingNotes := playingNotes this |}.

Definition set_playingNotes (l : list PlayingNote.t) (this : t) : t :=
  {| sampler := sampler this; timbre := timbre this; pitchBend := pitchBend this;
     playingNotes := l |}.

(** [uint8_t channelIndex = std::distance(&samplerPtr->channels[0], this)],
    for the channel at position [index] of [channels]. *)
Definition channelIndex (index : nat) : Z := wrap_uint8 (Z.of_nat index).

(** [Channel::SetTimbre] *)
Definition SetTimbre (tm : option Timbre.t) (this : t) : t := set_timbre tm this.

Section Methods.
Context {cfg : Config}.

(** The [for] loop of [Channel::NoteOn] from index [i] on, with [n]
    iterations left: the index of the voice that is overwritten. *)
Fixpoint scan_players (players : list SamplePlayer.t) (n i oldestPlayerId : nat)
    : option nat :=
  match n with
  | O => Some oldestPlayerId
  | S n' =>
      p ← players !! i;
      if negb (SamplePlayer.playing p) then Some i
      else
        o ← players !! oldestPlayerId;
        scan_players players n' (S i)
          (if SamplePlayer.createdAt p <? SamplePlayer.createdAt o
           then i else oldestPlayerId)
  end.

(** [Channel::NoteOn].  The channel is [this], at position [index] of
    the sampler's [channels]; [players] is [samplerPtr->players] and
    [tick] the tick counter the new voice is stamped with.  [timbre->]
    on an empty pointer and an index outside the pool are undefined. *)
Definition NoteOn (index : nat) (noteNo velocity : Z)
    (this : t) (players : list SamplePlayer.t) (tick : Z)
    : option (t * list SamplePlayer.t * Z) :=
  match sampler this with
  | Expired => Some (this, players, tick)
  | Alive =>
      id ← scan_players players MAX_SOUND 0 0;
      tm ← timbre this;
      _ ← players !! id;
      let p := SamplePlayer.new (Timbre.GetAppropriateSample tm noteNo velocity)
                 noteNo (velocityTable velocity) (pitchBend this)
                 (channelIndex index) tick in
      Some (set_playingNotes
              (playingNotes this ++ [ {| PlayingNote.noteNo := noteNo;
                                         PlayingNote.playerId := id |} ]) this,
            <[id := p]> players,
            tick + 1)
  end.

(** The loop of [Channel::NoteOff] over [playingNotes]. *)
Fixpoint NoteOff_loop (index : nat) (noteNo : Z) (notes : list PlayingNote.t)
    (players : list SamplePlayer.t)
    : option (list PlayingNote.t * list SamplePlayer.t) :=
  match notes with
  | [] => Some ([], players)
  | itr :: rest =>
      if PlayingNote.noteNo itr =? noteNo then
        player ← players !! PlayingNote.playerId itr;
        NoteOff_loop index noteNo rest
          (if (SamplePlayer.noteNo player =? noteNo)
              && (SamplePlayer.channel player =? channelIndex index)
           then <[PlayingNote.playerId itr := SamplePlayer.set_released true player]> players
           else players)
      else
        '(rest', players') ← NoteOff_loop index noteNo rest players;
        Some (itr :: rest', players')
  end.

(** [Channel::NoteOff] *)
Definition NoteOff (index : nat) (noteNo velocity : Z)
    (this : t) (players : list SamplePlayer.t)
    : option (t * list SamplePlayer.t) :=
  match sampler this with
  | Expired => Some (this, players)
  | Alive =>
      '(notes', players') ← NoteOff_loop index noteNo (playingNotes this) players;
      Some (set_playingNotes notes' this, players')
  end.

(** The loop of [Channel::PitchBend] over [playingNotes]. *)
Fixpoint PitchBend_loop (index : nat) (bend : float) (notes : list PlayingNote.t)
    (players : list SamplePlayer.t) : option (list SamplePlayer.t) :=
  match notes with
  | [] => Some players
  | itr :: rest =>
      player ← players !! PlayingNote.playerId itr;
      PitchBend_loop index bend rest
        (if SamplePlayer.channel player =? channelIndex index
         then <[PlayingNote.playerId itr :=
                  SamplePlayer.UpdatePitch (SamplePlayer.set_pitchBend bend player)]> players
         else players)
  end.

(** [Channel::PitchBend]: the bend is stored before the weak reference
    is locked. *)
Definition PitchBend (index : nat) (b : Z)
    (this : t) (players : list SamplePlayer.t)
    : option (t * list SamplePlayer.t) :=
  let this := set_pitchBend (fdiv (fmul (of_int b) twelve) f8192) this in
  match sampler this with
  | Expired => Some (this, players)
  | Alive =>
      players' ← PitchBend_loop index (pitchBend this) (playingNotes this) players;
      Some (this, players')
  end.
End Methods.

End Channel.

(** ** The resampling kernel *)

Definition wrap_int16 (z : Z) : Z := (z + 2 ^ 15) mod 2 ^ 16 - 2 ^ 15.

(** [struct sampler_process_inner_work_t]: [src] is an index into the
    sample memory, [dst] an index into the mix bus. *)
Module Work.
Record t := {
    src : Z;
    dst : nat;
    pos_f : float;
    gain : float;
    pitch : float
  }.
End Work.

(** The interpolated value of one output sample. *)
Definition interpolate (mem : Z -> Z) (src : Z) (pos_f : float) : float :=
  let s0 := wrap_int16 (mem src) in
  let s1 := wrap_int16 (mem (src + 1)) in
  fadd (of_int s0) (fmul (of_int (s1 - s0)) pos_f).

(** One iteration of the [do ... while] body of [sampler_process_inner]. *)
Definition kernel_body (mem : Z -> Z) (buf : list float) (w : Work.t)
    : option (list float * Work.t) :=
  let val := interpolate mem (Work.src w) (Work.pos_f w) in
  d0 ← buf !! Work.dst w;
  let buf' := <[Work.dst w := fadd d0 (fmul val (Work.gain w))]> buf in
  let pos_f1 := fadd (Work.pos_f w) (Work.pitch w) in
  intval ← to_uint32 pos_f1;
  Some (buf',
        {| Work.src := Work.src w + intval;
           Work.dst := S (Work.dst w);
           Work.pos_f := fsub pos_f1 (of_int intval);
           Work.gain := Work.gain w;
           Work.pitch := Work.pitch w |}).

Fixpoint kernel_loop (n : nat) (mem : Z -> Z) (buf : list float) (w : Work.t)
    : option (list float * Work.t) :=
  match n with
  | O => Some (buf, w)
  | S n' =>
      '(buf', w') ← kernel_body mem buf w;
      kernel_loop n' mem buf' w'
  end.

(** The number of times the body of [do ... while (--length)] runs for a
    32-bit unsigned [length]. *)
Definition iterations (length : Z) : nat :=
  Z.to_nat (if length =? 0 then 2 ^ 32 else length).

(** [sampler_process_inner(work, length)] over the sample memory [mem] and
    the mix bus [buf]. *)
Definition sampler_process_inner (mem : Z -> Z) (buf : list float) (w : Work.t)
    (length : Z) : option (list float * Work.t) :=
  kernel_loop (iterations length) mem buf w.

(** ** The sampler *)

Inductive MessageStatus := NOTE_ON | NOTE_OFF | PITCH_BEND.

Module Message.
Record t := {
    status : MessageStatus;
    channel : Z;
    noteNo : Z;
    velocity : Z;
    pitchBend : Z
  }.
End Message.

Module Sampler.

Record t := {
    players : list SamplePlayer.t;
    channels : list Channel.t;
    messageQueue : list Message.t;
    masterVolume : float;
    nextTick : Z
  }.

Inductive step_result :=
  | Continue (player : SamplePlayer.t) (data : list float)
  | Break (player : SamplePlayer.t) (data : list float).

(** [do { pos += loopBack; } while (pos >= loopEnd);] on a 32-bit unsigned
    [pos]; [fuel] bounds the number of iterations. *)
Fixpoint wrap_loop (fuel : nat) (pos loopBack loopEnd : Z) : option Z :=
  match fuel with
  | O => None
  | S fuel' =>
      let pos := wrap_uint32 (pos + loopBack) in
      if wrap_uint32 loopEnd <=? pos
      then wrap_loop fuel' pos loopBack loopEnd
      else Some pos
  end.

Section Process.
Context {cfg : Config}.

(** [Sampler::SetTimbre] *)
Definition SetTimbre (channel : Z) (tm : option Timbre.t) (this : t) : t :=
  if channel <? Z.of_nat CH_COUNT then
    {| players := players this;
       channels := alter (Channel.SetTimbre tm) (Z.to_nat channel) (channels this);
       messageQueue := messageQueue this;
       masterVolume := masterVolume this;
       nextTick := nextTick this |}
  else this.

Definition push_message (m : Message.t) (this : t) : t :=
  {| players := players this; channels := channels this;
     messageQueue := messageQueue this ++ [m];
     masterVolume := masterVolume this; nextTick := nextTick this |}.

(** [Sampler::NoteOn], [Sampler::NoteOff], [Sampler::PitchBend]: the
    arguments are 8-bit unsigned ([pitchBend]: 16-bit signed). *)
Definition NoteOn (noteNo velocity channel : Z) (this : t) : t :=
  let channel := if Z.of_nat CH_COUNT <=? channel then 0 else channel in
  let velocity := Z.land velocity 127 in
  push_message {| Message.status := NOTE_ON; Message.channel := channel;
                  Message.noteNo := noteNo; Message.velocity := velocity;
                  Message.pitchBend := 0 |} this.

Definition NoteOff (noteNo velocity channel : Z) (this : t) : t :=
  let channel := if Z.of_nat CH_COUNT <=? channel then 0 else channel in
  let velocity := Z.land velocity 127 in
  push_message {| Message.status := NOTE_OFF; Message.channel := channel;
                  Message.noteNo := noteNo; Message.velocity := velocity;
                  Message.pitchBend := 0 |} this.

Definition PitchBend (pitchBend channel : Z) (this : t) : t :=
  if Z.of_nat CH_COUNT <=? channel then this
  else
    let pitchBend := if pitchBend <? -8192 then -8192
                     else if 8191 <? pitchBend then 8191 else pitchBend in
    push_message {| Message.status := PITCH_BEND; Message.channel := channel;
                    Message.noteNo := 0; Message.velocity := 0;
                    Message.pitchBend := pitchBend |} this.

(** The [switch] of [Sampler::Process]: one message applied to
    [channels[message.channel]]. *)
Definition dispatch (m : Message.t) (this : t) : option t :=
  let index := Z.to_nat (Message.channel m) in
  ch ← channels this !! index;
  match Message.status m with
  | NOTE_ON =>
      '(ch', players', tick') ←
        Channel.NoteOn index (Message.noteNo m) (Message.velocity m) ch
          (players this) (nextTick this);
      Some {| players := players'; channels := <[index := ch']> (channels this);
              messageQueue := messageQueue this;
              masterVolume := masterVolume this; nextTick := tick' |}
  | NOTE_OFF =>
      '(ch', players') ←
        Channel.NoteOff index (Message.noteNo m) (Message.velocity m) ch (players this);
      Some {| players := players'; channels := <[index := ch']> (channels this);
              messageQueue := messageQueue this;
              masterVolume := masterVolume this; nextTick := nextTick this |}
  | PITCH_BEND =>
      '(ch', players') ←
        Channel.PitchBend index (Message.pitchBend m) ch (players this);
      Some {| players := players'; channels := <[index := ch']> (channels this);
              messageQueue := messageQueue this;
              masterVolume := masterVolume this; nextTick := nextTick this |}
  end.

(** The queue is drained to empty, one message at a time. *)
Fixpoint drain (queue : list Message.t) (this : t) : option t :=
  match queue with
  | [] => Some this
  | m :: rest => this' ← dispatch m this; drain rest this'
  end.

(** One iteration of the inner [for] loop of [Sampler::Process] (one
    envelope step) for [player], writing to the mix bus [data]. *)
Definition envelope_step (fuel : nat) (masterVolume : float) (j : nat)
    (player : SamplePlayer.t) (data : list float) : option step_result :=
  match SamplePlayer.sample player with
  | None => Some (Break player data)
  | Some sample =>
      let player := if Sample.adsrEnabled sample
                    then SamplePlayer.UpdateGain player else player in
      if negb (SamplePlayer.playing player) then Some (Break player data)
      else
        let pitch := SamplePlayer.pitch player in
        let gain := fmul (SamplePlayer.gain player) (fmul masterVolume f65536) in
        let work := {| Work.src := SamplePlayer.pos player;
                       Work.dst := (j * ADSR_UPDATE_SAMPLE_COUNT)%nat;
                       Work.pos_f := SamplePlayer.pos_f player;
                       Work.gain := gain;
                       Work.pitch := pitch |} in
        '(data', work') ← sampler_process_inner (Sample.sample sample) data work
                            (Z.of_nat ADSR_UPDATE_SAMPLE_COUNT);
        let loopEnd := if Sample.adsrEnabled sample
                       then wrap_int32 (Sample.loopEnd sample)
                       else wrap_int32 (Sample.length sample) in
        let loopBack := if Sample.adsrEnabled sample
                        then wrap_int32 (Sample.loopStart sample - loopEnd)
                        else 0 in
        let pos := wrap_uint32 (Work.src work') in
        if wrap_uint32 loopEnd <=? pos then
          if loopBack =? 0 then Some (Break (SamplePlayer.set_playing false player) data')
          else
            pos' ← wrap_loop fuel pos loopBack loopEnd;
            Some (Continue (SamplePlayer.set_pos pos' (Work.pos_f work') player) data')
        else Some (Continue (SamplePlayer.set_pos pos (Work.pos_f work') player) data')
  end.

(** The inner [for] loop from step [j] on, with [n] steps left. *)
Fixpoint mix_steps (fuel : nat) (masterVolume : float) (n j : nat)
    (player : SamplePlayer.t) (data : list float)
    : option (SamplePlayer.t * list float) :=
  match n with
  | O => Some (player, data)
  | S n' =>
      r ← envelope_step fuel masterVolume j player data;
      match r with
      | Break player' data' => Some (player', data')
      | Continue player' data' => mix_steps fuel masterVolume n' (S j) player' data'
      end
  end.

(** The body of the outer [for] loop: a voice that is not playing is
    skipped. *)
Definition mix_voice (fuel : nat) (masterVolume : float)
    (player : SamplePlayer.t) (data : list float)
    : option (SamplePlayer.t * list float) :=
  if negb (SamplePlayer.playing player) then Some (player, data)
  else mix_steps fuel masterVolume
         (SAMPLE_BUFFER_SIZE / ADSR_UPDATE_SAMPLE_COUNT)%nat 0 player data.

(** The outer [for] loop from voice [i] on, with [n] voices left. *)
Fixpoint mix_players (fuel : nat) (masterVolume : float) (n i : nat)
    (players : list SamplePlayer.t) (data : list float)
    : option (list SamplePlayer.t * list float) :=
  match n with
  | O => Some (players, data)
  | S n' =>
      player ← players !! i;
      '(player', data') ← mix_voice fuel masterVolume player data;
      mix_players fuel masterVolume n' (S i) (<[i := player']> players) data'
  end.

(** [Sampler::Process] up to the master effect: the queue is drained, the
    mix bus zeroed and every playing voice mixed into it. *)
Definition Process (fuel : nat) (this : t) : option (t * list float) :=
  this' ← drain (messageQueue this) this;
  '(players', data) ←
    mix_players fuel (masterVolume this') MAX_SOUND 0 (players this')
      (replicate SAMPLE_BUFFER_SIZE zero);
  Some ({| players := players'; channels := channels this';
           messageQueue := []; masterVolume := masterVolume this';
           nextTick := nextTick this' |}, data).

End Process.
End Sampler.

(** ** The output stage of [Sampler::Process]

The last block of [Sampler::Process] (the portable branch) converts the
mix bus to 16-bit samples, four at a time.  [output] is a list of 16-bit
signed cells.  A 32-bit store through [(uint32_t * )o] covers two
neighbouring cells, the low half first (little-endian, as on the ESP32
and on x86); [>>] on a negative [int32_t] is the arithmetic shift. *)

(** [(int32_t) x]: truncation toward zero; the conversion is undefined
    when the truncated value does not fit in 32 signed bits. *)
Definition to_int32 (x : float) : option Z :=
  match x with
  | S754_zero _ => Some 0
  | S754_finite s m e =>
      let n := trunc_abs m e in
      if s then (if n <=? 2 ^ 31 then Some (- n) else None)
      else if n <? 2 ^ 31 then Some n else None
  | _ => None
  end.

(** [o[i] = v] on a 16-bit cell. *)
Definition store16 (i : nat) (v : Z) (o : list Z) : option (list Z) :=
  if decide (i < length o)%nat then Some (<[i := wrap_int16 v]> o) else None.

(** [((uint32_t * )(o + i))[0] = v]: the cells [i] and [i + 1]. *)
Definition store32 (i : nat) (v : Z) (o : list Z) : option (list Z) :=
  let u := wrap_uint32 v in
  o1 ← store16 i (Z.land u 65535) o;
  store16 (i + 1) (Z.shiftr u 16) o1.

(** The body of the conversion loop, with [o] and [d] both advanced to
    index [base]. *)
Definition output_body (d : list float) (base : nat) (o : list Z) : option (list Z) :=
  d1 ← d !! (base + 1)%nat ≫= to_int32;
  d0 ← d !! base ≫= to_int32;
  d3 ← d !! (base + 3)%nat ≫= to_int32;
  d2 ← d !! (base + 2)%nat ≫= to_int32;
  o ← store32 base d1 o;
  o ← store16 base (Z.shiftr d0 16) o;
  o ← store32 (base + 2) d3 o;
  store16 (base + 2) (Z.shiftr d2 16) o.

Fixpoint output_loop (n : nat) (d : list float) (base : nat) (o : list Z)
    : option (list Z) :=
  match n with
  | O => Some o
  | S n' => o' ← output_body d base o; output_loop n' d (base + 4) o'
  end.

(** [for (int i = 0; i < SAMPLE_BUFFER_SIZE >> 2; i++) ...] *)
Definition write_output {cfg : Config} (data : list float) (output : list Z)
    : option (list Z) :=
  output_loop (Nat.shiftr SAMPLE_BUFFER_SIZE 2) data 0 output.

(** ** Specification vocabulary *)

(** A pool as [Sampler.h] declares it: [MAX_SOUND] voices, at least one. *)
Definition pool_ok {cfg : Config} (players : list SamplePlayer.t) : Prop :=
  length players = MAX_SOUND ∧ (0 < MAX_SOUND)%nat.

(** [id] is the lowest index of a voice that is not playing. *)
Definition lowest_idle (players : list SamplePlayer.t) (id : nat) : Prop :=
  (∃ p, players !! id = Some p ∧ SamplePlayer.playing p = false) ∧
  ∀ j q, (j < id)%nat → players !! j = Some q → SamplePlayer.playing q = true.

(** Every voice is playing and [id] is the first voice with the smallest
    [createdAt]. *)
Definition oldest_playing (players : list SamplePlayer.t) (id : nat) : Prop :=
  (∀ q, q ∈ players → SamplePlayer.playing q = true) ∧
  ∃ p, players !! id = Some p ∧
       (∀ q, q ∈ players → SamplePlayer.createdAt p <= SamplePlayer.createdAt q) ∧
       (∀ j q, (j < id)%nat → players !! j = Some q →
               SamplePlayer.createdAt p < SamplePlayer.createdAt q).

(** Every entry of [notes] refers to a voice of the pool. *)
Definition notes_ok (notes : list PlayingNote.t) (players : list SamplePlayer.t) : Prop :=
  Forall (λ e, (PlayingNote.playerId e < length players)%nat) notes.

(** The voice [p] at index [i] is referenced by an entry of [notes] for
    [noteNo] and still carries that note on the channel at [index]: the
    voices [Channel::NoteOff] is meant to release. *)
Definition released_by (index : nat) (noteNo : Z) (notes : list PlayingNote.t)
    (i : nat) (p : SamplePlayer.t) : bool :=
  existsb (λ e, (PlayingNote.noteNo e =? noteNo) && Nat.eqb (PlayingNote.playerId e) i) notes
  && (SamplePlayer.noteNo p =? noteNo)
  && (SamplePlayer.channel p =? Channel.channelIndex index).

(** The entries [Channel::NoteOff] keeps. *)
Definition kept_notes (noteNo : Z) (notes : list PlayingNote.t) : list PlayingNote.t :=
  filter (λ e, PlayingNote.noteNo e ≠ noteNo) notes.

(** The release segment of the envelope, in the words of the spec:
    [gain] is multiplied by [sample.release]; below [0.001] the gain is
    set to zero and the voice stops. *)
Definition release_step (s : Sample.t) (p : SamplePlayer.t) : SamplePlayer.t :=
  let g := fmul (SamplePlayer.gain p) (Sample.release s) in
  let q := SamplePlayer.set_gain g (SamplePlayer.set_adsrState release p) in
  if flt g f0_001 then SamplePlayer.set_playing false (SamplePlayer.set_gain zero q) else q.

(** The loop end and the loop-back distance of the mixing pass, as the
    spec gives them: the sample's length and no loop without ADSR, the loop
    points with ADSR. *)
Definition loop_end (s : Sample.t) : Z :=
  if Sample.adsrEnabled s then Sample.loopEnd s else Sample.length s.

Definition loop_back (s : Sample.t) : Z :=
  if Sample.adsrEnabled s then Sample.loopStart s - Sample.loopEnd s else 0.

(** The positions of a sample fit the 32-bit signed integers the mixing
    pass holds them in, and the loop region [[loopStart, loopEnd)] is not
    reversed. *)
Definition loop_ok (s : Sample.t) : Prop :=
  0 <= loop_end s < 2 ^ 31 ∧ - loop_end s <= loop_back s <= 0.

(** The voice as the kernel of an envelope step sees it: the envelope is
    advanced first when the sample has ADSR. *)
Definition step_player {cfg : Config} (s : Sample.t) (p : SamplePlayer.t) : SamplePlayer.t :=
  if Sample.adsrEnabled s then SamplePlayer.UpdateGain p else p.

(** The work record of envelope step [j]. *)
Definition step_work {cfg : Config} (masterVolume : float) (j : nat)
    (p : SamplePlayer.t) : Work.t :=
  {| Work.src := SamplePlayer.pos p;
     Work.dst := (j * ADSR_UPDATE_SAMPLE_COUNT)%nat;
     Work.pos_f := SamplePlayer.pos_f p;
     Work.gain := fmul (SamplePlayer.gain p) (fmul masterVolume f65536);
     Work.pitch := SamplePlayer.pitch p |}.

Definition result_player (r : Sampler.step_result) : SamplePlayer.t :=
  match r with
  | Sampler.Continue p _ => p
  | Sampler.Break p _ => p
  end.

(** The bend in semitones of a raw 14-bit value: [b * 12.0f / 8192.0f]. *)
Definition semitones (b : Z) : float := fdiv (fmul (of_int b) twelve) f8192.

(** A voice re-pitched for the bend [bend]. *)
Definition rebend {cfg : Config} (bend : float) (p : SamplePlayer.t) : SamplePlayer.t :=
  SamplePlayer.UpdatePitch (SamplePlayer.set_pitchBend bend p).

(** The voice [p] at index [i] is referenced by an entry of [notes] and
    still belongs to the channel at [index]: the voices
    [Channel::PitchBend] re-pitches. *)
Definition bent_by (index : nat) (notes : list PlayingNote.t) (i : nat)
    (p : SamplePlayer.t) : bool :=
  existsb (λ e, Nat.eqb (PlayingNote.playerId e) i) notes
  && (SamplePlayer.channel p =? Channel.channelIndex index).

(** The pitch of a voice without bend: [2^((noteNo - root)/12)]. *)
Definition unbent_pitch {cfg : Config} (p : SamplePlayer.t) (s : Sample.t) : float :=
  powf two (fdiv (of_int (SamplePlayer.noteNo p - Sample.root s)) twelve).

#[global] Instance float_eq_dec : EqDecision float.
Proof. solve_decision. Defined.

(** [0 <= x < 1] for a binary32 value [x]. *)
Definition is_frac (x : float) : Prop :=
  valid x = true ∧ fle zero x = true ∧ flt x one = true.

Definition f2p32 : float := Eval vm_compute in of_int (2 ^ 32).

(** [0 <= x < 2^32] for a binary32 value [x]. *)
Definition below_2p32 (x : float) : Prop :=
  valid x = true ∧ fle zero x = true ∧ flt x f2p32 = true.

(** One phase advance of the kernel, in the words of the spec:
    [pos_f += pitch; intval = floor(pos_f); pos_f -= intval; src += intval]. *)
Definition advance (pitch : float) (st : Z * float) : option (Z * float) :=
  let x := fadd st.2 pitch in
  intval ← to_uint32 x;
  Some (st.1 + intval, fsub x (of_int intval)).

(** The phase after [k] output samples. *)
Fixpoint phase (pitch : float) (k : nat) (st : Z * float) : option (Z * float) :=
  match k with
  | O => Some st
  | S k' => st' ← advance pitch st; phase pitch k' st'
  end.

(** [env_steps p p']: what happens to a voice between its allocation and
    its end.  The mixing pass takes envelope steps (of any buffers, at any
    master volume), a step being taken only while the voice is playing;
    in between, a note-off of its channel may set [released] and a pitch
    bend of its channel may re-pitch it. *)
Inductive env_steps {cfg : Config} : SamplePlayer.t → SamplePlayer.t → Prop :=
  | env_steps_refl (p : SamplePlayer.t) : env_steps p p
  | env_steps_step (p p1 : SamplePlayer.t) (fuel : nat) (masterVolume : float)
      (j : nat) (data : list float) (r : Sampler.step_result) :
      env_steps p p1 →
      SamplePlayer.playing p1 = true →
      Sampler.envelope_step fuel masterVolume j p1 data = Some r →
      env_steps p (result_player r)
  | env_steps_released (p p1 : SamplePlayer.t) :
      env_steps p p1 →
      env_steps p (SamplePlayer.set_released true p1)
  | env_steps_bent (p p1 : SamplePlayer.t) (bend : float) :
      env_steps p p1 →
      env_steps p (rebend bend p1).

(** ** Further vocabulary *)

(** The region [ms] of a timbre covers the note and the velocity. *)
Definition covers (ms : MappedSample.t) (noteNo velocity : Z) : Prop :=
  MappedSample.lowerNoteNo ms <= noteNo <= MappedSample.upperNoteNo ms ∧
  MappedSample.lowerVelocity ms <= velocity <= MappedSample.upperVelocity ms.

(** The place of a segment in the envelope. *)
Definition segment_rank (a : SampleAdsr) : nat :=
  match a with attack => 0 | decay => 1 | sustain => 2 | release => 3 end.

(** What the mixing pass may do to a voice: advance its envelope and its
    position, and stop it.  Everything else is kept, a voice is never
    started and the envelope never moves back. *)
Definition mixed (p q : SamplePlayer.t) : Prop :=
  SamplePlayer.sample q = SamplePlayer.sample p ∧
  SamplePlayer.noteNo q = SamplePlayer.noteNo p ∧
  SamplePlayer.volume q = SamplePlayer.volume p ∧
  SamplePlayer.pitchBend q = SamplePlayer.pitchBend p ∧
  SamplePlayer.channel q = SamplePlayer.channel p ∧
  SamplePlayer.createdAt q = SamplePlayer.createdAt p ∧
  SamplePlayer.released q = SamplePlayer.released p ∧
  SamplePlayer.pitch q = SamplePlayer.pitch p ∧
  (SamplePlayer.playing q = true → SamplePlayer.playing p = true) ∧
  (segment_rank (SamplePlayer.adsrState p) <= segment_rank (SamplePlayer.adsrState q))%nat.

(** A playing voice the mixing pass can process: the loop region of its
    sample is well formed, its fractional position is a fraction and its
    pitch is below [2^32]. *)
Definition voice_ok (p : SamplePlayer.t) : Prop :=
  SamplePlayer.playing p = true →
  ∀ s, SamplePlayer.sample p = Some s →
       loop_ok s ∧ is_frac (SamplePlayer.pos_f p) ∧ below_2p32 (SamplePlayer.pitch p).

(** A queued message addresses a channel of the sampler. *)
Definition message_ok {cfg : Config} (m : Message.t) : Prop :=
  0 <= Message.channel m < Z.of_nat CH_COUNT.

(** A sampler set up for use: the pool and the channel array have their
    declared sizes, every channel has a timbre, and every entry of every
    channel refers to a voice of the pool. *)
Definition sampler_ok {cfg : Config} (this : Sampler.t) : Prop :=
  pool_ok (Sampler.players this) ∧
  length (Sampler.channels this) = CH_COUNT ∧
  Forall (λ ch, is_Some (Channel.timbre ch) ∧
                notes_ok (Channel.playingNotes ch) (Sampler.players this))
         (Sampler.channels this).

(** A call of the public interface by a producer. *)
Inductive event :=
  | EvNoteOn (noteNo velocity channel : Z)
  | EvNoteOff (noteNo velocity channel : Z)
  | EvPitchBend (pitchBend channel : Z).

Definition send {cfg : Config} (this : Sampler.t) (e : event) : Sampler.t :=
  match e with
  | EvNoteOn n v c => Sampler.NoteOn n v c this
  | EvNoteOff n v c => Sampler.NoteOff n v c this
  | EvPitchBend b c => Sampler.PitchBend b c this
  end.

(** The channel argument of an event is an 8-bit unsigned number. *)
Definition event_ok (e : event) : Prop :=
  match e with
  | EvNoteOn _ _ c | EvNoteOff _ _ c | EvPitchBend _ c => 0 <= c < 256
  end.

(** The binary32 value [x] is exactly [num / 2^k]. *)
Definition is_dyadic (x : float) (num k : Z) : bool :=
  match x with
  | S754_zero _ => num =? 0
  | S754_finite s m e =>
      let v := if s then Zneg m else Zpos m in
      if 0 <=? e + k then v * 2 ^ (e + k) =? num else v =? num * 2 ^ (- (e + k))
  | _ => false
  end.

(** [f] holds of the [n] integers from [z] on. *)
Fixpoint all_from (f : Z → bool) (n : nat) (z : Z) : bool :=
  match n with
  | O => true
  | S n' => f z && all_from f n' (z + 1)
  end.

(** A finite binary32 value that is not negative. *)
Definition finite_nonneg (x : float) : Prop :=
  valid x = true ∧ fle zero x = true ∧ flt x (S754_infinity false) = true.

(** [q] has the fields of [p], but for [released]. *)
Definition same_but_released (p q : SamplePlayer.t) : Prop :=
  SamplePlayer.sample q = SamplePlayer.sample p ∧
  SamplePlayer.noteNo q = SamplePlayer.noteNo p ∧
  SamplePlayer.volume q = SamplePlayer.volume p ∧
  SamplePlayer.pitchBend q = SamplePlayer.pitchBend p ∧
  SamplePlayer.channel q = SamplePlayer.channel p ∧
  SamplePlayer.createdAt q = SamplePlayer.createdAt p ∧
  SamplePlayer.pos q = SamplePlayer.pos p ∧
  SamplePlayer.pos_f q = SamplePlayer.pos_f p ∧
  SamplePlayer.playing q = SamplePlayer.playing p ∧
  SamplePlayer.gain q = SamplePlayer.gain p ∧
  SamplePlayer.pitch q = SamplePlayer.pitch p ∧
  SamplePlayer.adsrState q = SamplePlayer.adsrState p.

(** [q] has the fields of [p], but for [playing]. *)
Definition same_but_playing (p q : SamplePlayer.t) : Prop :=
  SamplePlayer.sample q = SamplePlayer.sample p ∧
  SamplePlayer.noteNo q = SamplePlayer.noteNo p ∧
  SamplePlayer.volume q = SamplePlayer.volume p ∧
  SamplePlayer.pitchBend q = SamplePlayer.pitchBend p ∧
  SamplePlayer.channel q = SamplePlayer.channel p ∧
  SamplePlayer.createdAt q = SamplePlayer.createdAt p ∧
  SamplePlayer.pos q = SamplePlayer.pos p ∧
  SamplePlayer.pos_f q = SamplePlayer.pos_f p ∧
  SamplePlayer.released q = SamplePlayer.released p ∧
  SamplePlayer.gain q = SamplePlayer.gain p ∧
  SamplePlayer.pitch q = SamplePlayer.pitch p ∧
  SamplePlayer.adsrState q = SamplePlayer.adsrState p.

(** The number of cells of the array behind a sample's base pointer is
    not known to the code; below, [cells] is that number. *)





(** ** Concrete configurations and states

    Small instances on which the statements below are evaluated. *)

Module Demo.

(** A reference [powf] for the examples: exact where the exponent is 0, 1
    or 1/2 (the square root is correctly rounded), not a number elsewhere. *)
Definition powf_demo (x y : float) : float :=
  if SFeqb y zero then one
  else if SFeqb y one then x
  else if SFeqb y (fdiv one two) then SFsqrt prec emax x
  else S754_nan.

Definition half : float := Eval vm_compute in fdiv one two.

(** Two voices, one channel, envelope steps of four samples, two steps
    per buffer. *)
Definition cfg : Config := {|
  CH_COUNT := 1;
  MAX_SOUND := 2;
  SAMPLE_BUFFER_SIZE := 8;
  ADSR_UPDATE_SAMPLE_COUNT := 4;
  velocityTable := fun v => fdiv (of_int v) (of_int 127);
  powf := powf_demo
|}.

(** A one-shot sample of constant value [0x4000], six samples long. *)
Definition oneshot : Sample.t := {|
  Sample.sample := fun _ => 16384;
  Sample.length := 6;
  Sample.root := 60;
  Sample.adsrEnabled := false;
  Sample.attack := one;
  Sample.decay := one;
  Sample.sustain := one;
  Sample.release := one;
  Sample.loopStart := 0;
  Sample.loopEnd := 0
|}.

(** A looped sample with an envelope: loop region [[100, 200)]. *)
Definition looped : Sample.t := {|
  Sample.sample := fun i => i mod 128;
  Sample.length := 256;
  Sample.root := 60;
  Sample.adsrEnabled := true;
  Sample.attack := half;
  Sample.decay := half;
  Sample.sustain := half;
  Sample.release := half;
  Sample.loopStart := 100;
  Sample.loopEnd := 200
|}.

Definition region (s : Sample.t) (lo hi : Z) : MappedSample.t := {|
  MappedSample.sample := s;
  MappedSample.lowerNoteNo := lo;
  MappedSample.upperNoteNo := hi;
  MappedSample.lowerVelocity := 0;
  MappedSample.upperVelocity := 127
|}.

(** Notes 0..69 play [looped], notes 70..100 play [oneshot]; notes above
    100 match nothing. *)
Definition timbre : Timbre.t :=
  {| Timbre.samples := [region looped 0 69; region oneshot 70 100] |}.

Definition idle : SamplePlayer.t := SamplePlayer.new (cfg := cfg) None 60 one zero 0 0.

Definition channel0 : Channel.t := {|
  Channel.sampler := Alive;
  Channel.timbre := Some timbre;
  Channel.pitchBend := zero;
  Channel.playingNotes := []
|}.

(** A channel whose timbre was never set. *)
Definition bare_channel : Channel.t := {|
  Channel.sampler := Alive;
  Channel.timbre := None;
  Channel.pitchBend := zero;
  Channel.playingNotes := []
|}.

(** A channel whose sampler is gone. *)
Definition orphan_channel : Channel.t := {|
  Channel.sampler := Expired;
  Channel.timbre := Some timbre;
  Channel.pitchBend := zero;
  Channel.playingNotes := []
|}.

Definition pool0 : list SamplePlayer.t := [idle; idle].

(** The sampler at rest. *)
Definition idle_sampler : Sampler.t := {|
  Sampler.players := pool0;
  Sampler.channels := [channel0];
  Sampler.messageQueue := [];
  Sampler.masterVolume := half;
  Sampler.nextTick := 1
|}.

(** Both voices playing; the second one is the older. *)
Definition busy_pool : list SamplePlayer.t :=
  [SamplePlayer.new (cfg := cfg) (Some looped) 60 one zero 0 5;
   SamplePlayer.new (cfg := cfg) (Some looped) 62 one zero 0 3].

(** The channel, the pool and the tick counter after a note-on for note
    120, which the timbre has no sample for. *)
Definition after_unmatched_note : Channel.t * list SamplePlayer.t * Z :=
  Eval vm_compute in
    default (channel0, pool0, 0) (Channel.NoteOn (cfg := cfg) 0 120 100 channel0 pool0 0).

(** Channel 0 holding notes 60 (voice 0) and 62 (voice 1). *)
Definition holding_channel : Channel.t := {|
  Channel.sampler := Alive;
  Channel.timbre := Some timbre;
  Channel.pitchBend := zero;
  Channel.playingNotes :=
    [ {| PlayingNote.noteNo := 60; PlayingNote.playerId := 0 |};
      {| PlayingNote.noteNo := 62; PlayingNote.playerId := 1 |} ]
|}.

(** The pool after voice 0 was stolen for note 64. *)
Definition stolen_pool : list SamplePlayer.t :=
  [SamplePlayer.new (cfg := cfg) (Some oneshot) 64 one zero 0 7;
   SamplePlayer.new (cfg := cfg) (Some looped) 62 one zero 0 3].

(** A voice of [looped] in its decay segment whose note was released. *)
Definition released_voice : SamplePlayer.t := {|
  SamplePlayer.sample := Some looped;
  SamplePlayer.noteNo := 60;
  SamplePlayer.volume := one;
  SamplePlayer.pitchBend := zero;
  SamplePlayer.channel := 0;
  SamplePlayer.createdAt := 3;
  SamplePlayer.pos := 120;
  SamplePlayer.pos_f := zero;
  SamplePlayer.playing := true;
  SamplePlayer.released := true;
  SamplePlayer.gain := one;
  SamplePlayer.pitch := one;
  SamplePlayer.adsrState := decay
|}.

Definition f64 : float := Eval vm_compute in of_int 64.

(** A voice of [looped] at position 190, played 64 times too fast. *)
Definition fast_voice : SamplePlayer.t := {|
  SamplePlayer.sample := Some looped;
  SamplePlayer.noteNo := 60;
  SamplePlayer.volume := one;
  SamplePlayer.pitchBend := zero;
  SamplePlayer.channel := 0;
  SamplePlayer.createdAt := 3;
  SamplePlayer.pos := 190;
  SamplePlayer.pos_f := zero;
  SamplePlayer.playing := true;
  SamplePlayer.released := false;
  SamplePlayer.gain := half;
  SamplePlayer.pitch := f64;
  SamplePlayer.adsrState := sustain
|}.

(** The empty mix bus. *)
Definition bus0 : list float := replicate (SAMPLE_BUFFER_SIZE (Config := cfg)) zero.

(** The kernel's result for the first envelope step of [fast_voice]. *)
Definition fast_result : list float * Work.t :=
  Eval vm_compute in
    default (bus0, step_work (cfg := cfg) one 0 fast_voice)
      (sampler_process_inner (Sample.sample looped) bus0
         (step_work (cfg := cfg) one 0 (step_player (cfg := cfg) looped fast_voice)) 4).



(** A fresh voice of the one-shot sample, and the same voice after its
    first envelope step. *)
Definition oneshot_voice : SamplePlayer.t :=
  SamplePlayer.new (cfg := cfg) (Some oneshot) 60 half zero 0 1.

Definition oneshot_step : Sampler.step_result :=
  Eval vm_compute in
    default (Sampler.Break oneshot_voice bus0)
      (Sampler.envelope_step (cfg := cfg) 0 one 0 oneshot_voice bus0).

(** Channel 0 and the pool after [PitchBend(4096)] (six semitones up),
    [NoteOn(66, 100)] and [NoteOff(66, 0)]: voice 0 sounds its release
    segment at pitch [2^((66 - 60 + 6)/12) = 2], and the channel holds no
    note. *)
Definition fading_state : Channel.t * list SamplePlayer.t :=
  Eval vm_compute in
    default (channel0, pool0)
      ('(c1, p1) ← Channel.PitchBend (cfg := cfg) 0 4096 channel0 pool0;
       '(c2, p2, _) ← Channel.NoteOn (cfg := cfg) 0 66 100 c1 p1 1;
       Channel.NoteOff 0 66 0 c2 p2).

(** [fading_state] after [PitchBend(1000)] and [PitchBend(0)]. *)
Definition fading_unbent : Channel.t * list SamplePlayer.t :=
  Eval vm_compute in
    default (channel0, pool0)
      ('(c1, p1) ← Channel.PitchBend (cfg := cfg) 0 1000 fading_state.1 fading_state.2;
       Channel.PitchBend (cfg := cfg) 0 0 c1 p1).

(** The correctly rounded square root of two, [powf(2, 0.5)]. *)
Definition sqrt2 : float := Eval vm_compute in SFsqrt prec emax two.

End Demo.

(** Further instances, over the configuration [Demo.cfg]. *)

Module Bench.

(** A looped sample of constant value with an envelope: loop region
    [[2, 6)]. *)
Definition pad : Sample.t := {|
  Sample.sample := fun _ => 8192;
  Sample.length := 8;
  Sample.root := 60;
  Sample.adsrEnabled := true;
  Sample.attack := Demo.half;
  Sample.decay := Demo.half;
  Sample.sustain := Demo.half;
  Sample.release := Demo.half;
  Sample.loopStart := 2;
  Sample.loopEnd := 6
|}.

(** The same sample with its loop end left at 0. *)
Definition unlooped : Sample.t := {|
  Sample.sample := fun _ => 8192;
  Sample.length := 8;
  Sample.root := 60;
  Sample.adsrEnabled := true;
  Sample.attack := Demo.half;
  Sample.decay := Demo.half;
  Sample.sustain := Demo.half;
  Sample.release := Demo.half;
  Sample.loopStart := 2;
  Sample.loopEnd := 0
|}.

Definition voice (s : Sample.t) (a : SampleAdsr) (g : float) : SamplePlayer.t := {|
  SamplePlayer.sample := Some s;
  SamplePlayer.noteNo := 60;
  SamplePlayer.volume := one;
  SamplePlayer.pitchBend := zero;
  SamplePlayer.channel := 0;
  SamplePlayer.createdAt := 3;
  SamplePlayer.pos := 0;
  SamplePlayer.pos_f := zero;
  SamplePlayer.playing := true;
  SamplePlayer.released := false;
  SamplePlayer.gain := g;
  SamplePlayer.pitch := one;
  SamplePlayer.adsrState := a
|}.

(** A held voice of [pad] in its sustain segment, one in its attack
    segment, and a voice of [unlooped]. *)
Definition held : SamplePlayer.t := voice pad sustain Demo.half.
Definition rising : SamplePlayer.t := voice pad attack zero.
Definition stuck : SamplePlayer.t := voice unlooped sustain Demo.half.

Definition timbre : Timbre.t := {| Timbre.samples := [Demo.region pad 0 127] |}.

Definition channel : Channel.t := {|
  Channel.sampler := Alive;
  Channel.timbre := Some timbre;
  Channel.pitchBend := zero;
  Channel.playingNotes := [ {| PlayingNote.noteNo := 60; PlayingNote.playerId := 0 |} ]
|}.

Definition pool : list SamplePlayer.t := [held; Demo.idle].

(** A sampler with one voice sounding and no message pending. *)
Definition sampler : Sampler.t := {|
  Sampler.players := pool;
  Sampler.channels := [channel];
  Sampler.messageQueue := [];
  Sampler.masterVolume := Demo.half;
  Sampler.nextTick := 9
|}.

(** The pool and the bus after the mixing loop, and the sampler and the
    bus after [Process]. *)
Definition mixed_pool : list SamplePlayer.t * list float :=
  Eval vm_compute in
    default (pool, Demo.bus0)
      (Sampler.mix_players (cfg := Demo.cfg) 8 Demo.half 2 0 pool Demo.bus0).

Definition processed : Sampler.t * list float :=
  Eval vm_compute in
    default (sampler, Demo.bus0) (Sampler.Process (cfg := Demo.cfg) 8 sampler).

Definition mixed_held : SamplePlayer.t * list float :=
  Eval vm_compute in
    default (held, Demo.bus0)
      (Sampler.mix_voice (cfg := Demo.cfg) 8 Demo.half held Demo.bus0).

(** A work record at the start of [pad] and the kernel's result for four
    samples. *)
Definition work : Work.t := {|
  Work.src := 0;
  Work.dst := 4;
  Work.pos_f := zero;
  Work.gain := one;
  Work.pitch := Demo.half
|}.

(** A work record at the rate 1. *)
Definition unit_work : Work.t := {|
  Work.src := 2;
  Work.dst := 4;
  Work.pos_f := zero;
  Work.gain := Demo.half;
  Work.pitch := one
|}.

Definition kernel_result : list float * Work.t :=
  Eval vm_compute in
    default (Demo.bus0, work) (sampler_process_inner (Sample.sample pad) Demo.bus0 work 4).

(** A mix bus with the integer parts [3 * 65536], [-65536], [65535],
    [-1], [0], [2^31 - 128], [-2^31] and [70000], and an output buffer. *)
Definition bus : list float :=
  Eval vm_compute in
    map of_int [196608; -65536; 65535; -1; 0; 2147483520; -2147483648; 70000].

Definition out0 : list Z := replicate 8 7.

(** The channel after [PitchBend(4096)]. *)
Definition bent : Channel.t * list SamplePlayer.t :=
  (Channel.set_pitchBend (semitones 4096) Demo.channel0, Demo.pool0).

(** The second envelope step of [held] on the empty bus. *)
Definition second_step : Sampler.step_result :=
  Eval vm_compute in
    default (Sampler.Break held Demo.bus0)
      (Sampler.envelope_step (cfg := Demo.cfg) 8 Demo.half 1 held Demo.bus0).

(** A voice that channel 1 took over for note 60, and channel 0 with a
    stale entry for it. *)
Definition foreign : SamplePlayer.t := {|
  SamplePlayer.sample := Some pad;
  SamplePlayer.noteNo := 60;
  SamplePlayer.volume := one;
  SamplePlayer.pitchBend := zero;
  SamplePlayer.channel := 1;
  SamplePlayer.createdAt := 7;
  SamplePlayer.pos := 0;
  SamplePlayer.pos_f := zero;
  SamplePlayer.playing := true;
  SamplePlayer.released := false;
  SamplePlayer.gain := zero;
  SamplePlayer.pitch := one;
  SamplePlayer.adsrState := attack
|}.

Definition shared_pool : list SamplePlayer.t := [held; foreign].

Definition stale_channel : Channel.t := {|
  Channel.sampler := Alive;
  Channel.timbre := Some timbre;
  Channel.pitchBend := zero;
  Channel.playingNotes :=
    [ {| PlayingNote.noteNo := 60; PlayingNote.playerId := 0 |};
      {| PlayingNote.noteNo := 60; PlayingNote.playerId := 1 |} ]
|}.

(** Three calls of the public interface; the last one names a channel
    that does not exist. *)
Definition events : list event :=
  [EvNoteOn 60 100 0; EvPitchBend 4096 0; EvNoteOff 60 0 3].

End Bench.

(** * Properties *)

(** ** binary32 facts *)

Section Binary32Facts.

(** *** Digits *)

Lemma digits2_pos_size (m : positive) : digits2_pos m = Pos.size m.
Proof. induction m; cbn; congruence. Qed.

Lemma digits_bounds (m : positive) :
  2 ^ (Zpos (digits2_pos m) - 1) <= Zpos m < 2 ^ Zpos (digits2_pos m).
Proof.
  rewrite digits2_pos_size. split.
  - pose proof (Pos.size_le m) as H.
    assert (Hz : 2 ^ Zpos (Pos.size m) <= Zpos m~0).
    { rewrite <- Pos2Z.inj_pow. exact H. }
    replace (Zpos (Pos.size m)) with (Zpos (Pos.size m) - 1 + 1) in Hz by lia.
    rewrite Z.pow_add_r in Hz by lia. lia.
  - pose proof (Pos.size_gt m) as H.
    rewrite <- Pos2Z.inj_pow. exact H.
Qed.

Lemma digits_unique (m : positive) (d : Z) :
  2 ^ (d - 1) <= Zpos m < 2 ^ d → Zpos (digits2_pos m) = d.
Proof.
  intros [Hlo Hhi]. pose proof (digits_bounds m) as [Hlo' Hhi'].
  assert (0 < d).
  { destruct (Z.ltb_spec 0 d); [done|].
    assert (2 ^ d <= 2 ^ 0) by (destruct (Z.eq_dec d 0) as [->|]; [lia|rewrite Z.pow_neg_r; lia]).
    lia. }
  destruct (Z.lt_trichotomy (Zpos (digits2_pos m)) d) as [Hlt|[Heq|Hgt]]; [|done|].
  - assert (2 ^ Zpos (digits2_pos m) <= 2 ^ (d - 1)) by (apply Z.pow_le_mono_r; lia). lia.
  - assert (2 ^ d <= 2 ^ (Zpos (digits2_pos m) - 1)) by (apply Z.pow_le_mono_r; lia). lia.
Qed.

Lemma digits_le (m : positive) (d : Z) :
  Zpos m < 2 ^ d → Zpos (digits2_pos m) <= d.
Proof.
  intros Hhi. pose proof (digits_bounds m) as [Hlo' _].
  destruct (Z.leb_spec (Zpos (digits2_pos m)) d); [done|].
  assert (2 ^ d <= 2 ^ (Zpos (digits2_pos m) - 1)).
  { destruct (Z.ltb_spec d 0); [rewrite Z.pow_neg_r; lia|apply Z.pow_le_mono_r; lia]. }
  lia.
Qed.

Lemma pow2_pred (k : Z) : 0 < k → 2 ^ k = 2 * 2 ^ (k - 1).
Proof.
  intros Hk. rewrite <- Z.pow_succ_r by lia. f_equal. lia.
Qed.

Lemma iter_xO (m d : positive) : Zpos (Pos.iter xO m d) = Zpos m * 2 ^ Zpos d.
Proof.
  induction d as [|d IH] using Pos.peano_ind.
  - cbn. lia.
  - rewrite Pos.iter_succ, Pos2Z.inj_succ, Z.pow_succ_r by lia.
    rewrite Pos2Z.inj_xO, IH. lia.
Qed.

(** [shl_align] to a smaller exponent keeps the value. *)
Lemma shl_align_le (m : positive) (e e' : Z) :
  e' <= e →
  Zpos (shl_align m e e').1 = Zpos m * 2 ^ (e - e') ∧
  (shl_align m e e').2 = e'.
Proof.
  intros Hle. unfold shl_align.
  destruct (e' - e) as [|d|d] eqn:Hd; cbn.
  - assert (e = e') by lia. subst. rewrite Z.sub_diag. lia.
  - lia.
  - rewrite iter_xO. replace (e - e') with (Zpos d) by lia. done.
Qed.

Lemma shl_align_ge (m : positive) (e e' : Z) :
  e <= e' → shl_align m e e' = (m, e).
Proof.
  intros Hle. unfold shl_align.
  destruct (e' - e) as [|d|d] eqn:Hd; try done. lia.
Qed.

(** *** Shifting right *)

Lemma iter_pos_iter {A} (f : A → A) (n : positive) (x : A) :
  SpecFloat.iter_pos f n x = Pos.iter f x n.
Proof.
  revert x. induction n as [n IH|n IH|]; intros x; cbn.
  - rewrite !IH. by rewrite <- !Pos.iter_swap.
  - by rewrite !IH.
  - done.
Qed.

Lemma shr_1_nonneg (m : Z) (r s : bool) :
  0 <= m →
  shr_1 {| shr_m := m; shr_r := r; shr_s := s |} =
    {| shr_m := m / 2; shr_r := Z.odd m; shr_s := r || s |}.
Proof.
  intros Hm. destruct m as [|p|p]; [done| |lia].
  destruct p as [p|p|]; cbn [shr_1].
  - f_equal. rewrite Pos2Z.inj_xI. apply Z.div_unique with 1; lia.
  - f_equal. rewrite Pos2Z.inj_xO. apply Z.div_unique with 0; lia.
  - done.
Qed.

Lemma iter_shr (n : positive) (m : Z) (r s : bool) :
  0 <= m →
  let R := SpecFloat.iter_pos shr_1 n {| shr_m := m; shr_r := r; shr_s := s |} in
  shr_m R = m / 2 ^ Zpos n ∧ shr_r R = Z.odd (m / 2 ^ (Zpos n - 1)).
Proof.
  intros Hm. cbn zeta. rewrite iter_pos_iter.
  induction n as [|n IH] using Pos.peano_ind.
  - cbn [Pos.iter]. rewrite shr_1_nonneg by done. cbn. split; [done|].
    by rewrite Z.div_1_r.
  - rewrite Pos.iter_succ.
    destruct (Pos.iter shr_1 _ n) as [m' r' s'] eqn:HR. cbn in IH.
    destruct IH as [-> ->].
    rewrite shr_1_nonneg by (apply Z.div_pos; lia). cbn.
    rewrite Pos2Z.inj_succ. split.
    + rewrite Z.pow_succ_r by lia. rewrite Z.div_div by lia. f_equal. lia.
    + f_equal. f_equal. f_equal. lia.
Qed.


(** *** Rounding *)

Lemma fexp_eq (e : Z) : fexp prec emax e = Z.max (e - 24) (-149).
Proof. reflexivity. Qed.

Lemma bounded_iff (m : positive) (e : Z) :
  bounded prec emax m e = true ↔
  Z.max (Zpos (digits2_pos m) + e - 24) (-149) = e ∧ e <= 104.
Proof.
  unfold bounded, canonical_mantissa. rewrite andb_true_iff, fexp_eq, Z.eqb_eq, Z.leb_le.
  done.
Qed.

Lemma digits_shift (m m' : positive) (k : Z) :
  0 <= k → Zpos m' = Zpos m * 2 ^ k →
  Zpos (digits2_pos m') = Zpos (digits2_pos m) + k.
Proof.
  intros Hk Hm. apply digits_unique. rewrite Hm.
  pose proof (digits_bounds m) as [Hlo Hhi].
  replace (Zpos (digits2_pos m) + k - 1) with (Zpos (digits2_pos m) - 1 + k) by lia.
  rewrite !Z.pow_add_r by lia.
  assert (0 < 2 ^ k) by (apply Z.pow_pos_nonneg; lia). nia.
Qed.

(** A mantissa that needs no shift is kept as it is. *)
Lemma round_aux_noshift (s : bool) (m : positive) (e : Z) :
  fexp prec emax (Zpos (digits2_pos m) + e) <= e → e <= 104 →
  binary_round_aux prec emax s (Zpos m) e loc_Exact = S754_finite s m e.
Proof.
  intros Hf He. unfold binary_round_aux.
  assert (Hshr : shr_fexp prec emax (Zpos m) e loc_Exact
                 = ({| shr_m := Zpos m; shr_r := false; shr_s := false |}, e)).
  { unfold shr_fexp, shr. cbn [Zdigits2 shr_record_of_loc].
    destruct (fexp prec emax (Zpos (digits2_pos m) + e) - e) eqn:Hc; try done. lia. }
  rewrite Hshr. cbn [loc_of_shr_record shr_m round_nearest_even]. rewrite Hshr.
  cbn [shr_m]. change (emax - prec) with 104.
  by rewrite (proj2 (Z.leb_le _ _) He).
Qed.

(** A value that fits the format is represented exactly. *)
Lemma binary_round_exact (s : bool) (m : positive) (e : Z) :
  let f0 := fexp prec emax (Zpos (digits2_pos m) + e) in
  f0 <= e → f0 <= 104 →
  ∃ m', binary_round prec emax s m e = S754_finite s m' f0 ∧
        Zpos m' = Zpos m * 2 ^ (e - f0) ∧
        bounded prec emax m' f0 = true.
Proof.
  intros f0 Hf H104. unfold binary_round. fold f0.
  destruct (shl_align m e f0) as [mz ez] eqn:Hal.
  pose proof (shl_align_le m e f0 Hf) as [Hmz Hez]. rewrite Hal in Hmz, Hez.
  cbn in Hmz, Hez. subst ez.
  assert (Hd : Zpos (digits2_pos mz) + f0 = Zpos (digits2_pos m) + e).
  { rewrite (digits_shift m mz (e - f0)) by (done || lia). lia. }
  exists mz. split; [|split; [done|]].
  - apply round_aux_noshift; [|done]. rewrite Hd. fold f0. lia.
  - apply bounded_iff. split; [|done].
    replace (Zpos (digits2_pos mz) + f0 - 24) with (Zpos (digits2_pos m) + e - 24) by lia.
    subst f0. by rewrite fexp_eq.
Qed.

(** A value with too many digits is rounded to 24 digits; when the first
    dropped bit is zero the mantissa is truncated. *)
Lemma binary_round_rounds (s : bool) (m : positive) (e : Z) :
  let mag := Zpos (digits2_pos m) + e in
  -149 <= e → e < mag - 24 → mag - 23 <= 104 →
  ∃ m' e', binary_round prec emax s m e = S754_finite s m' e' ∧
           bounded prec emax m' e' = true ∧
           Zpos (digits2_pos m') + e' <= mag + 1 ∧
           (Z.odd (Zpos m / 2 ^ (mag - 24 - e - 1)) = false →
              Zpos m' = Zpos m / 2 ^ (mag - 24 - e) ∧ e' = mag - 24).
Proof.
  intros mag He Hlt H104.
  set (c := mag - 24 - e).
  assert (Hc : 0 < c) by (unfold c; lia).
  assert (Hf0 : fexp prec emax mag = mag - 24) by (rewrite fexp_eq; lia).
  unfold binary_round. fold mag. rewrite Hf0.
  rewrite shl_align_ge by lia.
  pose proof (digits_bounds m) as [Hlo Hhi].
  set (m1 := Zpos m / 2 ^ c).
  assert (Hm1 : 2 ^ 23 <= m1 < 2 ^ 24).
  { unfold m1. assert (Hd : Zpos (digits2_pos m) = 24 + c) by (unfold c, mag; lia).
    rewrite Hd in Hlo, Hhi.
    replace (24 + c - 1) with (23 + c) in Hlo by lia.
    rewrite Z.pow_add_r in Hlo, Hhi by lia.
    assert (0 < 2 ^ c) by (apply Z.pow_pos_nonneg; lia).
    split.
    - apply Z.div_le_lower_bound; lia.
    - apply Z.div_lt_upper_bound; lia. }
  unfold binary_round_aux.
  destruct c as [|cp|cp] eqn:Hcp; try lia.
  assert (Hshr : ∃ r1 s1,
             shr_fexp prec emax (Zpos m) e loc_Exact
               = ({| shr_m := m1; shr_r := r1; shr_s := s1 |}, mag - 24) ∧
             r1 = Z.odd (Zpos m / 2 ^ (Zpos cp - 1))).
  { unfold shr_fexp, shr. cbn [Zdigits2 shr_record_of_loc]. fold mag. rewrite Hf0.
    replace (mag - 24 - e) with (Zpos cp) by lia.
    destruct (iter_shr cp (Zpos m) false false) as [Hm Hr]; [lia|].
    destruct (SpecFloat.iter_pos shr_1 cp _) as [mm rr ss]. cbn in Hm, Hr.
    exists rr, ss. split; [|done]. f_equal; [by f_equal|lia]. }
  destruct Hshr as (r1 & s1 & Hshr & Hr1). rewrite Hshr. cbn [shr_m].
  set (m2 := round_nearest_even m1 (loc_of_shr_record
               {| shr_m := m1; shr_r := r1; shr_s := s1 |})).
  assert (Hm2 : (m2 = m1 ∨ m2 = m1 + 1) ∧ (r1 = false → m2 = m1)).
  { unfold m2. destruct r1, s1; cbn; try destruct (Z.even m1);
      (split; [auto|intros; (done || lia)]). }
  destruct Hm2 as [Hm2 Hm2r].
  assert (Hm2pos : 0 < m2) by lia.
  destruct m2 as [|p2|p2] eqn:Hp2; try lia.
  destruct (Z.ltb_spec (Zpos p2) (2 ^ 24)) as [Hsmall|Hbig].
  - assert (Hd2 : Zpos (digits2_pos p2) = 24) by (apply digits_unique; lia).
    assert (Hshr2 : shr_fexp prec emax (Zpos p2) (mag - 24) loc_Exact
                    = ({| shr_m := Zpos p2; shr_r := false; shr_s := false |}, mag - 24)).
    { unfold shr_fexp, shr. cbn [Zdigits2 shr_record_of_loc]. rewrite Hd2, fexp_eq.
      replace (Z.max (24 + (mag - 24) - 24) (-149) - (mag - 24)) with 0 by lia. done. }
    rewrite Hshr2. cbn [shr_m]. change (emax - prec) with 104.
    rewrite (proj2 (Z.leb_le (mag - 24) 104)) by lia.
    exists p2, (mag - 24). split; [done|]. split; [|split].
    + apply bounded_iff. rewrite Hd2. lia.
    + lia.
    + intros Hodd. split; [|done]. rewrite Hm2r; [done|]. by rewrite Hr1.
  - assert (Hp2' : Zpos p2 = 2 ^ 24) by lia.
    assert (Hd2 : Zpos (digits2_pos p2) = 25) by (apply digits_unique; lia).
    assert (Hshr2 : shr_fexp prec emax (Zpos p2) (mag - 24) loc_Exact
                    = ({| shr_m := 2 ^ 23; shr_r := false; shr_s := false |}, mag - 23)).
    { unfold shr_fexp, shr. cbn [Zdigits2 shr_record_of_loc]. rewrite Hd2, fexp_eq.
      replace (Z.max (25 + (mag - 24) - 24) (-149) - (mag - 24)) with 1 by lia.
      cbn [SpecFloat.iter_pos]. rewrite shr_1_nonneg by lia. rewrite Hp2'.
      replace (mag - 24 + 1) with (mag - 23) by lia. reflexivity. }
    rewrite Hshr2. cbn [shr_m]. change (2 ^ 23) with (Zpos 8388608).
    cbn iota. change (emax - prec) with 104.
    rewrite (proj2 (Z.leb_le (mag - 23) 104)) by lia.
    exists 8388608%positive, (mag - 23). split; [done|]. split; [|split].
    + apply bounded_iff. cbn [digits2_pos Pos.succ]. lia.
    + cbn [digits2_pos Pos.succ]. lia.
    + intros Hodd. exfalso. rewrite Hm2r in Hp2' by (by rewrite Hr1). lia.
Qed.

(** Rounding a positive value of moderate size gives a valid finite
    float whose magnitude grows by at most one binade. *)
Lemma binary_round_valid (s : bool) (m : positive) (e : Z) :
  let mag := Zpos (digits2_pos m) + e in
  -149 <= e → mag <= 127 →
  ∃ m' e', binary_round prec emax s m e = S754_finite s m' e' ∧
           bounded prec emax m' e' = true ∧
           Zpos (digits2_pos m') + e' <= mag + 1.
Proof.
  intros mag He Hmag.
  destruct (Z.ltb_spec e (mag - 24)) as [Hlt|Hge].
  - destruct (binary_round_rounds s m e He Hlt) as (m' & e' & H1 & H2 & H3 & _);
      [fold mag; lia|]. by exists m', e'.
  - destruct (binary_round_exact s m e) as (m' & H1 & H2 & H3).
    + rewrite fexp_eq. fold mag. lia.
    + rewrite fexp_eq. fold mag. lia.
    + exists m', (fexp prec emax mag). split; [done|]. split; [done|].
      rewrite (digits_shift m m' (e - fexp prec emax mag)); [fold mag; lia| |done].
      rewrite fexp_eq. lia.
Qed.


(** *** Fractions and phases *)

Lemma compare_cont_lt (m n : positive) :
  Pos.compare_cont Eq m n = Lt ↔ Zpos m < Zpos n.
Proof. change (Pos.compare_cont Eq m n) with (Pos.compare m n). apply Pos.compare_lt_iff. Qed.

Lemma bounded_digits (m : positive) (e : Z) :
  bounded prec emax m e = true →
  -149 <= e <= 104 ∧ Zpos (digits2_pos m) <= 24 ∧
  (-149 < e → Zpos (digits2_pos m) = 24).
Proof. rewrite bounded_iff. lia. Qed.

Lemma is_frac_inv (x : float) :
  is_frac x →
  (∃ s, x = S754_zero s) ∨
  (∃ m e, x = S754_finite false m e ∧ bounded prec emax m e = true ∧ e <= -24).
Proof.
  intros (Hv & Hle & Hlt). destruct x as [s|s| |s m e].
  - left. by exists s.
  - destruct s; discriminate.
  - discriminate.
  - right. destruct s; [discriminate|]. exists m, e. split; [done|]. split; [done|].
    unfold flt, SFltb, one, SFcompare in Hlt.
    unfold valid, valid_binary in Hv.
    destruct (bounded_digits m e Hv) as (He & Hd & Hn).
    destruct (Z.compare_spec e (-23)) as [->|?|?]; [|lia|discriminate].
    destruct (Pos.compare_cont Eq m 8388608) eqn:Hc; try discriminate.
    apply (proj1 (compare_cont_lt _ _)) in Hc.
    pose proof (digits_bounds m) as [Hlo _]. rewrite Hn in Hlo by lia.
    change (2 ^ (24 - 1)) with 8388608 in Hlo. lia.
Qed.

Lemma is_frac_zero (s : bool) : is_frac (S754_zero s).
Proof. by destruct s. Qed.

Lemma is_frac_finite (m : positive) (e : Z) :
  bounded prec emax m e = true → e <= -24 → is_frac (S754_finite false m e).
Proof.
  intros Hb He. split; [done|]. split; [done|].
  unfold flt, SFltb, one, SFcompare.
  destruct (Z.compare_spec e (-23)); (done || lia).
Qed.

Lemma below_2p32_inv (x : float) :
  below_2p32 x →
  (∃ s, x = S754_zero s) ∨
  (∃ m e, x = S754_finite false m e ∧ bounded prec emax m e = true ∧ e <= 8).
Proof.
  intros (Hv & Hle & Hlt). destruct x as [s|s| |s m e].
  - left. by exists s.
  - destruct s; discriminate.
  - discriminate.
  - right. destruct s; [discriminate|]. exists m, e. split; [done|]. split; [done|].
    unfold flt, SFltb, f2p32, SFcompare in Hlt.
    unfold valid, valid_binary in Hv.
    destruct (bounded_digits m e Hv) as (He & Hd & Hn).
    destruct (Z.compare_spec e 9) as [->|?|?]; [|lia|discriminate].
    destruct (Pos.compare_cont Eq m 8388608) eqn:Hc; try discriminate.
    apply (proj1 (compare_cont_lt _ _)) in Hc.
    pose proof (digits_bounds m) as [Hlo _]. rewrite Hn in Hlo by lia.
    change (2 ^ (24 - 1)) with 8388608 in Hlo. lia.
Qed.

(** The sum of a fraction and a pitch below [2^32] is zero or a valid
    non-negative float below [2^32]. *)
Lemma fadd_frac_pitch (f p : float) :
  is_frac f → below_2p32 p →
  (∃ s, fadd f p = S754_zero s) ∨
  (∃ m e, fadd f p = S754_finite false m e ∧ bounded prec emax m e = true ∧
          Zpos (digits2_pos m) + e <= 32).
Proof.
  intros Hf Hp.
  destruct (is_frac_inv f Hf) as [[sf ->]|(mf & ef & -> & Hbf & Hef)];
    destruct (below_2p32_inv p Hp) as [[sp ->]|(mp & ep & -> & Hbp & Hep)].
  - left. destruct sf, sp; by eexists.
  - right. exists mp, ep. split; [done|]. split; [done|].
    destruct (bounded_digits mp ep Hbp) as (? & ? & ?). lia.
  - right. exists mf, ef. split; [done|]. split; [done|].
    destruct (bounded_digits mf ef Hbf) as (? & ? & ?). lia.
  - right.
    destruct (bounded_digits mf ef Hbf) as (Hef' & Hdf & _).
    destruct (bounded_digits mp ep Hbp) as (Hep' & Hdp & Hnp).
    pose proof (digits_bounds mf) as [_ Hmf].
    pose proof (digits_bounds mp) as [Hmp_lo Hmp].
    unfold fadd, SFadd. cbn [cond_Zopp].
    set (ez := Z.min ef ep).
    destruct (shl_align_le mf ef ez ltac:(lia)) as [Ha _].
    destruct (shl_align_le mp ep ez ltac:(lia)) as [Hb _].
    set (a := (shl_align mf ef ez).1) in *. set (b := (shl_align mp ep ez).1) in *.
    change (Zpos a + Zpos b) with (Zpos (a + b)). cbn [binary_normalize].
    assert (Hab : Zpos (a + b) = Zpos mf * 2 ^ (ef - ez) + Zpos mp * 2 ^ (ep - ez))
      by (rewrite Pos2Z.inj_add; lia).
    assert (Hmf24 : Zpos mf < 2 ^ 24).
    { eapply Z.lt_le_trans; [exact Hmf|]. apply Z.pow_le_mono_r; lia. }
    destruct (Z.leb_spec 1 ep) as [Hbig|Hsmall].
    + (* the pitch is an integer of at least 2^24: the fraction is rounded away *)
      assert (Hez : ez = ef) by lia.
      rewrite Hez, Z.sub_diag, Z.pow_0_r, Z.mul_1_r in Hab.
      rewrite Hnp in Hmp_lo, Hmp by lia.
      set (k := ep - ef) in *.
      assert (Hk : 25 <= k) by (unfold k; lia).
      assert (H2k : 2 ^ 24 <= 2 ^ k) by (apply Z.pow_le_mono_r; lia).
      assert (Hd : Zpos (digits2_pos (a + b)) = 24 + k).
      { apply digits_unique. rewrite Hab.
        replace (24 + k - 1) with (23 + k) by lia. rewrite !Z.pow_add_r by lia.
        change (2 ^ (24 - 1)) with (2 ^ 23) in Hmp_lo. nia. }
      destruct (binary_round_rounds false (a + b) ez) as (m' & e' & H1 & H2 & _ & H4).
      * lia.
      * rewrite Hd. lia.
      * rewrite Hd. lia.
      * exists m', e'. split; [done|]. split; [done|].
        destruct (bounded_digits m' e' H2) as (? & ? & ?).
        rewrite Hd, Hez in H4.
        replace (24 + k + ef - 24 - ef) with k in H4 by lia.
        destruct H4 as [_ He']; [|lia].
        rewrite Hab.
        replace (Zpos mf + Zpos mp * 2 ^ k) with (2 * Zpos mp * 2 ^ (k - 1) + Zpos mf).
        2:{ rewrite (pow2_pred k) by lia. lia. }
        assert (2 ^ 24 <= 2 ^ (k - 1)) by (apply Z.pow_le_mono_r; lia).
        rewrite Z.div_add_l by lia. rewrite (Z.div_small (Zpos mf)) by lia.
        rewrite Z.add_0_r, Z.odd_mul. reflexivity.
    + (* the pitch is below 2^24: the sum is below 2^25 *)
      assert (Hmag : Zpos (digits2_pos (a + b)) + ez <= 25).
      { assert (Zpos (digits2_pos (a + b)) <= 25 - ez); [|lia].
        apply digits_le. rewrite Hab.
        assert (Zpos mf * 2 ^ (ef - ez) < 2 ^ (- ez)).
        { replace (- ez) with ((- ef) + (ef - ez)) by lia. rewrite Z.pow_add_r by lia.
          assert (0 < 2 ^ (ef - ez)) by (apply Z.pow_pos_nonneg; lia).
          assert (Zpos mf < 2 ^ (- ef)).
          { eapply Z.lt_le_trans; [exact Hmf|]. apply Z.pow_le_mono_r; lia. }
          nia. }
        assert (Zpos mp * 2 ^ (ep - ez) < 2 ^ (24 - ez)).
        { replace (24 - ez) with ((24 - ep) + (ep - ez)) by lia. rewrite Z.pow_add_r by lia.
          assert (0 < 2 ^ (ep - ez)) by (apply Z.pow_pos_nonneg; lia).
          assert (Zpos mp < 2 ^ (24 - ep)).
          { eapply Z.lt_le_trans; [exact Hmp|]. apply Z.pow_le_mono_r; lia. }
          nia. }
        assert (2 ^ (- ez) <= 2 ^ (24 - ez)) by (apply Z.pow_le_mono_r; lia).
        replace (25 - ez) with (Z.succ (24 - ez)) by lia.
        rewrite Z.pow_succ_r by lia. lia. }
      destruct (binary_round_valid false (a + b) ez) as (m' & e' & H1 & H2 & H3);
        [lia|lia|].
      exists m', e'. split; [done|]. split; [done|]. lia.
Qed.

(** A non-negative float below [2^32] converts to a 32-bit unsigned
    integer. *)
Lemma trunc_abs_range (m : positive) (e : Z) :
  Zpos (digits2_pos m) + e <= 32 → 0 <= trunc_abs m e < 2 ^ 32.
Proof.
  intros Hmag. unfold trunc_abs. pose proof (digits_bounds m) as [_ Hhi].
  destruct (Z.leb_spec 0 e).
  - split; [apply Z.mul_nonneg_nonneg; [lia|apply Z.pow_nonneg; lia]|].
    assert (Zpos m * 2 ^ e < 2 ^ Zpos (digits2_pos m) * 2 ^ e).
    { apply Z.mul_lt_mono_pos_r; [apply Z.pow_pos_nonneg; lia|done]. }
    rewrite <- Z.pow_add_r in H0 by lia.
    eapply Z.lt_le_trans; [exact H0|]. apply Z.pow_le_mono_r; lia.
  - assert (0 < 2 ^ (- e)) by (apply Z.pow_pos_nonneg; lia).
    split; [apply Z.div_pos; lia|].
    apply Z.div_lt_upper_bound; [done|].
    assert (2 ^ Zpos (digits2_pos m) <= 2 ^ (- e) * 2 ^ 32); [|lia].
    rewrite <- Z.pow_add_r by lia. apply Z.pow_le_mono_r; lia.
Qed.

(** The conversion takes the floor of a non-negative float [m * 2^e]. *)
Lemma trunc_abs_floor (m : positive) (e : Z) :
  (0 <= e → trunc_abs m e = Zpos m * 2 ^ e) ∧
  (e < 0 → trunc_abs m e * 2 ^ (- e) <= Zpos m < (trunc_abs m e + 1) * 2 ^ (- e)).
Proof.
  unfold trunc_abs. split.
  - intros He. by rewrite (proj2 (Z.leb_le 0 e) He).
  - intros He. rewrite (proj2 (Z.leb_gt 0 e) He).
    assert (H2 : 0 < 2 ^ (- e)) by (apply Z.pow_pos_nonneg; lia).
    pose proof (Z.div_mod (Zpos m) (2 ^ (- e)) ltac:(lia)) as Hdm.
    pose proof (Z.mod_pos_bound (Zpos m) (2 ^ (- e)) H2). nia.
Qed.

Lemma of_int_pos (n : positive) : of_int (Zpos n) = binary_round prec emax false n 0.
Proof. reflexivity. Qed.

(** What is left of a float after its integer part is taken off is a
    fraction. *)
Lemma fsub_trunc_frac (m : positive) (e : Z) :
  bounded prec emax m e = true →
  Zpos (digits2_pos m) + e <= 32 →
  is_frac (fsub (S754_finite false m e) (of_int (trunc_abs m e))).
Proof.
  intros Hb Hmag.
  destruct (bounded_digits m e Hb) as (He & Hd & Hn).
  pose proof (digits_bounds m) as [Hlo Hhi].
  unfold trunc_abs.
  destruct (Z.leb_spec 0 e) as [Hpos|Hneg].
  - (* an integer: the difference is zero *)
    rewrite Hn in Hlo, Hhi, Hmag by lia.
    assert (H2e : 0 < 2 ^ e) by (apply Z.pow_pos_nonneg; lia).
    assert (Hn0 : 0 < Zpos m * 2 ^ e) by lia.
    destruct (Zpos m * 2 ^ e) as [|n|n] eqn:Hval; try lia.
    assert (Hdn : Zpos (digits2_pos n) = 24 + e).
    { rewrite (digits_shift m n e); [lia|lia|lia]. }
    assert (Hy : of_int (Zpos n) = S754_finite false m e).
    { rewrite of_int_pos.
      destruct (Z.eq_dec e 0) as [->|Hne].
      - destruct (binary_round_exact false n 0) as (m' & H1 & H2 & _).
        + rewrite fexp_eq, Hdn. lia.
        + rewrite fexp_eq, Hdn. lia.
        + rewrite fexp_eq, Hdn in H1, H2.
          change (Z.max (24 + 0 + 0 - 24) (-149)) with 0 in H1, H2.
          change (2 ^ (0 - 0)) with 1 in H2. change (2 ^ 0) with 1 in Hval.
          rewrite H1. f_equal. lia.
      - destruct (binary_round_rounds false n 0) as (m' & e' & H1 & _ & _ & H4).
        + lia.
        + rewrite Hdn. lia.
        + rewrite Hdn. lia.
        + rewrite H1. rewrite Hdn in H4.
          replace (24 + e + 0 - 24 - 0) with e in H4 by lia.
          destruct H4 as [Hm' He'].
          * rewrite <- Hval, (pow2_pred e) by lia.
            replace (Zpos m * (2 * 2 ^ (e - 1))) with (2 * Zpos m * 2 ^ (e - 1)) by lia.
            rewrite Z.div_mul by (apply Z.pow_nonzero; lia).
            rewrite Z.odd_mul. reflexivity.
          * rewrite <- Hval, Z.div_mul in Hm' by lia.
            f_equal; lia. }
    rewrite Hy. unfold fsub, SFsub. cbn [cond_Zopp].
    rewrite Z.sub_diag. cbn. apply is_frac_zero.
  - assert (H2e : 0 < 2 ^ (- e)) by (apply Z.pow_pos_nonneg; lia).
    destruct (Zpos m / 2 ^ (- e)) as [|n|n] eqn:Hq.
    + (* below one already *)
      change (of_int 0) with (S754_zero false). cbn.
      apply is_frac_finite; [done|].
      apply Z.div_small_iff in Hq as [Hq|Hq]; [|lia|lia].
      destruct (Z.leb_spec e (-149)); [lia|]. rewrite Hn in Hlo by lia.
      destruct (Z.leb_spec e (-24)); [done|].
      assert (2 ^ (- e) <= 2 ^ 23) by (apply Z.pow_le_mono_r; lia).
      change (2 ^ (24 - 1)) with (2 ^ 23) in Hlo. lia.
    + (* an integer part and a remainder *)
      assert (Hn1 : 1 <= Zpos m / 2 ^ (- e)) by lia.
      assert (Hge : 2 ^ (- e) <= Zpos m).
      { destruct (Z.leb_spec (2 ^ (- e)) (Zpos m)); [done|].
        rewrite Z.div_small in Hn1; lia. }
      assert (Hd24 : Zpos (digits2_pos m) = 24).
      { apply Hn. destruct (Z.leb_spec e (-149)); [|lia].
        assert (2 ^ 24 <= 2 ^ (- e)) by (apply Z.pow_le_mono_r; lia).
        assert (2 ^ Zpos (digits2_pos m) <= 2 ^ 24) by (apply Z.pow_le_mono_r; lia).
        lia. }
      rewrite Hd24 in Hlo, Hhi.
      assert (He23 : -23 <= e).
      { destruct (Z.leb_spec (-23) e); [done|].
        assert (2 ^ 24 <= 2 ^ (- e)) by (apply Z.pow_le_mono_r; lia). lia. }
      assert (Hnb : 2 ^ (23 + e) <= Zpos n < 2 ^ (24 + e)).
      { rewrite <- Hq. split.
        - apply Z.div_le_lower_bound; [done|].
          rewrite <- Z.pow_add_r by lia. replace (- e + (23 + e)) with 23 by lia.
          change (2 ^ (24 - 1)) with (2 ^ 23) in Hlo. lia.
        - apply Z.div_lt_upper_bound; [done|].
          rewrite <- Z.pow_add_r by lia. replace (- e + (24 + e)) with 24 by lia. lia. }
      assert (Hdn : Zpos (digits2_pos n) = 24 + e).
      { apply digits_unique. replace (24 + e - 1) with (23 + e) by lia. done. }
      destruct (binary_round_exact false n 0) as (n' & H1 & H2 & H3).
      { rewrite fexp_eq, Hdn. lia. }
      { rewrite fexp_eq, Hdn. lia. }
      rewrite fexp_eq, Hdn in H1, H2, H3.
      replace (Z.max (24 + e + 0 - 24) (-149)) with e in H1, H2, H3 by lia.
      rewrite of_int_pos, H1. unfold fsub, SFsub. cbn [cond_Zopp].
      rewrite Z.min_id, !shl_align_ge by lia. cbn [fst].
      rewrite H2. replace (0 - e) with (- e) by lia.
      assert (Hr : Zpos m - Zpos n * 2 ^ (- e) = Zpos m mod 2 ^ (- e)).
      { rewrite <- Hq. rewrite Z.mod_eq by lia. lia. }
      rewrite Hr.
      pose proof (Z.mod_pos_bound (Zpos m) (2 ^ (- e)) H2e) as [Hr0 Hr1].
      destruct (Zpos m mod 2 ^ (- e)) as [|r|r] eqn:Hrem; [apply is_frac_zero| |lia].
      cbn [binary_normalize].
      assert (Hdr : Zpos (digits2_pos r) <= - e) by (by apply digits_le).
      destruct (binary_round_exact false r e) as (r' & H1' & _ & H3').
      { rewrite fexp_eq. lia. }
      { rewrite fexp_eq. lia. }
      rewrite H1'. apply is_frac_finite; [done|]. rewrite fexp_eq. lia.
    + pose proof (Z.div_pos (Zpos m) (2 ^ (- e))). lia.
Qed.

(** One phase advance from a fraction, at a pitch below [2^32], is
    defined and ends in a fraction. *)
Lemma advance_frac (pitch : float) (src : Z) (f : float) :
  is_frac f → below_2p32 pitch →
  ∃ (intval : Z) (f' : float),
    advance pitch (src, f) = Some (src + intval, f') ∧
    to_uint32 (fadd f pitch) = Some intval ∧
    f' = fsub (fadd f pitch) (of_int intval) ∧
    0 <= intval < 2 ^ 32 ∧ is_frac f'.
Proof.
  intros Hf Hp. unfold advance. cbn [fst snd].
  destruct (fadd_frac_pitch f pitch Hf Hp) as [[s Hx]|(m & e & Hx & Hb & Hmag)];
    rewrite Hx.
  - exists 0, (fsub (S754_zero s) (of_int 0)). cbn. repeat split; try done.
    all: by destruct s.
  - pose proof (trunc_abs_range m e Hmag) as Hn.
    exists (trunc_abs m e), (fsub (S754_finite false m e) (of_int (trunc_abs m e))).
    cbn. rewrite (proj2 (Z.ltb_lt _ _) (proj2 Hn)). cbn.
    repeat split; try done; try lia.
    all: by apply fsub_trunc_frac.
Qed.

End Binary32Facts.

(** ** The voice allocator *)

Section AllocatorFacts.
Context {cfg : Config}.

(** The scan of [Channel::NoteOn] returns the lowest idle index, or the
    index of the oldest voice when every voice is playing. *)
Lemma scan_players_spec (players : list SamplePlayer.t) (n i o : nat) :
  (i + n)%nat = length players →
  (o < length players)%nat →
  (o < i ∨ (o = 0 ∧ i = 0))%nat →
  (∀ j q, (j < i)%nat → players !! j = Some q → SamplePlayer.playing q = true) →
  (∀ j q po, (j < i)%nat → players !! j = Some q → players !! o = Some po →
             SamplePlayer.createdAt po <= SamplePlayer.createdAt q) →
  (∀ j q po, (j < o)%nat → players !! j = Some q → players !! o = Some po →
             SamplePlayer.createdAt po < SamplePlayer.createdAt q) →
  ∃ id, Channel.scan_players players n i o = Some id ∧
        (id < length players)%nat ∧
        (lowest_idle players id ∨ oldest_playing players id).
Proof.
  revert i o. induction n as [|n IH]; intros i o Hlen Ho Hoi Hplay Hmin Hfirst.
  - exists o. split; [done|]. split; [done|]. right.
    assert (i = length players) by lia. subst i.
    destruct (lookup_lt_is_Some_2 players o Ho) as [po Hpo].
    split.
    + intros q [j Hj]%list_elem_of_lookup.
      eapply Hplay; [|exact Hj]. by eapply lookup_lt_Some.
    + exists po. split; [done|]. split.
      * intros q [j Hj]%list_elem_of_lookup.
        eapply Hmin; [|exact Hj|exact Hpo]. by eapply lookup_lt_Some.
      * intros j q Hjo Hj. by eapply Hfirst.
  - assert (Hi : (i < length players)%nat) by lia.
    destruct (lookup_lt_is_Some_2 players i Hi) as [p Hp].
    destruct (lookup_lt_is_Some_2 players o Ho) as [po Hpo].
    cbn [Channel.scan_players]. rewrite Hp. cbn.
    destruct (SamplePlayer.playing p) eqn:Hpl; cbn.
    + rewrite Hpo. cbn.
      assert (Hplay' : ∀ j q, (j < S i)%nat → players !! j = Some q →
                               SamplePlayer.playing q = true).
      { intros j q Hj Hq. destruct (decide (j = i)) as [->|Hne].
        - congruence.
        - eapply Hplay; [|exact Hq]. lia. }
      destruct (Z.ltb_spec (SamplePlayer.createdAt p) (SamplePlayer.createdAt po)) as [Hlt|Hge].
      * apply IH; [lia|done|lia|done| |].
        -- intros j q p' Hj Hq Hp'. assert (p' = p) by congruence. subst p'.
           destruct (decide (j = i)) as [->|Hne]; [assert (q = p) by congruence; subst; lia|].
           assert (SamplePlayer.createdAt po <= SamplePlayer.createdAt q).
           { eapply Hmin; [|exact Hq|exact Hpo]. lia. }
           lia.
        -- intros j q p' Hj Hq Hp'. assert (p' = p) by congruence. subst p'.
           assert (SamplePlayer.createdAt po <= SamplePlayer.createdAt q).
           { eapply Hmin; [|exact Hq|exact Hpo]. lia. }
           lia.
      * apply IH; [lia|done|lia|done| |].
        -- intros j q p' Hj Hq Hp'. assert (p' = po) by congruence. subst p'.
           destruct (decide (j = i)) as [->|Hne]; [assert (q = p) by congruence; subst; lia|].
           eapply Hmin; [|exact Hq|exact Hpo]. lia.
        -- done.
    + exists i. split; [done|]. split; [done|]. left. split.
      * by exists p.
      * done.
Qed.

End AllocatorFacts.

Section NoteOnFacts.
Context {cfg : Config}.

(** The fields the constructor stores. *)
Lemma new_fields (s : option Sample.t) (noteNo : Z) (volume pitchBend : float)
    (channel tick : Z) :
  let p := SamplePlayer.new s noteNo volume pitchBend channel tick in
  SamplePlayer.sample p = s ∧ SamplePlayer.noteNo p = noteNo ∧
  SamplePlayer.volume p = volume ∧ SamplePlayer.pitchBend p = pitchBend ∧
  SamplePlayer.channel p = channel ∧ SamplePlayer.createdAt p = tick ∧
  SamplePlayer.released p = false ∧
  SamplePlayer.playing p = match s with Some _ => true | None => false end.
Proof.
  unfold SamplePlayer.new, SamplePlayer.UpdatePitch. cbn.
  destruct s; cbn; repeat split; reflexivity.
Qed.

(** [Channel::NoteOn] on a live sampler and a channel with a timbre. *)
Lemma NoteOn_alive (index : nat) (noteNo velocity tick : Z) (this : Channel.t)
    (players : list SamplePlayer.t) (tm : Timbre.t) :
  Channel.sampler this = Alive →
  Channel.timbre this = Some tm →
  pool_ok players →
  ∃ id,
    Channel.NoteOn index noteNo velocity this players tick =
      Some (Channel.set_playingNotes
              (Channel.playingNotes this ++
                 [ {| PlayingNote.noteNo := noteNo; PlayingNote.playerId := id |} ]) this,
            <[id := SamplePlayer.new (Timbre.GetAppropriateSample tm noteNo velocity)
                      noteNo (velocityTable velocity) (Channel.pitchBend this)
                      (Channel.channelIndex index) tick]> players,
            tick + 1) ∧
    (id < MAX_SOUND)%nat ∧
    (lowest_idle players id ∨ oldest_playing players id).
Proof.
  intros Halive Htm [Hlen Hpos].
  destruct (scan_players_spec players MAX_SOUND 0 0) as (id & Hscan & Hid & Hchoice);
    try (intros; lia); try lia.
  exists id. split; [|split; [lia|done]].
  unfold Channel.NoteOn. rewrite Halive, Hscan, Htm. cbn.
  destruct (lookup_lt_is_Some_2 players id Hid) as [p Hp]. rewrite Hp. reflexivity.
Qed.

End NoteOnFacts.

(** C1: on a live sampler, [Channel::NoteOn] scans the pool once and takes
    the lowest-index voice that is not playing, if there is one; when all
    [MAX_SOUND] voices are playing it takes the (first) voice with the
    smallest [createdAt].  The chosen voice is overwritten by a voice built
    from the new sample, note, velocity (through the velocity table), the
    channel's pitch bend and the channel's index (its position in
    [channels], as an 8-bit number), whatever it was doing. *)
Theorem C1_NoteOn_voice_allocation {cfg : Config} (index : nat)
    (noteNo velocity tick : Z) (this : Channel.t)
    (players : list SamplePlayer.t) (tm : Timbre.t) :
  Channel.sampler this = Alive →
  Channel.timbre this = Some tm →
  pool_ok players →
  ∃ (id : nat) (this' : Channel.t) (players' : list SamplePlayer.t) (v : SamplePlayer.t),
    Channel.NoteOn index noteNo velocity this players tick = Some (this', players', tick + 1) ∧
    (id < MAX_SOUND)%nat ∧
    (lowest_idle players id ∨ oldest_playing players id) ∧
    players' = <[id := v]> players ∧
    players' !! id = Some v ∧
    (∀ j, j ≠ id → players' !! j = players !! j) ∧
    SamplePlayer.sample v = Timbre.GetAppropriateSample tm noteNo velocity ∧
    SamplePlayer.noteNo v = noteNo ∧
    SamplePlayer.volume v = velocityTable velocity ∧
    SamplePlayer.pitchBend v = Channel.pitchBend this ∧
    SamplePlayer.channel v = Channel.channelIndex index ∧
    ((index < 256)%nat → SamplePlayer.channel v = Z.of_nat index).
Proof.
  intros Halive Htm Hok.
  destruct (NoteOn_alive index noteNo velocity tick this players tm Halive Htm Hok)
    as (id & Hrun & Hid & Hchoice).
  destruct (new_fields (Timbre.GetAppropriateSample tm noteNo velocity) noteNo
              (velocityTable velocity) (Channel.pitchBend this)
              (Channel.channelIndex index) tick)
    as (Hs & Hn & Hv & Hb & Hc & _).
  destruct Hok as [Hlen _].
  eexists id, _, _, _. split; [exact Hrun|].
  repeat split; try assumption.
  - apply list_lookup_insert_eq. lia.
  - intros j Hj. by apply list_lookup_insert_ne.
  - intros Hi. rewrite Hc. unfold Channel.channelIndex, wrap_uint8.
    apply Z.mod_small. lia.
Qed.

Section C1Witness.
#[local] Existing Instance Demo.cfg.

(** C1 on the demo pool with both voices playing: the older one (index 1,
    created at tick 3) is taken. *)
Lemma C1_NoteOn_voice_allocation_witness :
  Channel.sampler Demo.channel0 = Alive ∧
  Channel.timbre Demo.channel0 = Some Demo.timbre ∧
  pool_ok Demo.busy_pool ∧
  ∃ (id : nat) (this' : Channel.t) (players' : list SamplePlayer.t) (v : SamplePlayer.t),
    Channel.NoteOn 0 64 100 Demo.channel0 Demo.busy_pool 9 = Some (this', players', 10) ∧
    (id < MAX_SOUND)%nat ∧
    (lowest_idle Demo.busy_pool id ∨ oldest_playing Demo.busy_pool id) ∧
    players' = <[id := v]> Demo.busy_pool ∧
    players' !! id = Some v ∧
    (∀ j, j ≠ id → players' !! j = Demo.busy_pool !! j) ∧
    SamplePlayer.sample v = Timbre.GetAppropriateSample Demo.timbre 64 100 ∧
    SamplePlayer.noteNo v = 64 ∧
    SamplePlayer.volume v = velocityTable 100 ∧
    SamplePlayer.pitchBend v = Channel.pitchBend Demo.channel0 ∧
    SamplePlayer.channel v = Channel.channelIndex 0 ∧
    ((0 < 256)%nat → SamplePlayer.channel v = Z.of_nat 0).
Proof.
  assert (Hok : pool_ok Demo.busy_pool) by (split; [reflexivity | cbn; lia]).
  split; [reflexivity|]. split; [reflexivity|]. split; [exact Hok|].
  apply (C1_NoteOn_voice_allocation (cfg := Demo.cfg) 0 64 100 9 Demo.channel0
           Demo.busy_pool Demo.timbre eq_refl eq_refl Hok).
Defined.

End C1Witness.

Section NoteOffFacts.
Context {cfg : Config}.

Lemma released_by_set_released index noteNo notes i p :
  released_by index noteNo notes i (SamplePlayer.set_released true p) =
  released_by index noteNo notes i p.
Proof. reflexivity. Qed.

Lemma NoteOff_loop_spec (index : nat) (noteNo : Z) (notes : list PlayingNote.t) :
  ∀ players : list SamplePlayer.t,
  notes_ok notes players →
  Channel.NoteOff_loop index noteNo notes players =
    Some (kept_notes noteNo notes,
          imap (λ i p, if released_by index noteNo notes i p
                       then SamplePlayer.set_released true p else p) players).
Proof.
  induction notes as [|itr rest IH]; intros players Hok.
  - cbn. f_equal. f_equal. symmetry. apply list_eq. intros i.
    rewrite list_lookup_imap. by destruct (players !! i).
  - apply Forall_cons in Hok as [Hid Hok].
    assert (Hrest : ∀ ps : list SamplePlayer.t, length ps = length players → notes_ok rest ps).
    { intros ps Hlen. unfold notes_ok. by rewrite Hlen. }
    cbn [Channel.NoteOff_loop]. unfold kept_notes. rewrite filter_cons.
    destruct (Z.eqb_spec (PlayingNote.noteNo itr) noteNo) as [Heq|Hne].
    + destruct (lookup_lt_is_Some_2 players _ Hid) as [player Hplayer].
      rewrite Hplayer. cbn.
      rewrite decide_False by (intros H; by apply H).
      rewrite IH.
      2:{ apply Hrest. destruct (_ && _); [by rewrite length_insert|done]. }
      f_equal. f_equal. apply list_eq. intros i.
      rewrite !list_lookup_imap.
      destruct (decide (i = PlayingNote.playerId itr)) as [->|Hi].
      * set (hit := (SamplePlayer.noteNo player =? noteNo)
                    && (SamplePlayer.channel player =? Channel.channelIndex index)).
        rewrite Hplayer. cbn.
        assert (Hrb : released_by index noteNo (itr :: rest) (PlayingNote.playerId itr) player
                      = hit).
        { unfold released_by. cbn. rewrite (proj2 (Z.eqb_eq _ _) Heq), Nat.eqb_refl.
          cbn. subst hit. by destruct (_ =? _), (_ =? _). }
        rewrite Hrb. destruct hit eqn:Hhit.
        -- rewrite list_lookup_insert_eq by done. cbn.
           rewrite released_by_set_released.
           by destruct (released_by index noteNo rest _ player).
        -- rewrite Hplayer. cbn.
           assert (released_by index noteNo rest (PlayingNote.playerId itr) player = false)
             as ->; [|done].
           unfold released_by. rewrite <- andb_assoc. fold hit. rewrite Hhit.
           apply andb_false_r.
      * assert (Hlk : (if (SamplePlayer.noteNo player =? noteNo)
                          && (SamplePlayer.channel player =? Channel.channelIndex index)
                       then <[PlayingNote.playerId itr :=
                                SamplePlayer.set_released true player]> players
                       else players) !! i = players !! i).
        { destruct (_ && _); [by apply list_lookup_insert_ne|done]. }
        rewrite Hlk. destruct (players !! i) as [p|]; [cbn|done].
        assert (released_by index noteNo (itr :: rest) i p = released_by index noteNo rest i p)
          as ->; [|done].
        unfold released_by. cbn.
        assert (Nat.eqb (PlayingNote.playerId itr) i = false) as ->
          by (apply Nat.eqb_neq; congruence).
        by rewrite andb_false_r.
    + rewrite decide_True by done.
      rewrite IH by (by apply Hrest). cbn. f_equal. f_equal.
      apply list_eq. intros i. rewrite !list_lookup_imap.
      destruct (players !! i) as [p|]; [cbn|done].
      assert (released_by index noteNo (itr :: rest) i p = released_by index noteNo rest i p)
        as ->; [|done].
      unfold released_by. cbn.
      by rewrite (proj2 (Z.eqb_neq _ _) Hne).
Qed.

Lemma released_by_true index noteNo notes i p :
  released_by index noteNo notes i p = true ↔
  (∃ e, e ∈ notes ∧ PlayingNote.noteNo e = noteNo ∧ PlayingNote.playerId e = i) ∧
  SamplePlayer.noteNo p = noteNo ∧
  SamplePlayer.channel p = Channel.channelIndex index.
Proof.
  unfold released_by. rewrite !andb_true_iff, existsb_exists, !Z.eqb_eq.
  split.
  - intros [[(e & He & [Hn Hi]%andb_true_iff) Hp] Hc].
    repeat split; try done. exists e. rewrite list_elem_of_In.
    apply Z.eqb_eq in Hn. apply Nat.eqb_eq in Hi. done.
  - intros [(e & He & Hn & Hi) [Hp Hc]]. repeat split; try done.
    exists e. rewrite <- list_elem_of_In. split; [done|].
    apply andb_true_iff. split; [by apply Z.eqb_eq|by apply Nat.eqb_eq].
Qed.

End NoteOffFacts.


Section C2Witness.
#[local] Existing Instance Demo.cfg.


End C2Witness.

Section EnvelopeFacts.
Context {cfg : Config}.

(** [UpdateGain] in the release segment, entered by the [released] flag or
    already current. *)
Lemma UpdateGain_release (s : Sample.t) (p : SamplePlayer.t) :
  SamplePlayer.sample p = Some s →
  Sample.adsrEnabled s = true →
  SamplePlayer.released p = true ∨ SamplePlayer.adsrState p = release →
  SamplePlayer.UpdateGain p = release_step s p.
Proof.
  intros Hs Hadsr Hrel. unfold SamplePlayer.UpdateGain, release_step.
  rewrite Hs, Hadsr. cbn [negb].
  destruct (SamplePlayer.released p) eqn:Hr.
  - reflexivity.
  - destruct Hrel as [?|Hst]; [done|].
    destruct p. cbn in *. subst. reflexivity.
Qed.

End EnvelopeFacts.

(** C5: an envelope step on a voice whose sample is present and has
    [adsrEnabled = true].  When [released] is set the segment is forced to
    [release] before the switch, whatever the segment was; in the release
    segment the step multiplies [gain] by [sample.release], and a result
    below [0.001] sets [gain = 0] and [playing = false]. *)
Theorem C5_UpdateGain_release {cfg : Config} (s : Sample.t) (p : SamplePlayer.t) :
  SamplePlayer.sample p = Some s →
  Sample.adsrEnabled s = true →
  SamplePlayer.released p = true ∨ SamplePlayer.adsrState p = release →
  let p' := SamplePlayer.UpdateGain p in
  let g := fmul (SamplePlayer.gain p) (Sample.release s) in
  p' = release_step s p ∧
  SamplePlayer.adsrState p' = release ∧
  (flt g f0_001 = true →
     SamplePlayer.gain p' = zero ∧ SamplePlayer.playing p' = false) ∧
  (flt g f0_001 = false →
     SamplePlayer.gain p' = g ∧ SamplePlayer.playing p' = SamplePlayer.playing p).
Proof.
  intros Hs Hadsr Hrel. cbn zeta.
  rewrite (UpdateGain_release s p Hs Hadsr Hrel). unfold release_step.
  split; [reflexivity|].
  destruct (flt (fmul (SamplePlayer.gain p) (Sample.release s)) f0_001); cbn;
    repeat split; intros; try reflexivity; discriminate.
Qed.

Section C5Witness.
#[local] Existing Instance Demo.cfg.

(** C5 on a released voice in its decay segment: gain 1 becomes 0.5 and
    the segment is release. *)
Lemma C5_UpdateGain_release_witness :
  SamplePlayer.adsrState Demo.released_voice = decay ∧
  let p' := SamplePlayer.UpdateGain Demo.released_voice in
  let g := fmul (SamplePlayer.gain Demo.released_voice) (Sample.release Demo.looped) in
  p' = release_step Demo.looped Demo.released_voice ∧
  SamplePlayer.adsrState p' = release ∧
  (flt g f0_001 = true →
     SamplePlayer.gain p' = zero ∧ SamplePlayer.playing p' = false) ∧
  (flt g f0_001 = false →
     SamplePlayer.gain p' = g ∧
     SamplePlayer.playing p' = SamplePlayer.playing Demo.released_voice).
Proof.
  split; [reflexivity|].
  apply (C5_UpdateGain_release (cfg := Demo.cfg) Demo.looped Demo.released_voice).
  - reflexivity.
  - reflexivity.
  - left. reflexivity.
Defined.

End C5Witness.

Section ChannelFacts.
Context {cfg : Config}.

(** The bend [Channel::PitchBend] stores: [b * 12.0f / 8192.0f]. *)
Lemma PitchBend_stores (index : nat) (b : Z) (this this' : Channel.t)
    (players players' : list SamplePlayer.t) :
  Channel.PitchBend index b this players = Some (this', players') →
  this' = Channel.set_pitchBend (fdiv (fmul (of_int b) twelve) f8192) this.
Proof.
  unfold Channel.PitchBend. cbn.
  destruct (Channel.sampler this); [by intros [= <- <-]|].
  destruct (Channel.PitchBend_loop _ _ _ _); cbn; [by intros [= <- <-]|done].
Qed.

(** With the sampler gone, [NoteOn] and [NoteOff] change nothing. *)
Lemma NoteOn_expired (index : nat) (noteNo velocity tick : Z) (this : Channel.t)
    (players : list SamplePlayer.t) :
  Channel.sampler this = Expired →
  Channel.NoteOn index noteNo velocity this players tick = Some (this, players, tick).
Proof. intros H. unfold Channel.NoteOn. by rewrite H. Qed.

Lemma NoteOff_expired (index : nat) (noteNo velocity : Z) (this : Channel.t)
    (players : list SamplePlayer.t) :
  Channel.sampler this = Expired →
  Channel.NoteOff index noteNo velocity this players = Some (this, players).
Proof. intros H. unfold Channel.NoteOff. by rewrite H. Qed.

(** With the sampler gone, [PitchBend] leaves the voices alone but has
    already stored the new bend in the channel. *)
Lemma PitchBend_expired (index : nat) (b : Z) (this : Channel.t)
    (players : list SamplePlayer.t) :
  Channel.sampler this = Expired →
  Channel.PitchBend index b this players =
    Some (Channel.set_pitchBend (fdiv (fmul (of_int b) twelve) f8192) this, players).
Proof. intros H. unfold Channel.PitchBend. cbn. by rewrite H. Qed.

(** [NoteOn] on a live sampler dereferences the channel's timbre. *)
Lemma NoteOn_no_timbre (index : nat) (noteNo velocity tick : Z) (this : Channel.t)
    (players : list SamplePlayer.t) :
  Channel.sampler this = Alive →
  Channel.timbre this = None →
  Channel.NoteOn index noteNo velocity this players tick = None.
Proof.
  intros Ha Ht. unfold Channel.NoteOn. rewrite Ha, Ht.
  by destruct (Channel.scan_players _ _ _ _).
Qed.

(** What a completed [NoteOn] on a live sampler did. *)
Lemma NoteOn_inv (index : nat) (noteNo velocity tick tick' : Z)
    (this this' : Channel.t) (players players' : list SamplePlayer.t) :
  Channel.sampler this = Alive →
  Channel.NoteOn index noteNo velocity this players tick = Some (this', players', tick') →
  ∃ id tm,
    Channel.timbre this = Some tm ∧
    (id < length players)%nat ∧
    this' = Channel.set_playingNotes
              (Channel.playingNotes this ++
                 [ {| PlayingNote.noteNo := noteNo; PlayingNote.playerId := id |} ]) this ∧
    players' = <[id := SamplePlayer.new (Timbre.GetAppropriateSample tm noteNo velocity)
                          noteNo (velocityTable velocity) (Channel.pitchBend this)
                          (Channel.channelIndex index) tick]> players ∧
    tick' = tick + 1.
Proof.
  intros Ha. unfold Channel.NoteOn. rewrite Ha.
  destruct (Channel.scan_players _ _ _ _) as [id|]; [cbn|done].
  destruct (Channel.timbre this) as [tm|]; [cbn|done].
  destruct (players !! id) as [p|] eqn:Hp; [cbn|done].
  intros [= <- <- <-]. exists id, tm. repeat split; try done.
  by eapply lookup_lt_Some.
Qed.

(** The entries [NoteOff] keeps, whatever the pool. *)
Lemma NoteOff_loop_notes (index : nat) (noteNo : Z) (notes : list PlayingNote.t) :
  ∀ (players : list SamplePlayer.t) notes' players',
  Channel.NoteOff_loop index noteNo notes players = Some (notes', players') →
  notes' = kept_notes noteNo notes.
Proof.
  induction notes as [|itr rest IH]; intros players notes' players'.
  - by intros [= <- <-].
  - cbn [Channel.NoteOff_loop]. unfold kept_notes. rewrite filter_cons.
    destruct (Z.eqb_spec (PlayingNote.noteNo itr) noteNo) as [Heq|Hne].
    + rewrite decide_False by (intros H; by apply H).
      destruct (players !! _); [cbn|done]. apply IH.
    + rewrite decide_True by done.
      destruct (Channel.NoteOff_loop index noteNo rest players) as [[r ps]|] eqn:Hr; [cbn|done].
      intros [= <- <-]. f_equal. by eapply IH.
Qed.

Lemma NoteOn_keeps_entries (index : nat) (noteNo velocity tick tick' : Z)
    (this this' : Channel.t) (players players' : list SamplePlayer.t) (e : PlayingNote.t) :
  Channel.NoteOn index noteNo velocity this players tick = Some (this', players', tick') →
  e ∈ Channel.playingNotes this → e ∈ Channel.playingNotes this'.
Proof.
  destruct (Channel.sampler this) eqn:Ha.
  - rewrite NoteOn_expired by done. by intros [= <- <- <-].
  - intros (id & tm & _ & _ & -> & _)%NoteOn_inv He; [|done].
    cbn. apply elem_of_app. by left.
Qed.

Lemma NoteOff_keeps_other_notes (index : nat) (noteNo velocity : Z)
    (this this' : Channel.t) (players players' : list SamplePlayer.t) (e : PlayingNote.t) :
  Channel.NoteOff index noteNo velocity this players = Some (this', players') →
  e ∈ Channel.playingNotes this → PlayingNote.noteNo e ≠ noteNo →
  e ∈ Channel.playingNotes this'.
Proof.
  unfold Channel.NoteOff. destruct (Channel.sampler this).
  - by intros [= <- <-].
  - destruct (Channel.NoteOff_loop _ _ _ _) as [[notes' ps]|] eqn:Hl; [cbn|done].
    intros [= <- <-] He Hne. cbn.
    rewrite (NoteOff_loop_notes _ _ _ _ _ _ Hl). unfold kept_notes.
    by apply list_elem_of_filter.
Qed.

Lemma NoteOff_erases (index : nat) (noteNo velocity : Z)
    (this this' : Channel.t) (players players' : list SamplePlayer.t) (e : PlayingNote.t) :
  Channel.sampler this = Alive →
  Channel.NoteOff index noteNo velocity this players = Some (this', players') →
  PlayingNote.noteNo e = noteNo → e ∉ Channel.playingNotes this'.
Proof.
  intros Ha. unfold Channel.NoteOff. rewrite Ha.
  destruct (Channel.NoteOff_loop _ _ _ _) as [[notes' ps]|] eqn:Hl; [cbn|done].
  intros [= <- <-] Hn. cbn.
  rewrite (NoteOff_loop_notes _ _ _ _ _ _ Hl). unfold kept_notes.
  rewrite list_elem_of_filter. tauto.
Qed.

(** A message removes an entry from a channel's [playingNotes] only if it
    is a note-off for the entry's note on that channel. *)
Lemma dispatch_keeps_entry (m : Message.t) (st st' : Sampler.t) (c : nat)
    (ch : Channel.t) (e : PlayingNote.t) :
  Sampler.dispatch m st = Some st' →
  Sampler.channels st !! c = Some ch →
  e ∈ Channel.playingNotes ch →
  (∃ ch', Sampler.channels st' !! c = Some ch' ∧ e ∈ Channel.playingNotes ch') ∨
  (Message.status m = NOTE_OFF ∧ Z.to_nat (Message.channel m) = c ∧
   Message.noteNo m = PlayingNote.noteNo e).
Proof.
  intros Hd Hc He. unfold Sampler.dispatch in Hd.
  destruct (Sampler.channels st !! Z.to_nat (Message.channel m)) as [chm|] eqn:Hm;
    [cbn in Hd|done].
  destruct (decide (Z.to_nat (Message.channel m) = c)) as [Heq|Hne].
  - rewrite Heq in *. assert (chm = ch) by congruence. subst chm.
    assert (Hlt : (c < length (Sampler.channels st))%nat) by (by eapply lookup_lt_Some).
    destruct (Message.status m) eqn:Hst.
    + destruct (Channel.NoteOn _ _ _ _ _ _) as [[[ch' ps] tk]|] eqn:Hn; [cbn in Hd|done].
      injection Hd as <-. left. exists ch'. cbn.
      split; [by apply list_lookup_insert_eq|]. by eapply NoteOn_keeps_entries.
    + destruct (Channel.NoteOff _ _ _ _ _) as [[ch' ps]|] eqn:Hn; [cbn in Hd|done].
      injection Hd as <-.
      destruct (decide (Message.noteNo m = PlayingNote.noteNo e)) as [Hno|Hno];
        [by right|].
      left. exists ch'. cbn. split; [by apply list_lookup_insert_eq|].
      eapply NoteOff_keeps_other_notes; [exact Hn|done|congruence].
    + destruct (Channel.PitchBend _ _ _ _) as [[ch' ps]|] eqn:Hn; [cbn in Hd|done].
      injection Hd as <-. left. exists ch'. cbn.
      split; [by apply list_lookup_insert_eq|].
      apply PitchBend_stores in Hn. by subst ch'.
  - left. exists ch.
    destruct (Message.status m).
    + destruct (Channel.NoteOn _ _ _ _ _ _) as [[[ch' ps] tk]|]; [cbn in Hd|done].
      injection Hd as <-. cbn. by rewrite list_lookup_insert_ne.
    + destruct (Channel.NoteOff _ _ _ _ _) as [[ch' ps]|]; [cbn in Hd|done].
      injection Hd as <-. cbn. by rewrite list_lookup_insert_ne.
    + destruct (Channel.PitchBend _ _ _ _) as [[ch' ps]|]; [cbn in Hd|done].
      injection Hd as <-. cbn. by rewrite list_lookup_insert_ne.
Qed.

(** The mixing pass has no access to the channels. *)
Lemma Process_keeps_channels (fuel : nat) (st st' : Sampler.t) (data : list float) :
  Sampler.messageQueue st = [] →
  Sampler.Process fuel st = Some (st', data) →
  Sampler.channels st' = Sampler.channels st.
Proof.
  intros Hq. unfold Sampler.Process. rewrite Hq. cbn.
  destruct (Sampler.mix_players _ _ _ _ _ _) as [[ps d]|]; [cbn|done].
  by intros [= <- <-].
Qed.

End ChannelFacts.

(** C9, evaluated: on a channel whose sampler is gone, [PitchBend(4096)]
    returns without touching the voices, but the channel's stored bend has
    changed from 0 to 6 semitones.  ([NoteOn] and [NoteOff] are no-ops:
    [NoteOn_expired], [NoteOff_expired].) *)
Theorem C9_PitchBend_expired_stores_bend :
  Channel.sampler Demo.orphan_channel = Expired ∧
  Channel.pitchBend Demo.orphan_channel = zero ∧
  ∃ this',
    Channel.PitchBend (cfg := Demo.cfg) 0 4096 Demo.orphan_channel Demo.pool0
      = Some (this', Demo.pool0) ∧
    Channel.pitchBend this' = of_int 6 ∧
    this' ≠ Demo.orphan_channel.
Proof.
  split; [reflexivity|]. split; [reflexivity|].
  eexists. split; [reflexivity|]. split; [reflexivity|]. discriminate.
Qed.

(** C8, evaluated: [NoteOn] on a live channel whose timbre was never set
    dereferences the empty pointer; the call has no defined result. *)
Theorem C8_NoteOn_absent_timbre_undefined :
  Channel.sampler Demo.bare_channel = Alive ∧
  Channel.timbre Demo.bare_channel = None ∧
  Channel.NoteOn (cfg := Demo.cfg) 0 60 100 Demo.bare_channel Demo.pool0 0 = None.
Proof. repeat split. Qed.

(** C10: a completed [NoteOn] on a live sampler appends exactly one entry
    [(noteNo, id)] to the channel's [playingNotes], [id] being the voice it
    has just written, also when the timbre had no matching sample and that
    voice is idle ([playing = false]).  No message but a note-off for
    [noteNo] on this channel removes the entry, the mixing pass does not
    touch the channels, and that note-off does remove it. *)
Theorem C10_NoteOn_appends_one_entry {cfg : Config} (index : nat)
    (noteNo velocity tick tick' : Z) (this this' : Channel.t)
    (players players' : list SamplePlayer.t) :
  Channel.sampler this = Alive →
  Channel.NoteOn index noteNo velocity this players tick = Some (this', players', tick') →
  ∃ (id : nat) (v : SamplePlayer.t) (tm : Timbre.t),
    let e := {| PlayingNote.noteNo := noteNo; PlayingNote.playerId := id |} in
    Channel.playingNotes this' = Channel.playingNotes this ++ [e] ∧
    players' !! id = Some v ∧
    Channel.timbre this = Some tm ∧
    SamplePlayer.sample v = Timbre.GetAppropriateSample tm noteNo velocity ∧
    (Timbre.GetAppropriateSample tm noteNo velocity = None →
       SamplePlayer.playing v = false) ∧
    (∀ (m : Message.t) (st st2 : Sampler.t) (ch : Channel.t),
       Sampler.channels st !! index = Some ch →
       e ∈ Channel.playingNotes ch →
       Sampler.dispatch m st = Some st2 →
       (∃ ch2, Sampler.channels st2 !! index = Some ch2 ∧ e ∈ Channel.playingNotes ch2) ∨
       (Message.status m = NOTE_OFF ∧ Z.to_nat (Message.channel m) = index ∧
        Message.noteNo m = noteNo)) ∧
    (∀ (fuel : nat) (st st2 : Sampler.t) (data : list float),
       Sampler.messageQueue st = [] →
       Sampler.Process fuel st = Some (st2, data) →
       Sampler.channels st2 = Sampler.channels st) ∧
    (∀ (vel : Z) (ch ch2 : Channel.t) (ps ps2 : list SamplePlayer.t),
       Channel.sampler ch = Alive →
       Channel.NoteOff index noteNo vel ch ps = Some (ch2, ps2) →
       e ∉ Channel.playingNotes ch2).
Proof.
  intros Ha Hrun.
  destruct (NoteOn_inv _ _ _ _ _ _ _ _ _ Ha Hrun) as (id & tm & Htm & Hid & -> & -> & _).
  destruct (new_fields (Timbre.GetAppropriateSample tm noteNo velocity) noteNo
              (velocityTable velocity) (Channel.pitchBend this)
              (Channel.channelIndex index) tick)
    as (Hs & _ & _ & _ & _ & _ & _ & Hpl).
  eexists id, _, tm. cbn zeta.
  split; [reflexivity|]. split; [by apply list_lookup_insert_eq|].
  split; [done|]. split; [done|]. split.
  { intros Hnone. rewrite Hpl. by rewrite Hnone. }
  split.
  { intros m st st2 ch Hch He Hd.
    destruct (dispatch_keeps_entry m st st2 index ch _ Hd Hch He) as [?|(?&?&?)];
      [by left|by right]. }
  split.
  { intros. by eapply Process_keeps_channels. }
  intros vel ch ch2 ps ps2 Hal Hoff. by eapply NoteOff_erases.
Qed.

Section C10Witness.
#[local] Existing Instance Demo.cfg.

(** C10 on a note the demo timbre has no sample for (note 120): the entry
    [(120, 0)] is appended although voice 0 stays idle. *)
Lemma C10_NoteOn_appends_one_entry_witness :
  Timbre.GetAppropriateSample Demo.timbre 120 100 = None ∧
  ∃ (id : nat) (v : SamplePlayer.t) (tm : Timbre.t),
    let e := {| PlayingNote.noteNo := 120; PlayingNote.playerId := id |} in
    Channel.playingNotes (Demo.after_unmatched_note).1.1
      = Channel.playingNotes Demo.channel0 ++ [e] ∧
    (Demo.after_unmatched_note).1.2 !! id = Some v ∧
    Channel.timbre Demo.channel0 = Some tm ∧
    SamplePlayer.sample v = Timbre.GetAppropriateSample tm 120 100 ∧
    (Timbre.GetAppropriateSample tm 120 100 = None →
       SamplePlayer.playing v = false) ∧
    (∀ (m : Message.t) (st st2 : Sampler.t) (ch : Channel.t),
       Sampler.channels st !! 0%nat = Some ch →
       e ∈ Channel.playingNotes ch →
       Sampler.dispatch m st = Some st2 →
       (∃ ch2, Sampler.channels st2 !! 0%nat = Some ch2 ∧ e ∈ Channel.playingNotes ch2) ∨
       (Message.status m = NOTE_OFF ∧ Z.to_nat (Message.channel m) = 0%nat ∧
        Message.noteNo m = 120)) ∧
    (∀ (fuel : nat) (st st2 : Sampler.t) (data : list float),
       Sampler.messageQueue st = [] →
       Sampler.Process fuel st = Some (st2, data) →
       Sampler.channels st2 = Sampler.channels st) ∧
    (∀ (vel : Z) (ch ch2 : Channel.t) (ps ps2 : list SamplePlayer.t),
       Channel.sampler ch = Alive →
       Channel.NoteOff 0 120 vel ch ps = Some (ch2, ps2) →
       e ∉ Channel.playingNotes ch2).
Proof.
  split; [reflexivity|].
  apply (C10_NoteOn_appends_one_entry (cfg := Demo.cfg) 0 120 100 0 1
           Demo.channel0 _ Demo.pool0 _).
  - reflexivity.
  - reflexivity.
Defined.

End C10Witness.

Section MixingFacts.
Context {cfg : Config}.

Lemma wrap_uint32_small (z : Z) : 0 <= z < 2 ^ 32 → wrap_uint32 z = z.
Proof. intros H. unfold wrap_uint32. by apply Z.mod_small. Qed.

Lemma wrap_int32_small (z : Z) : - 2 ^ 31 <= z < 2 ^ 31 → wrap_int32 z = z.
Proof. intros H. unfold wrap_int32. rewrite Z.mod_small; lia. Qed.

Lemma wrap_uint32_range (z : Z) : 0 <= wrap_uint32 z < 2 ^ 32.
Proof. unfold wrap_uint32. apply Z.mod_pos_bound. lia. Qed.

(** The wrap loop on a well-formed loop region: it ends after [k >= 1]
    subtractions of the loop length, the first time [pos] is below
    [loopEnd]. *)
Lemma wrap_loop_spec (fuel : nat) (loopBack loopEnd : Z) :
  ∀ pos : Z,
  0 <= loopEnd < 2 ^ 31 →
  - loopEnd <= loopBack < 0 →
  loopEnd <= pos < 2 ^ 32 →
  pos - loopEnd < Z.of_nat fuel →
  ∃ k, 1 <= k ∧
       Sampler.wrap_loop fuel pos loopBack loopEnd = Some (pos + k * loopBack) ∧
       loopEnd + loopBack <= pos + k * loopBack < loopEnd.
Proof.
  induction fuel as [|fuel IH]; intros pos Hle Hlb Hpos Hfuel; [lia|].
  cbn [Sampler.wrap_loop].
  rewrite (wrap_uint32_small (pos + loopBack)) by lia.
  rewrite (wrap_uint32_small loopEnd) by lia.
  destruct (Z.leb_spec loopEnd (pos + loopBack)) as [Hge|Hlt].
  - destruct (IH (pos + loopBack)) as (k & Hk & Hrun & Hres); try lia.
    exists (k + 1). split; [lia|].
    replace (pos + (k + 1) * loopBack) with (pos + loopBack + k * loopBack) by lia.
    done.
  - exists 1. split; [lia|]. split; [f_equal; lia|lia].
Qed.

(** An envelope step whose kernel call returned, spelled out. *)
Lemma envelope_step_run (fuel : nat) (masterVolume : float) (j : nat)
    (p : SamplePlayer.t) (s : Sample.t) (data data' : list float) (w' : Work.t) :
  SamplePlayer.sample p = Some s →
  SamplePlayer.playing (step_player s p) = true →
  sampler_process_inner (Sample.sample s) data
    (step_work masterVolume j (step_player s p))
    (Z.of_nat ADSR_UPDATE_SAMPLE_COUNT) = Some (data', w') →
  loop_ok s →
  Sampler.envelope_step fuel masterVolume j p data =
    let pos := wrap_uint32 (Work.src w') in
    if loop_end s <=? pos then
      if loop_back s =? 0
      then Some (Sampler.Break (SamplePlayer.set_playing false (step_player s p)) data')
      else
        pos' ← Sampler.wrap_loop fuel pos (loop_back s) (loop_end s);
        Some (Sampler.Continue
                (SamplePlayer.set_pos pos' (Work.pos_f w') (step_player s p)) data')
    else Some (Sampler.Continue
                 (SamplePlayer.set_pos pos (Work.pos_f w') (step_player s p)) data').
Proof.
  intros Hs Hplay Hk [Hle Hlb].
  unfold Sampler.envelope_step. rewrite Hs.
  unfold step_player, step_work, loop_end, loop_back in *.
  destruct (Sample.adsrEnabled s) eqn:Hadsr.
  - rewrite Hplay. cbn [negb]. rewrite Hk. cbn.
    rewrite (wrap_int32_small (Sample.loopEnd s)) by lia.
    rewrite (wrap_int32_small (_ - _)) by lia.
    rewrite (wrap_uint32_small (Sample.loopEnd s)) by lia.
    reflexivity.
  - rewrite Hplay. cbn [negb]. rewrite Hk. cbn.
    rewrite (wrap_int32_small (Sample.length s)) by lia.
    rewrite (wrap_uint32_small (Sample.length s)) by lia.
    reflexivity.
Qed.

(** A voice without a sample, or one that is not playing, adds nothing to
    the mix bus and is left as it is. *)
Lemma mix_voice_silent (fuel : nat) (masterVolume : float) (p : SamplePlayer.t)
    (data : list float) :
  SamplePlayer.playing p = false ∨ SamplePlayer.sample p = None →
  Sampler.mix_voice fuel masterVolume p data = Some (p, data).
Proof.
  intros H. unfold Sampler.mix_voice.
  destruct (SamplePlayer.playing p) eqn:Hp; cbn [negb]; [|done].
  destruct H as [?|Hs]; [done|].
  destruct (SAMPLE_BUFFER_SIZE / ADSR_UPDATE_SAMPLE_COUNT)%nat; [done|].
  cbn. unfold Sampler.envelope_step. by rewrite Hs.
Qed.

End MixingFacts.

(** C3: in the mixing pass, after the kernel call of an envelope step for
    a playing voice, let [pos] be the new integer position and
    [loop_end], [loop_back] the sample's length and 0 without ADSR, its
    [loopEnd] and [loopStart - loopEnd] with ADSR.  When [pos >= loop_end]:
    with [loop_back = 0] the voice stops ([playing = false], nothing else
    of the voice changes) and no further envelope step runs for it in this
    buffer; otherwise [loop_back] is
    added [k >= 1] times, until the position is below [loop_end] for the
    first time, however far the kernel call overshot, and the voice keeps
    playing with that position and the kernel's fractional phase. *)
Theorem C3_loop_end_handling {cfg : Config} (fuel : nat) (masterVolume : float)
    (j : nat) (p : SamplePlayer.t) (s : Sample.t) (data data' : list float)
    (w' : Work.t) :
  SamplePlayer.sample p = Some s →
  SamplePlayer.playing (step_player s p) = true →
  sampler_process_inner (Sample.sample s) data
    (step_work masterVolume j (step_player s p))
    (Z.of_nat ADSR_UPDATE_SAMPLE_COUNT) = Some (data', w') →
  loop_ok s →
  loop_end s <= wrap_uint32 (Work.src w') →
  wrap_uint32 (Work.src w') - loop_end s < Z.of_nat fuel →
  (loop_back s = 0 →
     Sampler.envelope_step fuel masterVolume j p data =
       Some (Sampler.Break (SamplePlayer.set_playing false (step_player s p)) data') ∧
     (∀ n, Sampler.mix_steps fuel masterVolume (S n) j p data =
             Some (SamplePlayer.set_playing false (step_player s p), data')) ∧
     ∃ q, Sampler.envelope_step fuel masterVolume j p data = Some (Sampler.Break q data') ∧
          SamplePlayer.playing q = false ∧
          same_but_playing (step_player s p) q) ∧
  (loop_back s ≠ 0 →
     ∃ (k : Z) (p' : SamplePlayer.t),
       1 <= k ∧
       Sampler.envelope_step fuel masterVolume j p data = Some (Sampler.Continue p' data') ∧
       SamplePlayer.pos p' = wrap_uint32 (Work.src w') + k * loop_back s ∧
       SamplePlayer.pos p' < loop_end s <= SamplePlayer.pos p' - loop_back s ∧
       SamplePlayer.pos_f p' = Work.pos_f w' ∧
       SamplePlayer.playing p' = true ∧
       p' = SamplePlayer.set_pos (SamplePlayer.pos p') (Work.pos_f w') (step_player s p)).
Proof.
  intros Hs Hplay Hk Hok Hge Hfuel.
  pose proof (envelope_step_run fuel masterVolume j p s data data' w' Hs Hplay Hk Hok)
    as Hstep. cbn zeta in Hstep.
  rewrite (proj2 (Z.leb_le _ _) Hge) in Hstep.
  destruct Hok as [Hle Hlb]. split.
  - intros H0. rewrite H0 in Hstep. cbn in Hstep. split; [done|]. split.
    + intros n. cbn [Sampler.mix_steps]. by rewrite Hstep.
    + eexists. split; [exact Hstep|]. split; [done|]. by repeat split.
  - intros Hne. rewrite (proj2 (Z.eqb_neq _ _) Hne) in Hstep.
    destruct (wrap_loop_spec fuel (loop_back s) (loop_end s) (wrap_uint32 (Work.src w')))
      as (k & Hk1 & Hrun & Hres); try lia.
    { pose proof (wrap_uint32_range (Work.src w')). lia. }
    rewrite Hrun in Hstep. cbn in Hstep.
    eexists k, _. split; [done|]. split; [exact Hstep|].
    cbn. repeat split; try done; lia.
Qed.

Section C3Witness.
#[local] Existing Instance Demo.cfg.

(** C3 on a voice at position 190 of a sample looping over [[100, 200)],
    played at pitch 64: the kernel call of four samples ends at position
    446, and three wraps bring it back to 146. *)
Lemma C3_loop_end_handling_witness :
  wrap_uint32 (Work.src Demo.fast_result.2) = 446 ∧
  loop_end Demo.looped = 200 ∧ loop_back Demo.looped = -100 ∧
  ∃ (k : Z) (p' : SamplePlayer.t),
    1 <= k ∧
    Sampler.envelope_step 300 one 0 Demo.fast_voice Demo.bus0
      = Some (Sampler.Continue p' Demo.fast_result.1) ∧
    SamplePlayer.pos p' = wrap_uint32 (Work.src Demo.fast_result.2) + k * loop_back Demo.looped ∧
    SamplePlayer.pos p' < loop_end Demo.looped <= SamplePlayer.pos p' - loop_back Demo.looped ∧
    SamplePlayer.pos_f p' = Work.pos_f Demo.fast_result.2 ∧
    SamplePlayer.playing p' = true ∧
    p' = SamplePlayer.set_pos (SamplePlayer.pos p') (Work.pos_f Demo.fast_result.2)
           (step_player Demo.looped Demo.fast_voice).
Proof.
  split; [reflexivity|]. split; [reflexivity|]. split; [reflexivity|].
  apply (C3_loop_end_handling (cfg := Demo.cfg) 300 one 0 Demo.fast_voice Demo.looped
           Demo.bus0 Demo.fast_result.1 Demo.fast_result.2).
  - reflexivity.
  - reflexivity.
  - reflexivity.
  - unfold loop_ok. cbn. lia.
  - vm_compute. discriminate.
  - vm_compute. reflexivity.
  - discriminate.
Defined.

End C3Witness.

Section OneShotFacts.
Context {cfg : Config}.

(** An envelope step of a playing voice whose sample has no ADSR: the
    envelope is not advanced, and the voice either continues with a new
    position or stops because the position reached the sample's length. *)
Lemma envelope_step_oneshot (fuel : nat) (masterVolume : float) (j : nat)
    (p : SamplePlayer.t) (s : Sample.t) (data : list float) (r : Sampler.step_result) :
  SamplePlayer.sample p = Some s →
  Sample.adsrEnabled s = false →
  SamplePlayer.playing p = true →
  Sampler.envelope_step fuel masterVolume j p data = Some r →
  ∃ data' w',
    sampler_process_inner (Sample.sample s) data (step_work masterVolume j p)
      (Z.of_nat ADSR_UPDATE_SAMPLE_COUNT) = Some (data', w') ∧
    ((r = Sampler.Break (SamplePlayer.set_playing false p) data' ∧
      wrap_uint32 (wrap_int32 (Sample.length s)) <= wrap_uint32 (Work.src w')) ∨
     (r = Sampler.Continue
            (SamplePlayer.set_pos (wrap_uint32 (Work.src w')) (Work.pos_f w') p) data' ∧
      wrap_uint32 (Work.src w') < wrap_uint32 (wrap_int32 (Sample.length s)))).
Proof.
  intros Hs Hadsr Hplay. unfold Sampler.envelope_step.
  rewrite Hs, Hadsr, Hplay. cbn [negb]. fold (step_work masterVolume j p).
  destruct (sampler_process_inner _ _ _ _) as [[data' w']|]; [cbn|done].
  intros Hr. exists data', w'. split; [done|].
  destruct (Z.leb_spec (wrap_uint32 (wrap_int32 (Sample.length s)))
              (wrap_uint32 (Work.src w'))).
  - left. split; [congruence|done].
  - right. split; [congruence|done].
Qed.

(** The invariant of a voice without ADSR over the envelope steps. *)
Lemma env_steps_oneshot (s : Sample.t) (p0 p : SamplePlayer.t) :
  Sample.adsrEnabled s = false →
  SamplePlayer.sample p0 = Some s →
  env_steps p0 p →
  SamplePlayer.sample p = Some s ∧
  SamplePlayer.gain p = SamplePlayer.gain p0 ∧
  SamplePlayer.volume p = SamplePlayer.volume p0.
Proof.
  intros Hadsr Hs0.
  induction 1 as [p|p p1 fuel mv j data r Hreach IH Hplay Hstep
                 |p p1 Hreach IH|p p1 bend Hreach IH].
  - done.
  - destruct (IH Hs0) as (Hs1 & Hg & Hv).
    destruct (envelope_step_oneshot _ _ _ _ _ _ _ Hs1 Hadsr Hplay Hstep)
      as (data' & w' & _ & [[-> _]|[-> _]]); cbn; done.
  - destruct (IH Hs0) as (Hs1 & Hg & Hv). done.
  - destruct (IH Hs0) as (Hs1 & Hg & Hv).
    unfold rebend, SamplePlayer.UpdatePitch. cbn. rewrite Hs1. done.
Qed.

End OneShotFacts.

(** C6: a voice started on a sample with [adsrEnabled = false] is playing,
    and from then on, through envelope steps, note-offs and pitch bends,
    its gain equals its volume at every envelope step of the mixing pass:
    the envelope is never advanced, the kernel is run with
    [volume * (masterVolume * 65536)], and the only step that stops the
    voice is one whose kernel call ends at or past the sample's length. *)
Theorem C6_oneshot_gain_is_volume {cfg : Config} (s : Sample.t)
    (noteNo : Z) (volume pitchBend : float) (channel tick : Z) (p : SamplePlayer.t) :
  Sample.adsrEnabled s = false →
  env_steps (SamplePlayer.new (Some s) noteNo volume pitchBend channel tick) p →
  SamplePlayer.playing (SamplePlayer.new (Some s) noteNo volume pitchBend channel tick) = true ∧
  SamplePlayer.gain p = SamplePlayer.volume p ∧
  SamplePlayer.volume p = volume ∧
  ∀ (fuel : nat) (masterVolume : float) (j : nat) (data : list float)
    (r : Sampler.step_result),
    SamplePlayer.playing p = true →
    Sampler.envelope_step fuel masterVolume j p data = Some r →
    SamplePlayer.gain (result_player r) = volume ∧
    ∃ data' w',
      sampler_process_inner (Sample.sample s) data (step_work masterVolume j p)
        (Z.of_nat ADSR_UPDATE_SAMPLE_COUNT) = Some (data', w') ∧
      Work.gain (step_work masterVolume j p) = fmul volume (fmul masterVolume f65536) ∧
      (SamplePlayer.playing (result_player r) = false →
         wrap_uint32 (wrap_int32 (Sample.length s)) <= wrap_uint32 (Work.src w')).
Proof.
  intros Hadsr Hreach.
  destruct (new_fields (Some s) noteNo volume pitchBend channel tick)
    as (Hs0 & _ & Hv0 & _ & _ & _ & _ & Hp0).
  assert (Hg0 : SamplePlayer.gain (SamplePlayer.new (Some s) noteNo volume pitchBend channel tick)
                = volume).
  { unfold SamplePlayer.new, SamplePlayer.UpdatePitch. cbn. by rewrite Hadsr. }
  destruct (env_steps_oneshot s _ p Hadsr Hs0 Hreach) as (Hs & Hg & Hv).
  split; [done|]. split; [congruence|]. split; [congruence|].
  intros fuel mv j data r Hplay Hstep.
  destruct (envelope_step_oneshot _ _ _ _ _ _ _ Hs Hadsr Hplay Hstep)
    as (data' & w' & Hk & Hr).
  split.
  { destruct Hr as [[-> _]|[-> _]]; cbn; congruence. }
  exists data', w'. split; [done|]. split.
  { unfold step_work. cbn. congruence. }
  destruct Hr as [[-> Hend]|[-> _]]; cbn; [done|].
  intros Hf. rewrite Hplay in Hf. discriminate.
Qed.

Section C6Witness.
#[local] Existing Instance Demo.cfg.

(** C6 on the one-shot demo sample: the voice after its first envelope
    step still has gain 1/2, its volume. *)
Lemma C6_oneshot_gain_is_volume_witness :
  Sample.adsrEnabled Demo.oneshot = false ∧
  env_steps Demo.oneshot_voice (result_player Demo.oneshot_step) ∧
  SamplePlayer.pos (result_player Demo.oneshot_step) = 4 ∧
  SamplePlayer.gain (result_player Demo.oneshot_step) = Demo.half ∧
  SamplePlayer.gain (result_player Demo.oneshot_step)
    = SamplePlayer.volume (result_player Demo.oneshot_step).
Proof.
  assert (Hreach : env_steps Demo.oneshot_voice (result_player Demo.oneshot_step)).
  { apply (env_steps_step Demo.oneshot_voice Demo.oneshot_voice 0 one 0 Demo.bus0).
    - apply env_steps_refl.
    - reflexivity.
    - reflexivity. }
  split; [reflexivity|]. split; [exact Hreach|]. split; [reflexivity|].
  split; [reflexivity|].
  apply (C6_oneshot_gain_is_volume (cfg := Demo.cfg) Demo.oneshot 60 Demo.half zero 0 1
           (result_player Demo.oneshot_step)).
  - reflexivity.
  - exact Hreach.
Defined.

End C6Witness.

Section PitchBendFacts.
Context {cfg : Config}.

(** Re-pitching overwrites what an earlier re-pitching did. *)
Lemma rebend_rebend (b1 b2 : float) (p : SamplePlayer.t) :
  rebend b2 (rebend b1 p) = rebend b2 p.
Proof.
  destruct p as [smp ? ? ? ? ? ? ? ? ? ? ? ?].
  unfold rebend, SamplePlayer.UpdatePitch. cbn.
  destruct smp; reflexivity.
Qed.

Lemma rebend_fields (b : float) (p : SamplePlayer.t) :
  SamplePlayer.channel (rebend b p) = SamplePlayer.channel p ∧
  SamplePlayer.sample (rebend b p) = SamplePlayer.sample p ∧
  SamplePlayer.noteNo (rebend b p) = SamplePlayer.noteNo p ∧
  SamplePlayer.pitchBend (rebend b p) = b.
Proof.
  destruct p as [smp ? ? ? ? ? ? ? ? ? ? ? ?].
  unfold rebend, SamplePlayer.UpdatePitch. cbn.
  destruct smp; done.
Qed.

Lemma bent_by_rebend (index : nat) (notes : list PlayingNote.t) (i : nat)
    (b : float) (p : SamplePlayer.t) :
  bent_by index notes i (rebend b p) = bent_by index notes i p.
Proof.
  unfold bent_by. by rewrite (proj1 (rebend_fields b p)).
Qed.

(** The loop of [Channel::PitchBend] in closed form. *)
Lemma PitchBend_loop_spec (index : nat) (bend : float) (notes : list PlayingNote.t) :
  ∀ players : list SamplePlayer.t,
  notes_ok notes players →
  Channel.PitchBend_loop index bend notes players =
    Some (imap (λ i p, if bent_by index notes i p then rebend bend p else p) players).
Proof.
  induction notes as [|itr rest IH]; intros players Hok.
  - cbn. f_equal. symmetry. apply list_eq. intros i.
    rewrite list_lookup_imap. by destruct (players !! i).
  - apply Forall_cons in Hok as [Hid Hok].
    destruct (lookup_lt_is_Some_2 players _ Hid) as [player Hplayer].
    cbn [Channel.PitchBend_loop]. rewrite Hplayer. cbn.
    fold (rebend bend player).
    rewrite IH.
    2:{ unfold notes_ok. destruct (_ =? _); [by rewrite length_insert|done]. }
    f_equal. apply list_eq. intros i. rewrite !list_lookup_imap.
    destruct (decide (i = PlayingNote.playerId itr)) as [->|Hi].
    + assert (Hb : bent_by index (itr :: rest) (PlayingNote.playerId itr) player
                   = (SamplePlayer.channel player =? Channel.channelIndex index)).
      { unfold bent_by. cbn. by rewrite Nat.eqb_refl. }
      rewrite Hplayer. cbn. rewrite Hb.
      destruct (SamplePlayer.channel player =? Channel.channelIndex index) eqn:Hc.
      * rewrite list_lookup_insert_eq by done. cbn.
        rewrite bent_by_rebend, rebend_rebend.
        by destruct (bent_by index rest _ player).
      * rewrite Hplayer. cbn.
        assert (bent_by index rest (PlayingNote.playerId itr) player = false) as ->; [|done].
        unfold bent_by. rewrite Hc. apply andb_false_r.
    + assert (Hlk : (if SamplePlayer.channel player =? Channel.channelIndex index
                     then <[PlayingNote.playerId itr := rebend bend player]> players
                     else players) !! i = players !! i).
      { destruct (_ =? _); [by apply list_lookup_insert_ne|done]. }
      rewrite Hlk. destruct (players !! i) as [p|]; [cbn|done].
      assert (bent_by index (itr :: rest) i p = bent_by index rest i p) as ->; [|done].
      unfold bent_by. cbn.
      assert (Nat.eqb (PlayingNote.playerId itr) i = false) as ->
        by (apply Nat.eqb_neq; congruence).
      done.
Qed.

Lemma bent_by_true (index : nat) (notes : list PlayingNote.t) (i : nat)
    (p : SamplePlayer.t) :
  bent_by index notes i p = true ↔
  (∃ e, e ∈ notes ∧ PlayingNote.playerId e = i) ∧
  SamplePlayer.channel p = Channel.channelIndex index.
Proof.
  unfold bent_by. rewrite andb_true_iff, existsb_exists, Z.eqb_eq.
  split.
  - intros [(e & He & Hi%Nat.eqb_eq) Hc]. split; [|done].
    exists e. by rewrite list_elem_of_In.
  - intros [(e & He & Hi) Hc]. split; [|done].
    exists e. rewrite <- list_elem_of_In. split; [done|]. by apply Nat.eqb_eq.
Qed.

(** [PitchBend] on a live sampler in closed form. *)
Lemma PitchBend_alive (index : nat) (b : Z) (this : Channel.t)
    (players : list SamplePlayer.t) :
  Channel.sampler this = Alive →
  notes_ok (Channel.playingNotes this) players →
  Channel.PitchBend index b this players =
    Some (Channel.set_pitchBend (semitones b) this,
          imap (λ i p, if bent_by index (Channel.playingNotes this) i p
                       then rebend (semitones b) p else p) players).
Proof.
  intros Ha Hok. unfold Channel.PitchBend. cbn. rewrite Ha.
  fold (semitones b). by rewrite PitchBend_loop_spec.
Qed.

(** No bend: [0 * 12.0f / 8192.0f] is [+0], and adding it to the
    difference of two 8-bit numbers changes nothing. *)
Lemma semitones_0 : semitones 0 = zero.
Proof. reflexivity. Qed.

Lemma fadd_small_int_zero (d : Z) :
  -255 <= d <= 255 → fadd (of_int d) zero = of_int d.
Proof.
  intros Hd.
  assert (Hall : Forall (λ d, fadd (of_int d) zero = of_int d) (seqZ (-255) 511)).
  { apply (bool_decide_unpack _). vm_compute. exact I. }
  rewrite Forall_forall in Hall. apply Hall. apply elem_of_seqZ. lia.
Qed.

Lemma rebend_zero_pitch (p : SamplePlayer.t) (s : Sample.t) :
  SamplePlayer.sample p = Some s →
  0 <= SamplePlayer.noteNo p < 256 →
  0 <= Sample.root s < 256 →
  SamplePlayer.pitch (rebend zero p) = unbent_pitch p s.
Proof.
  intros Hs Hn Hr. unfold rebend, SamplePlayer.UpdatePitch, unbent_pitch. cbn.
  rewrite Hs. cbn. by rewrite fadd_small_int_zero by lia.
Qed.

End PitchBendFacts.

(** C7, as stated, fails: after [PitchBend(4096)], [NoteOn(66)] and
    [NoteOff(66)] voice 0 of the demo pool is still sounding on channel 0
    (in its release segment) at pitch 2, and the channel has no entry for
    it any more.  [PitchBend(1000)] followed by [PitchBend(0)] leaves its
    pitch at 2, while [2^((66 - 60)/12)] is the square root of two. *)
Lemma C7_released_voice_keeps_bend :
  ∃ (ch1 ch2 : Channel.t) (ps1 ps2 : list SamplePlayer.t) (v : SamplePlayer.t),
    Channel.PitchBend (cfg := Demo.cfg) 0 1000 Demo.fading_state.1 Demo.fading_state.2
      = Some (ch1, ps1) ∧
    Channel.PitchBend (cfg := Demo.cfg) 0 0 ch1 ps1 = Some (ch2, ps2) ∧
    ps2 !! 0%nat = Some v ∧
    SamplePlayer.playing v = true ∧
    SamplePlayer.channel v = Channel.channelIndex 0 ∧
    SamplePlayer.sample v = Some Demo.looped ∧
    SamplePlayer.pitch v = two ∧
    unbent_pitch (cfg := Demo.cfg) v Demo.looped = Demo.sqrt2 ∧
    SamplePlayer.pitch v ≠ unbent_pitch (cfg := Demo.cfg) v Demo.looped.
Proof.
  eexists _, _, _, _, _.
  split; [reflexivity|]. split; [reflexivity|]. split; [reflexivity|].
  repeat split. discriminate.
Qed.

(** C7, amended: on a live sampler, [PitchBend(x)] followed by
    [PitchBend(0)] leaves the channel and the pool exactly as
    [PitchBend(0)] alone does, with the channel's bend at zero.  Every
    voice that an entry of the channel's [playingNotes] refers to, that
    still has this channel's index and holds a sample, ends with pitch
    [2^((noteNo - root)/12)] ([noteNo] and [root] being 8-bit numbers); a
    voice no entry refers to is left as it was. *)
Theorem C7_PitchBend_round_trip {cfg : Config} (index : nat) (x : Z)
    (this : Channel.t) (players : list SamplePlayer.t) :
  Channel.sampler this = Alive →
  notes_ok (Channel.playingNotes this) players →
  ∃ (this1 this2 : Channel.t) (players1 players2 : list SamplePlayer.t),
    Channel.PitchBend index x this players = Some (this1, players1) ∧
    Channel.PitchBend index 0 this1 players1 = Some (this2, players2) ∧
    Channel.PitchBend index 0 this players = Some (this2, players2) ∧
    Channel.pitchBend this2 = zero ∧
    (∀ e v s,
       e ∈ Channel.playingNotes this →
       players2 !! PlayingNote.playerId e = Some v →
       SamplePlayer.channel v = Channel.channelIndex index →
       SamplePlayer.sample v = Some s →
       0 <= SamplePlayer.noteNo v < 256 →
       0 <= Sample.root s < 256 →
       SamplePlayer.pitch v = unbent_pitch v s) ∧
    (∀ i p,
       players !! i = Some p →
       (∀ e, e ∈ Channel.playingNotes this → PlayingNote.playerId e ≠ i) →
       players2 !! i = Some p).
Proof.
  intros Ha Hok.
  set (notes := Channel.playingNotes this).
  set (f := λ (b : Z) (i : nat) (p : SamplePlayer.t),
              if bent_by index notes i p then rebend (semitones b) p else p).
  assert (Hff : ∀ i p, f 0 i (f x i p) = f 0 i p).
  { intros i p. unfold f. destruct (bent_by index notes i p) eqn:Hb.
    - by rewrite bent_by_rebend, Hb, rebend_rebend.
    - by rewrite Hb. }
  exists (Channel.set_pitchBend (semitones x) this),
         (Channel.set_pitchBend (semitones 0) this),
         (imap (f x) players), (imap (f 0) players).
  split; [by apply PitchBend_alive|]. split.
  { rewrite PitchBend_alive; [|done|].
    - cbn. f_equal. f_equal. apply list_eq. intros i.
      rewrite !list_lookup_imap. destruct (players !! i) as [p|]; [cbn|done].
      f_equal. apply Hff.
    - cbn. unfold notes_ok. by rewrite length_imap. }
  split; [by apply PitchBend_alive|]. split; [reflexivity|]. split.
  - intros e v s He Hv Hc Hs Hn Hr.
    rewrite list_lookup_imap in Hv.
    destruct (players !! PlayingNote.playerId e) as [p|] eqn:Hp; [cbn in Hv|done].
    injection Hv as <-. unfold f in *.
    destruct (bent_by index notes (PlayingNote.playerId e) p) eqn:Hb.
    + destruct (rebend_fields (semitones 0) p) as (_ & Hs' & Hn' & _).
      rewrite Hs' in Hs. rewrite Hn' in Hn.
      rewrite semitones_0. rewrite (rebend_zero_pitch p s Hs Hn Hr).
      unfold unbent_pitch. by rewrite <- semitones_0, Hn'.
    + exfalso. assert (bent_by index notes (PlayingNote.playerId e) p = true); [|congruence].
      apply bent_by_true. split; [by exists e|done].
  - intros i p Hp Hno. rewrite list_lookup_imap, Hp. cbn. unfold f.
    destruct (bent_by index notes i p) eqn:Hb; [|done].
    apply bent_by_true in Hb as [(e & He & Hi) _]. by destruct (Hno e He).
Qed.

Section C7Witness.
#[local] Existing Instance Demo.cfg.

(** C7 on the demo channel holding notes 60 and 62. *)
Lemma C7_PitchBend_round_trip_witness :
  Channel.sampler Demo.holding_channel = Alive ∧
  notes_ok (Channel.playingNotes Demo.holding_channel) Demo.busy_pool ∧
  ∃ (this1 this2 : Channel.t) (players1 players2 : list SamplePlayer.t),
    Channel.PitchBend 0 1000 Demo.holding_channel Demo.busy_pool = Some (this1, players1) ∧
    Channel.PitchBend 0 0 this1 players1 = Some (this2, players2) ∧
    Channel.PitchBend 0 0 Demo.holding_channel Demo.busy_pool = Some (this2, players2) ∧
    Channel.pitchBend this2 = zero ∧
    (∀ e v s,
       e ∈ Channel.playingNotes Demo.holding_channel →
       players2 !! PlayingNote.playerId e = Some v →
       SamplePlayer.channel v = Channel.channelIndex 0 →
       SamplePlayer.sample v = Some s →
       0 <= SamplePlayer.noteNo v < 256 →
       0 <= Sample.root s < 256 →
       SamplePlayer.pitch v = unbent_pitch v s) ∧
    (∀ i p,
       Demo.busy_pool !! i = Some p →
       (∀ e, e ∈ Channel.playingNotes Demo.holding_channel → PlayingNote.playerId e ≠ i) →
       players2 !! i = Some p).
Proof.
  assert (Hok : notes_ok (Channel.playingNotes Demo.holding_channel) Demo.busy_pool)
    by (repeat constructor).
  split; [reflexivity|]. split; [exact Hok|].
  apply (C7_PitchBend_round_trip (cfg := Demo.cfg) 0 1000 Demo.holding_channel
           Demo.busy_pool eq_refl Hok).
Defined.

End C7Witness.

(** ** The resampling kernel *)

Section KernelFacts.

Lemma phase_S (pitch : float) (k : nat) (st : Z * float) :
  phase pitch (S k) st = advance pitch st ≫= phase pitch k.
Proof. reflexivity. Qed.

(** The loop of the kernel against the phase sequence of the spec. *)
Lemma kernel_loop_spec (mem : Z → Z) (n : nat) :
  ∀ (buf : list float) (w : Work.t),
  is_frac (Work.pos_f w) →
  below_2p32 (Work.pitch w) →
  (Work.dst w + n <= length buf)%nat →
  ∃ (buf' : list float) (w' : Work.t),
    kernel_loop n mem buf w = Some (buf', w') ∧
    phase (Work.pitch w) n (Work.src w, Work.pos_f w)
      = Some (Work.src w', Work.pos_f w') ∧
    is_frac (Work.pos_f w') ∧
    Work.gain w' = Work.gain w ∧
    Work.pitch w' = Work.pitch w ∧
    Work.dst w' = (Work.dst w + n)%nat ∧
    length buf' = length buf ∧
    (∀ i, (i < Work.dst w ∨ Work.dst w + n <= i)%nat → buf' !! i = buf !! i) ∧
    (∀ k, (k < n)%nat →
       ∃ (src_k : Z) (f_k d : float),
         phase (Work.pitch w) k (Work.src w, Work.pos_f w) = Some (src_k, f_k) ∧
         is_frac f_k ∧
         buf !! (Work.dst w + k)%nat = Some d ∧
         buf' !! (Work.dst w + k)%nat
           = Some (fadd d (fmul (interpolate mem src_k f_k) (Work.gain w)))).
Proof.
  induction n as [|n IH]; intros buf w Hf Hp Hlen.
  - exists buf, w. cbn. rewrite Nat.add_0_r. split_and!; try done.
    intros k Hk. lia.
  - destruct (lookup_lt_is_Some_2 buf (Work.dst w)) as [d0 Hd0]; [lia|].
    destruct (advance_frac (Work.pitch w) (Work.src w) (Work.pos_f w) Hf Hp)
      as (intval & f' & Hadv & Hconv & Hf' & Hrange & Hfrac').
    set (buf1 := <[Work.dst w :=
                     fadd d0 (fmul (interpolate mem (Work.src w) (Work.pos_f w))
                                (Work.gain w))]> buf).
    set (w1 := {| Work.src := Work.src w + intval; Work.dst := S (Work.dst w);
                  Work.pos_f := f'; Work.gain := Work.gain w;
                  Work.pitch := Work.pitch w |}).
    assert (Hbody : kernel_body mem buf w = Some (buf1, w1)).
    { unfold kernel_body. rewrite Hd0. cbn. rewrite Hconv. cbn.
      unfold w1. by rewrite Hf'. }
    destruct (IH buf1 w1) as (buf' & w' & Hrun & Hph & Hfr & Hg & Hpi & Hdst & Hl & Hframe & Hout).
    { done. }
    { done. }
    { unfold buf1. rewrite length_insert. cbn. lia. }
    cbn in Hph, Hg, Hpi, Hdst, Hframe, Hout.
    exists buf', w'.
    split. { cbn [kernel_loop]. rewrite Hbody. cbn. exact Hrun. }
    split. { rewrite phase_S, Hadv. cbn. exact Hph. }
    split; [done|]. split; [done|]. split; [done|].
    split; [lia|].
    split. { rewrite Hl. unfold buf1. by rewrite length_insert. }
    split.
    { intros i Hi. rewrite Hframe by lia. unfold buf1.
      apply list_lookup_insert_ne. lia. }
    intros k Hk. destruct k as [|k].
    + exists (Work.src w), (Work.pos_f w), d0. rewrite Nat.add_0_r.
      split; [done|]. split; [done|]. split; [done|].
      rewrite Hframe by lia. unfold buf1. apply list_lookup_insert_eq. lia.
    + destruct (Hout k) as (src_k & f_k & d & Hphk & Hfk & Hdk & Hbk); [lia|].
      exists src_k, f_k, d.
      replace (Work.dst w + S k)%nat with (S (Work.dst w) + k)%nat by lia.
      split. { rewrite phase_S, Hadv. cbn. exact Hphk. }
      split; [done|]. split; [|done].
      rewrite <- Hdk. unfold buf1. symmetry. apply list_lookup_insert_ne. lia.
Qed.

End KernelFacts.




(** ** Further properties of the channel methods and the mixing pass *)

Section Invariants.
Context {cfg : Config}.

Lemma mix_players_idle (fuel : nat) (masterVolume : float) (n : nat) :
  ∀ (i : nat) (players : list SamplePlayer.t) (data : list float),
  (i + n <= length players)%nat →
  (∀ p, p ∈ players → SamplePlayer.playing p = false ∨ SamplePlayer.sample p = None) →
  Sampler.mix_players fuel masterVolume n i players data = Some (players, data).
Proof.
  induction n as [|n IH]; intros i players data Hlen Hidle; [done|].
  destruct (lookup_lt_is_Some_2 players i) as [p Hp]; [lia|].
  cbn [Sampler.mix_players]. rewrite Hp. cbn.
  rewrite mix_voice_silent by (apply Hidle; by eapply list_elem_of_lookup_2).
  cbn. rewrite list_insert_id by done. apply IH; [lia|done].
Qed.

End Invariants.

(** A note-on that finds no sample in the channel's timbre leaves an idle
    voice behind: it has no sample, is not playing, and the mixing pass
    adds nothing to the bus for it. *)
Theorem NoteOn_without_match_is_silent {cfg : Config} (index : nat)
    (noteNo velocity tick tick' : Z) (this this' : Channel.t)
    (players players' : list SamplePlayer.t) (tm : Timbre.t) :
  Channel.sampler this = Alive →
  Channel.timbre this = Some tm →
  Timbre.GetAppropriateSample tm noteNo velocity = None →
  Channel.NoteOn index noteNo velocity this players tick = Some (this', players', tick') →
  ∃ (id : nat) (v : SamplePlayer.t),
    players' = <[id := v]> players ∧
    players' !! id = Some v ∧
    SamplePlayer.sample v = None ∧
    SamplePlayer.playing v = false ∧
    ∀ (fuel : nat) (masterVolume : float) (data : list float),
      Sampler.mix_voice fuel masterVolume v data = Some (v, data).
Proof.
  intros Ha Htm Hnone Hrun.
  destruct (NoteOn_inv _ _ _ _ _ _ _ _ _ Ha Hrun) as (id & tm' & Htm' & Hid & -> & -> & _).
  assert (tm' = tm) by congruence. subst tm'. rewrite Hnone.
  eexists id, _. split; [reflexivity|]. split; [by apply list_lookup_insert_eq|].
  split; [reflexivity|]. split; [reflexivity|].
  intros fuel mv data. apply mix_voice_silent. by left.
Qed.

Section SilentWitness.
#[local] Existing Instance Demo.cfg.

Lemma NoteOn_without_match_is_silent_witness :
  Timbre.GetAppropriateSample Demo.timbre 120 100 = None ∧
  ∃ (id : nat) (v : SamplePlayer.t),
    (Demo.after_unmatched_note).1.2 = <[id := v]> Demo.pool0 ∧
    (Demo.after_unmatched_note).1.2 !! id = Some v ∧
    SamplePlayer.sample v = None ∧
    SamplePlayer.playing v = false ∧
    ∀ (fuel : nat) (masterVolume : float) (data : list float),
      Sampler.mix_voice fuel masterVolume v data = Some (v, data).
Proof.
  split; [reflexivity|].
  apply (NoteOn_without_match_is_silent (cfg := Demo.cfg) 0 120 100 0 1
           Demo.channel0 (Demo.after_unmatched_note).1.1 Demo.pool0 _ Demo.timbre).
  - reflexivity.
  - reflexivity.
  - reflexivity.
  - reflexivity.
Defined.

End SilentWitness.

(** With the sampler gone, [NoteOn] and [NoteOff] return without changing
    the channel or any voice, and [PitchBend] changes no voice and nothing
    of the channel but its stored bend. *)
Theorem expired_sampler_keeps_voices {cfg : Config} (index : nat)
    (noteNo velocity b tick : Z) (this : Channel.t) (players : list SamplePlayer.t) :
  Channel.sampler this = Expired →
  Channel.NoteOn index noteNo velocity this players tick = Some (this, players, tick) ∧
  Channel.NoteOff index noteNo velocity this players = Some (this, players) ∧
  Channel.PitchBend index b this players
    = Some (Channel.set_pitchBend (semitones b) this, players).
Proof.
  intros He. split; [by apply NoteOn_expired|]. split; [by apply NoteOff_expired|].
  by apply PitchBend_expired.
Qed.

Section ExpiredWitness.
#[local] Existing Instance Demo.cfg.

Lemma expired_sampler_keeps_voices_witness :
  Channel.sampler Demo.orphan_channel = Expired ∧
  Channel.NoteOn 0 60 100 Demo.orphan_channel Demo.pool0 5
    = Some (Demo.orphan_channel, Demo.pool0, 5) ∧
  Channel.NoteOff 0 60 100 Demo.orphan_channel Demo.pool0
    = Some (Demo.orphan_channel, Demo.pool0) ∧
  Channel.PitchBend 0 4096 Demo.orphan_channel Demo.pool0
    = Some (Channel.set_pitchBend (semitones 4096) Demo.orphan_channel, Demo.pool0).
Proof.
  split; [reflexivity|].
  apply (expired_sampler_keeps_voices (cfg := Demo.cfg) 0 60 100 4096 5
           Demo.orphan_channel Demo.pool0).
  reflexivity.
Defined.

End ExpiredWitness.

(** The channel methods keep the pool at its size and keep every entry of
    [playingNotes] pointing at a voice of the pool. *)
Theorem channel_methods_keep_notes_ok {cfg : Config} (index : nat)
    (noteNo velocity b tick : Z) (this : Channel.t) (players : list SamplePlayer.t) :
  notes_ok (Channel.playingNotes this) players →
  (∀ this' players' tick',
     Channel.NoteOn index noteNo velocity this players tick = Some (this', players', tick') →
     length players' = length players ∧ notes_ok (Channel.playingNotes this') players') ∧
  (∀ this' players',
     Channel.NoteOff index noteNo velocity this players = Some (this', players') →
     length players' = length players ∧ notes_ok (Channel.playingNotes this') players') ∧
  (∀ this' players',
     Channel.PitchBend index b this players = Some (this', players') →
     length players' = length players ∧ notes_ok (Channel.playingNotes this') players').
Proof.
  intros Hok. split; [|split].
  - intros this' players' tick' Hrun.
    destruct (Channel.sampler this) eqn:Ha.
    + rewrite NoteOn_expired in Hrun by done. by injection Hrun as <- <- <-.
    + destruct (NoteOn_inv _ _ _ _ _ _ _ _ _ Ha Hrun) as (id & tm & _ & Hid & -> & -> & _).
      rewrite length_insert. split; [done|]. cbn. unfold notes_ok in *.
      rewrite length_insert. apply Forall_app. split; [done|]. by repeat constructor.
  - intros this' players' Hrun.
    destruct (Channel.sampler this) eqn:Ha.
    + rewrite NoteOff_expired in Hrun by done. by injection Hrun as <- <-.
    + unfold Channel.NoteOff in Hrun. rewrite Ha, (NoteOff_loop_spec _ _ _ _ Hok) in Hrun.
      cbn in Hrun. injection Hrun as <- <-. rewrite length_imap. split; [done|].
      cbn. unfold notes_ok, kept_notes in *. rewrite length_imap.
      apply Forall_forall. intros e [_ He]%list_elem_of_filter.
      rewrite Forall_forall in Hok. by apply Hok.
  - intros this' players' Hrun.
    destruct (Channel.sampler this) eqn:Ha.
    + rewrite PitchBend_expired in Hrun by done. by injection Hrun as <- <-.
    + rewrite PitchBend_alive in Hrun by done. injection Hrun as <- <-.
      rewrite length_imap. split; [done|]. cbn. unfold notes_ok in *.
      by rewrite length_imap.
Qed.

Section NotesOkWitness.
#[local] Existing Instance Demo.cfg.

Lemma channel_methods_keep_notes_ok_witness :
  notes_ok (Channel.playingNotes Demo.holding_channel) Demo.busy_pool ∧
  (∀ this' players' tick',
     Channel.NoteOn 0 64 100 Demo.holding_channel Demo.busy_pool 9
       = Some (this', players', tick') →
     length players' = length Demo.busy_pool ∧
     notes_ok (Channel.playingNotes this') players') ∧
  (∀ this' players',
     Channel.NoteOff 0 64 100 Demo.holding_channel Demo.busy_pool = Some (this', players') →
     length players' = length Demo.busy_pool ∧
     notes_ok (Channel.playingNotes this') players') ∧
  (∀ this' players',
     Channel.PitchBend 0 1000 Demo.holding_channel Demo.busy_pool = Some (this', players') →
     length players' = length Demo.busy_pool ∧
     notes_ok (Channel.playingNotes this') players').
Proof.
  assert (Hok : notes_ok (Channel.playingNotes Demo.holding_channel) Demo.busy_pool)
    by (repeat constructor).
  split; [exact Hok|].
  apply (channel_methods_keep_notes_ok (cfg := Demo.cfg) 0 64 100 1000 9
           Demo.holding_channel Demo.busy_pool Hok).
Defined.

End NotesOkWitness.

(** The producers' side of the queue: the velocity is masked to seven
    bits, a note event for a channel out of range goes to channel 0, a
    pitch bend is clamped to [[-8192, 8191]] and one for a channel out of
    range is discarded. *)
Theorem producers_mask_and_clamp {cfg : Config} (noteNo velocity channel bend : Z)
    (this : Sampler.t) :
  let on := Sampler.NoteOn noteNo velocity channel this in
  let off := Sampler.NoteOff noteNo velocity channel this in
  let pb := Sampler.PitchBend bend channel this in
  let ch := if Z.of_nat CH_COUNT <=? channel then 0 else channel in
  Sampler.messageQueue on = Sampler.messageQueue this ++
    [ {| Message.status := NOTE_ON; Message.channel := ch; Message.noteNo := noteNo;
         Message.velocity := Z.land velocity 127; Message.pitchBend := 0 |} ] ∧
  Sampler.messageQueue off = Sampler.messageQueue this ++
    [ {| Message.status := NOTE_OFF; Message.channel := ch; Message.noteNo := noteNo;
         Message.velocity := Z.land velocity 127; Message.pitchBend := 0 |} ] ∧
  0 <= Z.land velocity 127 <= 127 ∧
  Z.land 128 127 = 0 ∧
  (Z.of_nat CH_COUNT <= channel → pb = this) ∧
  (channel < Z.of_nat CH_COUNT →
     Sampler.messageQueue pb = Sampler.messageQueue this ++
       [ {| Message.status := PITCH_BEND; Message.channel := channel; Message.noteNo := 0;
            Message.velocity := 0;
            Message.pitchBend := Z.max (-8192) (Z.min 8191 bend) |} ]).
Proof.
  cbn zeta. split; [reflexivity|]. split; [reflexivity|]. split.
  { change 127 with (Z.ones 7). rewrite Z.land_ones by lia.
    change (Z.ones 7) with 127.
    pose proof (Z.mod_pos_bound velocity (2 ^ 7)). lia. }
  split; [reflexivity|]. unfold Sampler.PitchBend. split.
  - intros H. by rewrite (proj2 (Z.leb_le _ _) H).
  - intros H. rewrite (proj2 (Z.leb_gt _ _) H). cbn. do 3 f_equal.
    destruct (Z.ltb_spec bend (-8192)); [lia|].
    destruct (Z.ltb_spec 8191 bend); lia.
Qed.

(** A buffer processed with an empty queue and no voice sounding is
    silent: the mix bus is all zeros and the sampler is unchanged. *)
Theorem Process_idle_is_silent {cfg : Config} (fuel : nat) (this : Sampler.t) :
  Sampler.messageQueue this = [] →
  length (Sampler.players this) = MAX_SOUND →
  (∀ p, p ∈ Sampler.players this →
        SamplePlayer.playing p = false ∨ SamplePlayer.sample p = None) →
  Sampler.Process fuel this = Some (this, replicate SAMPLE_BUFFER_SIZE zero).
Proof.
  intros Hq Hlen Hidle. unfold Sampler.Process. rewrite Hq. cbn.
  rewrite mix_players_idle by (done || lia). cbn.
  destruct this. cbn in *. by subst.
Qed.

Section IdleWitness.
#[local] Existing Instance Demo.cfg.

Lemma Process_idle_is_silent_witness :
  Sampler.Process 0 Demo.idle_sampler
    = Some (Demo.idle_sampler, replicate SAMPLE_BUFFER_SIZE zero).
Proof.
  apply (Process_idle_is_silent (cfg := Demo.cfg) 0 Demo.idle_sampler).
  - reflexivity.
  - reflexivity.
  - intros p Hp. left.
    repeat (apply elem_of_cons in Hp as [->|Hp]; [reflexivity|]).
    by apply elem_of_nil in Hp.
Defined.

End IdleWitness.

(** Once a note-off has set [released], every later envelope step of a
    voice with ADSR is a release step: the flag stays set and the segment
    is [release], never attack, decay or sustain again. *)
Theorem released_voice_stays_in_release {cfg : Config} (s : Sample.t)
    (p : SamplePlayer.t) :
  SamplePlayer.sample p = Some s →
  Sample.adsrEnabled s = true →
  SamplePlayer.released p = true →
  SamplePlayer.released (SamplePlayer.UpdateGain p) = true ∧
  SamplePlayer.adsrState (SamplePlayer.UpdateGain p) = release ∧
  SamplePlayer.sample (SamplePlayer.UpdateGain p) = Some s.
Proof.
  intros Hs Ha Hr. rewrite (UpdateGain_release s p Hs Ha (or_introl Hr)).
  unfold release_step.
  destruct (flt (fmul (SamplePlayer.gain p) (Sample.release s)) f0_001); cbn; done.
Qed.

Section ReleasedWitness.
#[local] Existing Instance Demo.cfg.

Lemma released_voice_stays_in_release_witness :
  SamplePlayer.released (SamplePlayer.UpdateGain Demo.released_voice) = true ∧
  SamplePlayer.adsrState (SamplePlayer.UpdateGain Demo.released_voice) = release ∧
  SamplePlayer.sample (SamplePlayer.UpdateGain Demo.released_voice) = Some Demo.looped.
Proof.
  apply (released_voice_stays_in_release (cfg := Demo.cfg) Demo.looped Demo.released_voice).
  - reflexivity.
  - reflexivity.
  - reflexivity.
Defined.

End ReleasedWitness.

(** ** The output stage *)

Section OutputFacts.

(** Lookups in a list after a series of updates. *)
Ltac insert_lookup :=
  repeat match goal with
         | |- context [<[?j := ?x]> ?l !! ?i] =>
             first [ rewrite (list_lookup_insert_ne l j i x) by lia
                   | rewrite (list_lookup_insert_eq l j x) by (rewrite ?length_insert; lia) ]
         end.

Lemma trunc_abs_nonneg (m : positive) (e : Z) : 0 <= trunc_abs m e.
Proof.
  unfold trunc_abs. destruct (Z.leb_spec 0 e).
  - apply Z.mul_nonneg_nonneg; [lia|]. apply Z.pow_nonneg. lia.
  - apply Z.div_pos; [lia|]. apply Z.pow_pos_nonneg; lia.
Qed.

Lemma to_int32_range (x : float) (z : Z) :
  to_int32 x = Some z → - 2 ^ 31 <= z < 2 ^ 31.
Proof.
  destruct x as [s| | |s m e]; cbn; try done.
  - intros [= <-]. lia.
  - pose proof (trunc_abs_nonneg m e). destruct s.
    + destruct (Z.leb_spec (trunc_abs m e) (2 ^ 31)); [|done]. intros [= <-]. lia.
    + destruct (Z.ltb_spec (trunc_abs m e) (2 ^ 31)); [|done]. intros [= <-]. lia.
Qed.

(** The upper half of a 32-bit signed value, read back as a 16-bit signed
    value, is the value shifted right arithmetically. *)
Lemma high_half (z : Z) :
  - 2 ^ 31 <= z < 2 ^ 31 →
  wrap_int16 (Z.shiftr (wrap_uint32 z) 16) = z / 65536.
Proof.
  intros Hz. unfold wrap_int16, wrap_uint32. rewrite Z.shiftr_div_pow2 by lia.
  change (2 ^ 32) with 4294967296. change (2 ^ 16) with 65536.
  change (2 ^ 15) with 32768. change (2 ^ 31) with 2147483648 in Hz.
  assert (Hq : - 32768 <= z / 65536 < 32768).
  { split; [apply Z.div_le_lower_bound; lia|apply Z.div_lt_upper_bound; lia]. }
  destruct (Z.le_gt_cases 0 z) as [Hpos|Hneg].
  - rewrite (Z.mod_small z) by lia.
    assert (0 <= z / 65536) by (apply Z.div_pos; lia).
    rewrite Z.mod_small; lia.
  - replace (z mod 4294967296) with (z + 65536 * 65536)
      by (apply Z.mod_unique with (q := -1); lia).
    rewrite Z.div_add by lia.
    replace (z / 65536 + 65536 + 32768) with (z / 65536 + 32768 + 1 * 65536) by lia.
    rewrite Z.mod_add by lia. rewrite Z.mod_small; lia.
Qed.

Lemma shifted_fits (z : Z) :
  - 2 ^ 31 <= z < 2 ^ 31 →
  wrap_int16 (Z.shiftr z 16) = z / 65536 ∧ - 32768 <= z / 65536 <= 32767.
Proof.
  intros Hz. rewrite Z.shiftr_div_pow2 by lia. change (2 ^ 16) with 65536.
  assert (- 32768 <= z / 65536 < 32768).
  { split; [apply Z.div_le_lower_bound; lia|apply Z.div_lt_upper_bound; lia]. }
  split; [|lia]. unfold wrap_int16. rewrite Z.mod_small; lia.
Qed.

(** One round of the loop: four cells are written, each with the upper
    half of its converted bus value. *)
Lemma output_body_spec (d : list float) (base : nat) (o : list Z)
    (x0 x1 x2 x3 : float) (z0 z1 z2 z3 : Z) :
  d !! base = Some x0 → d !! (base + 1)%nat = Some x1 →
  d !! (base + 2)%nat = Some x2 → d !! (base + 3)%nat = Some x3 →
  to_int32 x0 = Some z0 → to_int32 x1 = Some z1 →
  to_int32 x2 = Some z2 → to_int32 x3 = Some z3 →
  (base + 4 <= length o)%nat →
  output_body d base o =
    Some (<[(base + 3)%nat := z3 / 65536]>
            (<[(base + 2)%nat := z2 / 65536]>
               (<[(base + 1)%nat := z1 / 65536]>
                  (<[base := z0 / 65536]> o)))).
Proof.
  intros H0 H1 H2 H3 C0 C1 C2 C3 Hlen.
  pose proof (to_int32_range _ _ C0) as R0. pose proof (to_int32_range _ _ C1) as R1.
  pose proof (to_int32_range _ _ C2) as R2. pose proof (to_int32_range _ _ C3) as R3.
  unfold output_body. rewrite H0, H1, H2, H3. cbn. rewrite C0, C1, C2, C3. cbn.
  unfold store32, store16.
  repeat (rewrite decide_True by (rewrite ?length_insert; lia); cbn).
  rewrite !high_half by done.
  rewrite (proj1 (shifted_fits z0 R0)), (proj1 (shifted_fits z2 R2)).
  replace (base + 2 + 1)%nat with (base + 3)%nat by lia.
  f_equal. apply list_eq. intros i.
  destruct (decide (i = base)) as [->|N0]; [by insert_lookup|].
  destruct (decide (i = (base + 1)%nat)) as [->|N1]; [by insert_lookup|].
  destruct (decide (i = (base + 2)%nat)) as [->|N2]; [by insert_lookup|].
  destruct (decide (i = (base + 3)%nat)) as [->|N3]; [by insert_lookup|].
  by insert_lookup.
Qed.

Lemma output_loop_spec (d : list float) (n : nat) :
  ∀ (base : nat) (o : list Z),
  (base + 4 * n <= length o)%nat →
  (∀ i, (base <= i < base + 4 * n)%nat → ∃ x z, d !! i = Some x ∧ to_int32 x = Some z) →
  ∃ o',
    output_loop n d base o = Some o' ∧
    length o' = length o ∧
    (∀ i x z, (base <= i < base + 4 * n)%nat → d !! i = Some x → to_int32 x = Some z →
              o' !! i = Some (z / 65536)) ∧
    (∀ i, (i < base ∨ base + 4 * n <= i)%nat → o' !! i = o !! i).
Proof.
  induction n as [|n IH]; intros base o Hlen Hconv.
  - exists o. split; [done|]. split; [done|]. split; [intros; lia|done].
  - destruct (Hconv base) as (x0 & z0 & H0 & C0); [lia|].
    destruct (Hconv (base + 1)%nat) as (x1 & z1 & H1 & C1); [lia|].
    destruct (Hconv (base + 2)%nat) as (x2 & z2 & H2 & C2); [lia|].
    destruct (Hconv (base + 3)%nat) as (x3 & z3 & H3 & C3); [lia|].
    cbn [output_loop].
    rewrite (output_body_spec d base o x0 x1 x2 x3 z0 z1 z2 z3) by (done || lia).
    cbn.
    set (o1 := <[(base + 3)%nat := _]> _).
    assert (Hl1 : length o1 = length o) by (unfold o1; by rewrite !length_insert).
    destruct (IH (base + 4)%nat o1) as (o' & Hrun & Hl & Hin & Hout).
    { lia. }
    { intros i Hi. apply Hconv. lia. }
    exists o'. split; [done|]. split; [lia|]. split.
    + intros i x z Hi Hx Hz.
      destruct (decide (base + 4 <= i)%nat) as [Hge|Hlt].
      { apply (Hin i x z); [lia|done|done]. }
      rewrite Hout by lia. unfold o1.
      assert (i = base ∨ i = (base + 1)%nat ∨ i = (base + 2)%nat ∨ i = (base + 3)%nat)
        as [-> | [-> | [-> | ->]]] by lia; insert_lookup; congruence.
    + intros i Hi. rewrite Hout by lia. unfold o1. by insert_lookup.
Qed.

End OutputFacts.

(** The conversion loop of [Sampler::Process] writes the first
    [4 * (SAMPLE_BUFFER_SIZE >> 2)] output cells and no other; each cell,
    whether it is written directly (even index) or through the upper half
    of a 32-bit store (odd index), receives the integer part of its bus
    value shifted right by 16 bits, a value that fits 16 signed bits. *)
Theorem write_output_takes_upper_halves {cfg : Config} (data : list float)
    (output : list Z) :
  let n := (4 * Nat.shiftr SAMPLE_BUFFER_SIZE 2)%nat in
  (n <= length output)%nat →
  (∀ i, (i < n)%nat → ∃ x z, data !! i = Some x ∧ to_int32 x = Some z) →
  ∃ out,
    write_output data output = Some out ∧
    length out = length output ∧
    (∀ i x z, (i < n)%nat → data !! i = Some x → to_int32 x = Some z →
              out !! i = Some (z / 65536) ∧ - 32768 <= z / 65536 <= 32767) ∧
    (∀ i, (n <= i)%nat → out !! i = output !! i) ∧
    (n <= SAMPLE_BUFFER_SIZE < n + 4)%nat.
Proof.
  intros n Hlen Hconv. unfold write_output.
  assert (Hk : (n <= SAMPLE_BUFFER_SIZE < n + 4)%nat).
  { unfold n. rewrite Nat.shiftr_div_pow2. change (2 ^ 2)%nat with 4%nat.
    pose proof (Nat.div_mod_eq SAMPLE_BUFFER_SIZE 4).
    pose proof (Nat.mod_upper_bound SAMPLE_BUFFER_SIZE 4). lia. }
  subst n. set (k := Nat.shiftr SAMPLE_BUFFER_SIZE 2) in *.
  destruct (output_loop_spec data k 0 output) as (out & Hrun & Hl & Hin & Hout).
  { lia. }
  { intros i Hi. apply Hconv. lia. }
  exists out. split; [done|]. split; [done|]. split.
  - intros i x z Hi Hx Hz. split.
    + apply (Hin i x z); [lia|done|done].
    + pose proof (to_int32_range _ _ Hz) as Hr.
      destruct (shifted_fits z Hr) as [_ ?]. lia.
  - split; [|done]. intros i Hi. apply Hout. lia.
Qed.

Section OutputWitness.
#[local] Existing Instance Demo.cfg.

Lemma write_output_takes_upper_halves_witness :
  (8 <= length Bench.out0)%nat ∧
  (∀ i, (i < 8)%nat → ∃ x z, Bench.bus !! i = Some x ∧ to_int32 x = Some z) ∧
  ∃ out,
    write_output Bench.bus Bench.out0 = Some out ∧
    length out = length Bench.out0 ∧
    (∀ i x z, (i < 8)%nat → Bench.bus !! i = Some x → to_int32 x = Some z →
              out !! i = Some (z / 65536) ∧ - 32768 <= z / 65536 <= 32767) ∧
    (∀ i, (8 <= i)%nat → out !! i = Bench.out0 !! i) ∧
    (8 <= SAMPLE_BUFFER_SIZE < 8 + 4)%nat.
Proof.
  assert (H1 : (8 <= length Bench.out0)%nat) by (cbn; lia).
  assert (H2 : ∀ i, (i < 8)%nat →
                    ∃ x z, Bench.bus !! i = Some x ∧ to_int32 x = Some z).
  { intros i Hi. do 8 (destruct i as [|i]; [by eexists _, _|]). lia. }
  split; [exact H1|]. split; [exact H2|].
  exact (write_output_takes_upper_halves (cfg := Demo.cfg) Bench.bus Bench.out0 H1 H2).
Defined.

End OutputWitness.

(** ** The timbre lookup and the envelope *)

Section TimbreFacts.

Lemma covers_test (ms : MappedSample.t) (noteNo velocity : Z) :
  (MappedSample.lowerNoteNo ms <=? noteNo) && (noteNo <=? MappedSample.upperNoteNo ms)
  && (MappedSample.lowerVelocity ms <=? velocity) && (velocity <=? MappedSample.upperVelocity ms)
  = true ↔ covers ms noteNo velocity.
Proof. unfold covers. rewrite !andb_true_iff, !Z.leb_le. tauto. Qed.

End TimbreFacts.

(** [Timbre::GetAppropriateSample] returns the sample of the first region,
    in the order of the timbre's list, whose note range and velocity range
    (both inclusive) contain the note and the velocity; it returns nothing
    exactly when no region contains them. *)
Theorem GetAppropriateSample_first_match (this : Timbre.t) (noteNo velocity : Z) :
  match Timbre.GetAppropriateSample this noteNo velocity with
  | Some s =>
      ∃ i ms, Timbre.samples this !! i = Some ms ∧ covers ms noteNo velocity ∧
              MappedSample.sample ms = s ∧
              ∀ j ms', (j < i)%nat → Timbre.samples this !! j = Some ms' →
                       ¬ covers ms' noteNo velocity
  | None => ∀ ms, ms ∈ Timbre.samples this → ¬ covers ms noteNo velocity
  end.
Proof.
  unfold Timbre.GetAppropriateSample. destruct this as [l]. cbn [Timbre.samples].
  induction l as [|ms l IH]; cbn [Timbre.first_fit].
  - intros ms Hms. by apply elem_of_nil in Hms.
  - pose proof (covers_test ms noteNo velocity) as Ht.
    destruct (_ && _) eqn:Hc.
    + exists 0%nat, ms. split; [done|]. split; [by apply Ht|]. split; [done|].
      intros j ms' Hj. lia.
    + assert (Hn : ¬ covers ms noteNo velocity).
      { intros H. apply Ht in H. congruence. }
      destruct (Timbre.first_fit l noteNo velocity) as [s|].
      * destruct IH as (i & ms1 & Hi & Hcov & Hs & Hfirst).
        exists (S i), ms1. split; [done|]. split; [done|]. split; [done|].
        intros [|j] ms' Hj Hl; cbn in Hl.
        -- by injection Hl as <-.
        -- apply (Hfirst j ms'); [lia|done].
      * intros ms' [->|Hin]%elem_of_cons; [done|by apply IH].
Qed.


Section EnvelopeOrder.
Context {cfg : Config}.

Lemma flt_irrefl (x : float) : flt x x = false.
Proof.
  unfold flt, SFltb.
  destruct x as [[]| [] | |[] m e]; cbn; try done;
    rewrite Z.compare_refl, ?Pos.compare_cont_refl; cbn; done.
Qed.

Lemma flt_fle (x y : float) : flt x y = true → fle x y = true.
Proof. unfold flt, fle, SFltb, SFleb. by destruct (SFcompare x y) as [[]|]. Qed.

End EnvelopeOrder.

Section EnvelopeFrame.
Context {cfg : Config}.

Lemma UpdateGain_frame (p : SamplePlayer.t) :
  let q := SamplePlayer.UpdateGain p in
  (segment_rank (SamplePlayer.adsrState p) <= segment_rank (SamplePlayer.adsrState q))%nat ∧
  (SamplePlayer.playing q = true → SamplePlayer.playing p = true) ∧
  (SamplePlayer.playing p = true → SamplePlayer.playing q = false →
     SamplePlayer.adsrState q = release ∧ SamplePlayer.gain q = zero) ∧
  SamplePlayer.sample q = SamplePlayer.sample p ∧
  SamplePlayer.noteNo q = SamplePlayer.noteNo p ∧
  SamplePlayer.volume q = SamplePlayer.volume p ∧
  SamplePlayer.pitchBend q = SamplePlayer.pitchBend p ∧
  SamplePlayer.channel q = SamplePlayer.channel p ∧
  SamplePlayer.createdAt q = SamplePlayer.createdAt p ∧
  SamplePlayer.pos q = SamplePlayer.pos p ∧
  SamplePlayer.pos_f q = SamplePlayer.pos_f p ∧
  SamplePlayer.released q = SamplePlayer.released p ∧
  SamplePlayer.pitch q = SamplePlayer.pitch p.
Proof.
  destruct p as [smp n v pb c t ps pf pl rl g pi st].
  unfold SamplePlayer.UpdateGain. cbn.
  destruct smp as [s|]; [|cbn; split_and!; (done || lia || congruence)].
  destruct (Sample.adsrEnabled s); cbn;
    [|split_and!; (done || lia || congruence)].
  destruct rl, st; cbn;
    repeat match goal with
           | |- context [if ?b then _ else _] => destruct b; cbn
           end;
    split_and!; (done || lia || congruence).
Qed.

End EnvelopeFrame.

(** [SamplePlayer::UpdateGain] moves the envelope forward only (attack,
    decay, sustain, release, in this order), never starts a voice, and
    touches nothing but [gain], [adsrState] and [playing], over any number
    of calls; a call that stops a voice does so in the release segment
    and leaves the gain at zero. *)
Theorem UpdateGain_never_goes_back {cfg : Config} (p : SamplePlayer.t) (n : nat) :
  let q := Nat.iter n SamplePlayer.UpdateGain p in
  (segment_rank (SamplePlayer.adsrState p) <= segment_rank (SamplePlayer.adsrState q))%nat ∧
  (SamplePlayer.playing q = true → SamplePlayer.playing p = true) ∧
  (SamplePlayer.playing p = true →
   SamplePlayer.playing (SamplePlayer.UpdateGain p) = false →
     SamplePlayer.adsrState (SamplePlayer.UpdateGain p) = release ∧
     SamplePlayer.gain (SamplePlayer.UpdateGain p) = zero) ∧
  SamplePlayer.sample q = SamplePlayer.sample p ∧
  SamplePlayer.noteNo q = SamplePlayer.noteNo p ∧
  SamplePlayer.volume q = SamplePlayer.volume p ∧
  SamplePlayer.pitchBend q = SamplePlayer.pitchBend p ∧
  SamplePlayer.channel q = SamplePlayer.channel p ∧
  SamplePlayer.createdAt q = SamplePlayer.createdAt p ∧
  SamplePlayer.pos q = SamplePlayer.pos p ∧
  SamplePlayer.pos_f q = SamplePlayer.pos_f p ∧
  SamplePlayer.released q = SamplePlayer.released p ∧
  SamplePlayer.pitch q = SamplePlayer.pitch p.
Proof.
  cbn zeta. induction n as [|n IH].
  - destruct (UpdateGain_frame p) as (_ & _ & Hstop & _).
    unfold Nat.iter; cbn [nat_rect]. split_and!; (done || lia).
  - rewrite Nat.iter_succ.
    destruct IH as (Hr & Hpl & Hstop & Hs & Hn & Hv & Hb & Hc & Ht & Hp & Hf & Hrl & Hpi).
    destruct (UpdateGain_frame (Nat.iter n SamplePlayer.UpdateGain p))
      as (Hr' & Hpl' & _ & Hs' & Hn' & Hv' & Hb' & Hc' & Ht' & Hp' & Hf' & Hrl' & Hpi').
    cbn zeta in *. split_and!; try congruence; try lia; auto.
Qed.

(** In the attack segment the gain never ends above the volume of the
    voice: the step adds [attack * volume], and when the sum reaches the
    volume the gain is set to the volume and the segment becomes decay;
    otherwise the segment stays attack. *)
Theorem attack_never_overshoots {cfg : Config} (s : Sample.t) (p : SamplePlayer.t) :
  SamplePlayer.sample p = Some s →
  Sample.adsrEnabled s = true →
  SamplePlayer.released p = false →
  SamplePlayer.adsrState p = attack →
  let q := SamplePlayer.UpdateGain p in
  let sum := fadd (SamplePlayer.gain p) (fmul (Sample.attack s) (SamplePlayer.volume p)) in
  flt (SamplePlayer.volume p) (SamplePlayer.gain q) = false ∧
  (fge sum (SamplePlayer.volume p) = true →
     SamplePlayer.adsrState q = decay ∧ SamplePlayer.gain q = SamplePlayer.volume p) ∧
  (fge sum (SamplePlayer.volume p) = false →
     SamplePlayer.adsrState q = attack ∧ SamplePlayer.gain q = sum) ∧
  SamplePlayer.playing q = SamplePlayer.playing p.
Proof.
  intros Hs Ha Hr Hst.
  destruct p as [smp n v pb c t ps pf pl rl g pi st]. cbn in *. subst.
  unfold SamplePlayer.UpdateGain. cbn. rewrite Ha. cbn.
  destruct (fge (fadd g (fmul (Sample.attack s) v)) v) eqn:Hge; cbn.
  - split; [apply flt_irrefl|]. split; [done|]. split; [done|done].
  - split.
    + destruct (flt v (fadd g (fmul (Sample.attack s) v))) eqn:Hlt; [|done].
      apply flt_fle in Hlt. unfold fge in Hge. unfold fle in Hlt. congruence.
    + split; [done|]. split; [done|done].
Qed.

Section AttackWitness.
#[local] Existing Instance Demo.cfg.

Lemma attack_never_overshoots_witness :
  flt (SamplePlayer.volume Bench.rising)
      (SamplePlayer.gain (SamplePlayer.UpdateGain Bench.rising)) = false ∧
  SamplePlayer.adsrState (SamplePlayer.UpdateGain Bench.rising) = attack ∧
  SamplePlayer.gain (SamplePlayer.UpdateGain Bench.rising) = Demo.half.
Proof.
  destruct (attack_never_overshoots (cfg := Demo.cfg) Bench.pad Bench.rising
              eq_refl eq_refl eq_refl eq_refl) as (Hb & _ & Hstay & _).
  split; [exact Hb|]. exact (Hstay eq_refl).
Defined.

End AttackWitness.

(** ** The kernel and the mixing pass, whatever the voice *)

Section MixingFrame.
Context {cfg : Config}.

Lemma to_uint32_range (x : float) (n : Z) : to_uint32 x = Some n → 0 <= n < 2 ^ 32.
Proof.
  destruct x as [s| | |s m e]; cbn; try done.
  - intros [= <-]. lia.
  - pose proof (trunc_abs_nonneg m e). destruct s.
    + destruct (Z.eqb_spec (trunc_abs m e) 0); [|done]. intros [= <-]. lia.
    + destruct (Z.ltb_spec (trunc_abs m e) (2 ^ 32)); [|done]. intros [= <-]. lia.
Qed.

Lemma kernel_body_inv (mem : Z → Z) (buf buf' : list float) (w w' : Work.t) :
  kernel_body mem buf w = Some (buf', w') →
  (Work.dst w < length buf)%nat ∧
  Work.dst w' = S (Work.dst w) ∧
  length buf' = length buf ∧
  (∀ i, i ≠ Work.dst w → buf' !! i = buf !! i) ∧
  Work.src w <= Work.src w' < Work.src w + 2 ^ 32 ∧
  Work.gain w' = Work.gain w ∧
  Work.pitch w' = Work.pitch w.
Proof.
  unfold kernel_body.
  destruct (buf !! Work.dst w) as [d0|] eqn:Hd; [cbn|done].
  destruct (to_uint32 _) as [intval|] eqn:Hc; [cbn|done].
  intros [= <- <-]. cbn. apply to_uint32_range in Hc.
  split; [by eapply lookup_lt_Some|]. split; [done|].
  split; [by rewrite length_insert|].
  split; [intros i Hi; by apply list_lookup_insert_ne|].
  split; [lia|done].
Qed.

(** What holds of every call of the kernel that returns. *)
Lemma kernel_loop_inv (mem : Z → Z) (n : nat) :
  ∀ (buf buf' : list float) (w w' : Work.t),
  kernel_loop n mem buf w = Some (buf', w') →
  ((0 < n)%nat → (Work.dst w + n <= length buf)%nat) ∧
  Work.dst w' = (Work.dst w + n)%nat ∧
  length buf' = length buf ∧
  (∀ i, (i < Work.dst w ∨ Work.dst w + n <= i)%nat → buf' !! i = buf !! i) ∧
  Work.src w <= Work.src w' <= Work.src w + Z.of_nat n * (2 ^ 32 - 1) ∧
  Work.gain w' = Work.gain w ∧
  Work.pitch w' = Work.pitch w.
Proof.
  induction n as [|n IH]; intros buf buf' w w'.
  - intros [= <- <-]. split_and!; (done || lia).
  - cbn [kernel_loop].
    destruct (kernel_body mem buf w) as [[buf1 w1]|] eqn:Hb; [cbn|done].
    intros Hrun.
    destruct (kernel_body_inv _ _ _ _ _ Hb) as (Hd & Hd1 & Hl1 & Hf1 & Hs1 & Hg1 & Hp1).
    destruct (IH _ _ _ _ Hrun) as (Hd' & Hd2 & Hl2 & Hf2 & Hs2 & Hg2 & Hp2).
    split_and!; try (lia || congruence).
    intros i Hi. rewrite Hf2 by lia. apply Hf1. lia.
Qed.

Lemma mixed_refl (p : SamplePlayer.t) : mixed p p.
Proof. unfold mixed. split_and!; (done || lia). Qed.

Lemma mixed_trans (p q r : SamplePlayer.t) : mixed p q → mixed q r → mixed p r.
Proof.
  unfold mixed. intros (?&?&?&?&?&?&?&?&?&?) (?&?&?&?&?&?&?&?&?&?).
  split_and!; try (congruence || lia). auto.
Qed.

Lemma mixed_UpdateGain (p : SamplePlayer.t) : mixed p (SamplePlayer.UpdateGain p).
Proof.
  destruct (UpdateGain_frame p) as (?&?&?&?&?&?&?&?&?&?&?&?&?).
  unfold mixed. split_and!; done.
Qed.

Lemma mixed_step_player (s : Sample.t) (p : SamplePlayer.t) : mixed p (step_player s p).
Proof.
  unfold step_player. destruct (Sample.adsrEnabled s);
    [apply mixed_UpdateGain|apply mixed_refl].
Qed.

Lemma mixed_set_playing (p : SamplePlayer.t) : mixed p (SamplePlayer.set_playing false p).
Proof. unfold mixed. cbn. split_and!; (done || lia). Qed.

Lemma mixed_set_pos (n : Z) (f : float) (p : SamplePlayer.t) :
  mixed p (SamplePlayer.set_pos n f p).
Proof. unfold mixed. cbn. split_and!; (done || lia). Qed.

(** The ways an envelope step can end. *)
Lemma envelope_step_shape (fuel : nat) (masterVolume : float) (j : nat)
    (p : SamplePlayer.t) (data : list float) (r : Sampler.step_result) :
  Sampler.envelope_step fuel masterVolume j p data = Some r →
  match SamplePlayer.sample p with
  | None => r = Sampler.Break p data
  | Some s =>
      let p1 := step_player s p in
      (SamplePlayer.playing p1 = false ∧ r = Sampler.Break p1 data) ∨
      (SamplePlayer.playing p1 = true ∧
       ∃ data' w',
         sampler_process_inner (Sample.sample s) data (step_work masterVolume j p1)
           (Z.of_nat ADSR_UPDATE_SAMPLE_COUNT) = Some (data', w') ∧
         (r = Sampler.Break (SamplePlayer.set_playing false p1) data' ∨
          ∃ pos, 0 <= pos < 2 ^ 32 ∧
                 r = Sampler.Continue (SamplePlayer.set_pos pos (Work.pos_f w') p1) data'))
  end.
Proof.
  unfold Sampler.envelope_step.
  destruct (SamplePlayer.sample p) as [s|]; [|by intros [= <-]].
  fold (step_player s p). cbn zeta.
  destruct (SamplePlayer.playing (step_player s p)) eqn:Hpl; cbn [negb].
  2:{ intros [= <-]. by left. }
  fold (step_work masterVolume j (step_player s p)).
  destruct (sampler_process_inner _ _ _ _) as [[data' w']|]; [cbn|done].
  intros Hr. right. split; [done|]. exists data', w'. split; [done|].
  pose proof (Z.mod_pos_bound (Work.src w') (2 ^ 32) ltac:(lia)) as Hrange.
  fold (wrap_uint32 (Work.src w')) in Hrange.
  repeat match type of Hr with
         | context [if ?b then _ else _] => destruct b eqn:?
         end;
    try (injection Hr as <-; (by left) || (right; eexists; split; [exact Hrange|done])).
  all: destruct (Sampler.wrap_loop _ _ _ _) as [pos'|] eqn:Hw; [cbn in Hr|done];
    injection Hr as <-; right; exists pos'; split; [|done].
  all: clear -Hw; revert Hw; generalize (wrap_uint32 (Work.src w'));
    induction fuel as [|fuel IH]; intros pos0; [done|]; cbn [Sampler.wrap_loop];
    destruct (_ <=? _); [apply IH|];
    intros [= <-]; unfold wrap_uint32; apply Z.mod_pos_bound; lia.
Qed.

Lemma envelope_step_mixed (fuel : nat) (masterVolume : float) (j : nat)
    (p : SamplePlayer.t) (data : list float) (r : Sampler.step_result) :
  Sampler.envelope_step fuel masterVolume j p data = Some r →
  mixed p (result_player r) ∧
  match r with
  | Sampler.Continue _ data' | Sampler.Break _ data' => length data' = length data
  end.
Proof.
  intros Hr. apply envelope_step_shape in Hr.
  destruct (SamplePlayer.sample p) as [s|]; [|subst r; split; [apply mixed_refl|done]].
  cbn zeta in Hr. pose proof (mixed_step_player s p) as Hm.
  destruct Hr as [[_ ->]|(_ & data' & w' & Hk & Hr)]; [by split|].
  apply kernel_loop_inv in Hk as (_ & _ & Hl & _).
  destruct Hr as [->|(pos & _ & ->)]; cbn; (split; [|done]).
  - eapply mixed_trans; [exact Hm|apply mixed_set_playing].
  - eapply mixed_trans; [exact Hm|apply mixed_set_pos].
Qed.

Lemma mix_steps_mixed (fuel : nat) (masterVolume : float) (n : nat) :
  ∀ (j : nat) (p p' : SamplePlayer.t) (data data' : list float),
  Sampler.mix_steps fuel masterVolume n j p data = Some (p', data') →
  mixed p p' ∧ length data' = length data.
Proof.
  induction n as [|n IH]; intros j p p' data data'.
  - intros [= <- <-]. split; [apply mixed_refl|done].
  - cbn [Sampler.mix_steps].
    destruct (Sampler.envelope_step _ _ _ _ _) as [r|] eqn:Hr; [cbn|done].
    apply envelope_step_mixed in Hr as [Hm Hl].
    destruct r as [p1 d1|p1 d1]; cbn in Hm.
    + intros Hrun. apply IH in Hrun as [Hm' Hl']. split; [|congruence].
      by eapply mixed_trans.
    + by intros [= <- <-].
Qed.

Lemma mix_voice_mixed (fuel : nat) (masterVolume : float)
    (p p' : SamplePlayer.t) (data data' : list float) :
  Sampler.mix_voice fuel masterVolume p data = Some (p', data') →
  mixed p p' ∧ length data' = length data ∧
  (SamplePlayer.playing p = false → p' = p ∧ data' = data).
Proof.
  unfold Sampler.mix_voice. destruct (SamplePlayer.playing p); cbn [negb].
  - intros Hrun. apply mix_steps_mixed in Hrun as [? ?]. done.
  - intros [= <- <-]. split; [apply mixed_refl|done].
Qed.

Lemma mix_players_mixed (fuel : nat) (masterVolume : float) (n : nat) :
  ∀ (i : nat) (players players' : list SamplePlayer.t) (data data' : list float),
  Sampler.mix_players fuel masterVolume n i players data = Some (players', data') →
  length players' = length players ∧
  length data' = length data ∧
  ∀ k p, players !! k = Some p →
    ∃ q, players' !! k = Some q ∧ mixed p q ∧
         (SamplePlayer.playing p = false ∨ (k < i ∨ i + n <= k)%nat → q = p).
Proof.
  induction n as [|n IH]; intros i players players' data data'.
  - intros [= <- <-]. split; [done|]. split; [done|].
    intros k p Hp. exists p. split; [done|]. split; [apply mixed_refl|done].
  - cbn [Sampler.mix_players].
    destruct (players !! i) as [pi|] eqn:Hi; [cbn|done].
    destruct (Sampler.mix_voice _ _ _ _) as [[pi' d1]|] eqn:Hv; [cbn|done].
    intros Hrun. apply mix_voice_mixed in Hv as (Hm & Hl & Hidle).
    apply IH in Hrun as (Hlp & Hld & Hall).
    rewrite length_insert in Hlp.
    assert (Hlt : (i < length players)%nat) by (by eapply lookup_lt_Some).
    split; [done|]. split; [congruence|].
    intros k p Hp. destruct (decide (k = i)) as [->|Hne].
    + assert (p = pi) by congruence. subst p.
      destruct (Hall i pi') as (q & Hq & Hmq & Hsame).
      { by apply list_lookup_insert_eq. }
      assert (q = pi') by (apply Hsame; right; lia). subst q.
      exists pi'. split; [done|]. split; [done|].
      intros [Hpl|Hk]; [by apply Hidle|lia].
    + destruct (Hall k p) as (q & Hq & Hmq & Hsame).
      { by rewrite list_lookup_insert_ne. }
      exists q. split; [done|]. split; [done|].
      intros [Hpl|Hk]; apply Hsame; [by left|right; lia].
Qed.

End MixingFrame.

(** Whenever [sampler_process_inner] returns, for a 32-bit [length], it
    has run [length] times ([2^32] times for [length = 0], the counter
    being decremented before it is tested): the window
    [[dst, dst + iterations)] lies inside the bus and nothing outside it
    was written, the read pointer has not moved back, and [gain] and
    [pitch] of the work record are as they were. *)
Theorem kernel_call_stays_in_window (mem : Z → Z) (buf buf' : list float)
    (w w' : Work.t) (len : Z) :
  0 <= len < 2 ^ 32 →
  sampler_process_inner mem buf w len = Some (buf', w') →
  let n := iterations len in
  (Work.dst w + n <= length buf)%nat ∧
  Work.dst w' = (Work.dst w + n)%nat ∧
  length buf' = length buf ∧
  (∀ i, (i < Work.dst w ∨ Work.dst w + n <= i)%nat → buf' !! i = buf !! i) ∧
  Work.src w <= Work.src w' <= Work.src w + Z.of_nat n * (2 ^ 32 - 1) ∧
  Work.gain w' = Work.gain w ∧
  Work.pitch w' = Work.pitch w ∧
  (0 < len → Z.of_nat n = len) ∧
  (len = 0 → 2 ^ 32 <= Z.of_nat (length buf)).
Proof.
  intros Hlen Hrun. cbn zeta. unfold sampler_process_inner in Hrun.
  apply kernel_loop_inv in Hrun as (Hroom & Hd & Hl & Hf & Hs & Hg & Hp).
  assert (Hn : Z.of_nat (iterations len) = if len =? 0 then 2 ^ 32 else len).
  { unfold iterations. destruct (Z.eqb_spec len 0); lia. }
  assert (Hpos : (0 < iterations len)%nat).
  { destruct (Z.eqb_spec len 0); lia. }
  split_and!; try (done || lia).
  - intros H. destruct (Z.eqb_spec len 0); lia.
  - intros ->. specialize (Hroom Hpos). change (0 =? 0) with true in Hn. lia.
Qed.

Lemma kernel_call_stays_in_window_witness :
  sampler_process_inner (Sample.sample Bench.pad) Demo.bus0 Bench.work 4
    = Some Bench.kernel_result ∧
  (Work.dst Bench.work + 4 <= length Demo.bus0)%nat ∧
  Work.dst (Bench.kernel_result).2 = 8%nat ∧
  Work.src Bench.work <= Work.src (Bench.kernel_result).2 ∧
  (∀ i, (i < 4)%nat → (Bench.kernel_result).1 !! i = Demo.bus0 !! i).
Proof.
  assert (Hrun : sampler_process_inner (Sample.sample Bench.pad) Demo.bus0 Bench.work 4
                 = Some Bench.kernel_result) by reflexivity.
  destruct (kernel_call_stays_in_window (Sample.sample Bench.pad) Demo.bus0
              (Bench.kernel_result).1 Bench.work (Bench.kernel_result).2 4
              ltac:(lia) Hrun) as (Hroom & Hd & _ & Hf & Hs & _).
  split; [exact Hrun|]. split; [exact Hroom|]. split; [exact Hd|].
  split; [exact (proj1 Hs)|]. intros i Hi. apply Hf. left. exact Hi.
Defined.

(** The mixing loop of [Sampler::Process] keeps the pool and the bus at
    their sizes.  Of a voice it changes nothing but the envelope
    ([gain], [adsrState]), the position ([pos], [pos_f]) and [playing]:
    the sample, note, volume, bend, pitch, channel, [createdAt] and
    [released] are kept, no voice is started, the envelope segment never
    moves back, and a voice that was not playing is left as it was. *)
Theorem mixing_changes_envelope_and_position_only {cfg : Config} (fuel : nat)
    (masterVolume : float) (players players' : list SamplePlayer.t)
    (data data' : list float) :
  Sampler.mix_players fuel masterVolume MAX_SOUND 0 players data = Some (players', data') →
  length players' = length players ∧
  length data' = length data ∧
  ∀ k p, players !! k = Some p →
    ∃ q, players' !! k = Some q ∧ mixed p q ∧
         (SamplePlayer.playing p = false → q = p).
Proof.
  intros Hrun. apply mix_players_mixed in Hrun as (Hl & Hd & Hall).
  split; [done|]. split; [done|].
  intros k p Hp. destruct (Hall k p Hp) as (q & Hq & Hm & Hsame).
  exists q. split; [done|]. split; [done|]. intros Hpl. apply Hsame. by left.
Qed.

Section MixingFrameWitness.
#[local] Existing Instance Demo.cfg.

Lemma mixing_changes_envelope_and_position_only_witness :
  Sampler.mix_players 8 Demo.half MAX_SOUND 0 Bench.pool Demo.bus0 = Some Bench.mixed_pool ∧
  length (Bench.mixed_pool).1 = length Bench.pool ∧
  length (Bench.mixed_pool).2 = length Demo.bus0 ∧
  ∀ k p, Bench.pool !! k = Some p →
    ∃ q, (Bench.mixed_pool).1 !! k = Some q ∧ mixed p q ∧
         (SamplePlayer.playing p = false → q = p).
Proof.
  assert (Hrun : Sampler.mix_players 8 Demo.half MAX_SOUND 0 Bench.pool Demo.bus0
                 = Some Bench.mixed_pool) by reflexivity.
  split; [exact Hrun|].
  exact (mixing_changes_envelope_and_position_only (cfg := Demo.cfg) 8 Demo.half
           Bench.pool (Bench.mixed_pool).1 Demo.bus0 (Bench.mixed_pool).2 Hrun).
Defined.

End MixingFrameWitness.

Section QueueFacts.
Context {cfg : Config}.

Lemma NoteOff_loop_length (index : nat) (noteNo : Z) (notes : list PlayingNote.t) :
  ∀ (players : list SamplePlayer.t) notes' players',
  Channel.NoteOff_loop index noteNo notes players = Some (notes', players') →
  length players' = length players.
Proof.
  induction notes as [|itr rest IH]; intros players notes' players'.
  - by intros [= <- <-].
  - cbn [Channel.NoteOff_loop]. destruct (_ =? _).
    + destruct (players !! _) as [player|]; [cbn|done].
      intros Hrun. apply IH in Hrun. rewrite Hrun.
      destruct (_ && _); [by rewrite length_insert|done].
    + destruct (Channel.NoteOff_loop _ _ rest players) as [[r ps]|] eqn:Hr; [cbn|done].
      intros [= <- <-]. by eapply IH.
Qed.

Lemma PitchBend_loop_length (index : nat) (bend : float) (notes : list PlayingNote.t) :
  ∀ (players players' : list SamplePlayer.t),
  Channel.PitchBend_loop index bend notes players = Some players' →
  length players' = length players.
Proof.
  induction notes as [|itr rest IH]; intros players players'.
  - by intros [= <-].
  - cbn [Channel.PitchBend_loop].
    destruct (players !! _) as [player|]; [cbn|done].
    intros Hrun. apply IH in Hrun. rewrite Hrun.
    destruct (_ =? _); [by rewrite length_insert|done].
Qed.

(** A handled message keeps the sizes of the pool and of the channel
    array, the queue and the master volume. *)
Lemma dispatch_shape (m : Message.t) (this this' : Sampler.t) :
  Sampler.dispatch m this = Some this' →
  length (Sampler.players this') = length (Sampler.players this) ∧
  length (Sampler.channels this') = length (Sampler.channels this) ∧
  Sampler.messageQueue this' = Sampler.messageQueue this ∧
  Sampler.masterVolume this' = Sampler.masterVolume this.
Proof.
  unfold Sampler.dispatch.
  destruct (Sampler.channels this !! _) as [ch|]; [cbn|done].
  destruct (Message.status m).
  - destruct (Channel.NoteOn _ _ _ _ _ _) as [[[ch' ps] tk]|] eqn:Hn; [cbn|done].
    intros [= <-]. cbn. rewrite length_insert. split; [|done].
    destruct (Channel.sampler ch) eqn:Ha.
    + rewrite NoteOn_expired in Hn by done. by injection Hn as <- <- <-.
    + apply NoteOn_inv in Hn as (id & tm & _ & _ & _ & -> & _); [|done].
      by rewrite length_insert.
  - destruct (Channel.NoteOff _ _ _ _ _) as [[ch' ps]|] eqn:Hn; [cbn|done].
    intros [= <-]. cbn. rewrite length_insert. split; [|done].
    unfold Channel.NoteOff in Hn. destruct (Channel.sampler ch).
    + by injection Hn as <- <-.
    + destruct (Channel.NoteOff_loop _ _ _ _) as [[ns ps']|] eqn:Hl; [cbn in Hn|done].
      injection Hn as <- <-. by eapply NoteOff_loop_length.
  - destruct (Channel.PitchBend _ _ _ _) as [[ch' ps]|] eqn:Hn; [cbn|done].
    intros [= <-]. cbn. rewrite length_insert. split; [|done].
    unfold Channel.PitchBend in Hn. cbn in Hn. destruct (Channel.sampler ch).
    + by injection Hn as <- <-.
    + destruct (Channel.PitchBend_loop _ _ _ _) as [ps'|] eqn:Hl; [cbn in Hn|done].
      injection Hn as <- <-. by eapply PitchBend_loop_length.
Qed.

Lemma drain_shape (queue : list Message.t) :
  ∀ this this' : Sampler.t,
  Sampler.drain queue this = Some this' →
  length (Sampler.players this') = length (Sampler.players this) ∧
  length (Sampler.channels this') = length (Sampler.channels this) ∧
  Sampler.messageQueue this' = Sampler.messageQueue this ∧
  Sampler.masterVolume this' = Sampler.masterVolume this.
Proof.
  induction queue as [|m rest IH]; intros this this'.
  - by intros [= <-].
  - cbn [Sampler.drain].
    destruct (Sampler.dispatch m this) as [this1|] eqn:Hd; [cbn|done].
    intros Hrun. apply dispatch_shape in Hd as (?&?&?&?).
    apply IH in Hrun as (?&?&?&?). split_and!; congruence.
Qed.

Lemma notes_ok_length (notes : list PlayingNote.t) (ps ps' : list SamplePlayer.t) :
  length ps' = length ps → notes_ok notes ps → notes_ok notes ps'.
Proof. unfold notes_ok. by intros ->. Qed.

(** A message for a channel of a sampler that is set up is handled, and
    the sampler stays set up. *)
Lemma dispatch_ok (m : Message.t) (this : Sampler.t) :
  sampler_ok this →
  message_ok m →
  ∃ this', Sampler.dispatch m this = Some this' ∧ sampler_ok this'.
Proof.
  intros (Hpool & Hch & Hall) Hm. unfold message_ok in Hm.
  unfold Sampler.dispatch.
  set (index := Z.to_nat (Message.channel m)).
  assert (Hidx : (index < length (Sampler.channels this))%nat) by (unfold index; lia).
  destruct (lookup_lt_is_Some_2 _ _ Hidx) as [ch Hc]. rewrite Hc. cbn.
  pose proof (proj1 (Forall_lookup _ _) Hall index ch Hc) as [[tm Htm] Hnotes].
  assert (Hkeep : ∀ (ch' : Channel.t) (ps' : list SamplePlayer.t) (tick : Z),
            length ps' = length (Sampler.players this) →
            Channel.timbre ch' = Channel.timbre ch →
            notes_ok (Channel.playingNotes ch') ps' →
            sampler_ok {| Sampler.players := ps';
                          Sampler.channels := <[index := ch']> (Sampler.channels this);
                          Sampler.messageQueue := Sampler.messageQueue this;
                          Sampler.masterVolume := Sampler.masterVolume this;
                          Sampler.nextTick := tick |}).
  { intros ch' ps' tick Hl Ht Hn. unfold sampler_ok. cbn.
    split; [destruct Hpool; split; [congruence|done]|].
    split; [by rewrite length_insert|].
    apply Forall_insert.
    - eapply Forall_impl; [exact Hall|]. intros c [? ?]. split; [done|].
      by eapply notes_ok_length.
    - split; [rewrite Ht, Htm; by eexists|done]. }
  destruct (Message.status m).
  - destruct (Channel.sampler ch) eqn:Ha.
    + rewrite NoteOn_expired by done. cbn. eexists. split; [done|]. by apply Hkeep.
    + destruct (NoteOn_alive index (Message.noteNo m) (Message.velocity m)
                  (Sampler.nextTick this) ch (Sampler.players this) tm Ha Htm Hpool)
        as (id & -> & Hid & _).
      cbn. eexists. split; [done|]. apply Hkeep.
      * by rewrite length_insert.
      * done.
      * cbn. unfold notes_ok in *. rewrite length_insert. apply Forall_app.
        split; [done|]. repeat constructor. cbn. destruct Hpool. lia.
  - destruct (Channel.sampler ch) eqn:Ha.
    + rewrite NoteOff_expired by done. cbn. eexists. split; [done|]. by apply Hkeep.
    + unfold Channel.NoteOff. rewrite Ha, (NoteOff_loop_spec _ _ _ _ Hnotes). cbn.
      eexists. split; [done|]. apply Hkeep.
      * by rewrite length_imap.
      * done.
      * cbn. unfold notes_ok, kept_notes in *. rewrite length_imap.
        apply Forall_forall. intros e [_ He]%list_elem_of_filter.
        rewrite Forall_forall in Hnotes. by apply Hnotes.
  - destruct (Channel.sampler ch) eqn:Ha.
    + rewrite PitchBend_expired by done. cbn. eexists. split; [done|]. by apply Hkeep.
    + rewrite PitchBend_alive by done. cbn. eexists. split; [done|]. apply Hkeep.
      * by rewrite length_imap.
      * done.
      * cbn. unfold notes_ok in *. by rewrite length_imap.
Qed.

Lemma drain_ok (queue : list Message.t) :
  ∀ this : Sampler.t,
  sampler_ok this →
  Forall message_ok queue →
  ∃ this', Sampler.drain queue this = Some this' ∧ sampler_ok this'.
Proof.
  induction queue as [|m rest IH]; intros this Hok Hq.
  - by exists this.
  - apply Forall_cons in Hq as [Hm Hq].
    destruct (dispatch_ok m this Hok Hm) as (this1 & Hd & Hok1).
    destruct (IH this1 Hok1 Hq) as (this' & Hrun & Hok').
    exists this'. split; [|done]. cbn [Sampler.drain]. by rewrite Hd.
Qed.

(** The producers queue messages for channels of the sampler only, and
    touch nothing but the queue. *)
Lemma send_ok (this : Sampler.t) (e : event) :
  (0 < CH_COUNT)%nat →
  event_ok e →
  Forall message_ok (Sampler.messageQueue this) →
  Forall message_ok (Sampler.messageQueue (send this e)) ∧
  Sampler.players (send this e) = Sampler.players this ∧
  Sampler.channels (send this e) = Sampler.channels this ∧
  Sampler.masterVolume (send this e) = Sampler.masterVolume this.
Proof.
  intros Hch He Hq.
  destruct e as [n v c|n v c|b c]; cbn in He |- *.
  - split; [|done]. apply Forall_app. split; [done|]. constructor; [|constructor].
    unfold message_ok. cbn. destruct (Z.leb_spec (Z.of_nat CH_COUNT) c); lia.
  - split; [|done]. apply Forall_app. split; [done|]. constructor; [|constructor].
    unfold message_ok. cbn. destruct (Z.leb_spec (Z.of_nat CH_COUNT) c); lia.
  - unfold Sampler.PitchBend. destruct (Z.leb_spec (Z.of_nat CH_COUNT) c); [done|].
    cbn. split; [|done]. apply Forall_app. split; [done|]. constructor; [|constructor].
    unfold message_ok. cbn. lia.
Qed.

Lemma sends_ok (events : list event) :
  ∀ this : Sampler.t,
  (0 < CH_COUNT)%nat →
  Forall event_ok events →
  Forall message_ok (Sampler.messageQueue this) →
  Forall message_ok (Sampler.messageQueue (foldl send this events)) ∧
  Sampler.players (foldl send this events) = Sampler.players this ∧
  Sampler.channels (foldl send this events) = Sampler.channels this ∧
  Sampler.masterVolume (foldl send this events) = Sampler.masterVolume this.
Proof.
  induction events as [|e rest IH]; intros this Hch He Hq; [done|].
  apply Forall_cons in He as [He Hrest]. cbn [foldl].
  destruct (send_ok this e Hch He Hq) as (Hq1 & Hp1 & Hc1 & Hv1).
  destruct (IH (send this e) Hch Hrest Hq1) as (Hq2 & Hp2 & Hc2 & Hv2).
  split_and!; congruence.
Qed.

End QueueFacts.

(** Whenever [Sampler::Process] returns, the mix bus has
    [SAMPLE_BUFFER_SIZE] samples, the pool and the channel array have the
    sizes they had, the message queue is empty and the master volume is
    unchanged. *)
Theorem Process_keeps_sizes {cfg : Config} (fuel : nat) (this this' : Sampler.t)
    (data : list float) :
  Sampler.Process fuel this = Some (this', data) →
  length data = SAMPLE_BUFFER_SIZE ∧
  length (Sampler.players this') = length (Sampler.players this) ∧
  length (Sampler.channels this') = length (Sampler.channels this) ∧
  Sampler.messageQueue this' = [] ∧
  Sampler.masterVolume this' = Sampler.masterVolume this.
Proof.
  unfold Sampler.Process.
  destruct (Sampler.drain _ _) as [this1|] eqn:Hd; [cbn|done].
  destruct (Sampler.mix_players _ _ _ _ _ _) as [[ps d]|] eqn:Hm; [cbn|done].
  intros [= <- <-]. cbn.
  apply drain_shape in Hd as (Hp & Hc & _ & Hv).
  apply mix_players_mixed in Hm as (Hl & Hdl & _).
  rewrite length_replicate in Hdl. split_and!; congruence.
Qed.

Section SizesWitness.
#[local] Existing Instance Demo.cfg.

Lemma Process_keeps_sizes_witness :
  Sampler.Process 8 Bench.sampler = Some Bench.processed ∧
  length (Bench.processed).2 = SAMPLE_BUFFER_SIZE ∧
  length (Sampler.players (Bench.processed).1) = length (Sampler.players Bench.sampler) ∧
  length (Sampler.channels (Bench.processed).1) = length (Sampler.channels Bench.sampler) ∧
  Sampler.messageQueue (Bench.processed).1 = [] ∧
  Sampler.masterVolume (Bench.processed).1 = Sampler.masterVolume Bench.sampler.
Proof.
  assert (Hrun : Sampler.Process 8 Bench.sampler = Some Bench.processed) by reflexivity.
  split; [exact Hrun|].
  exact (Process_keeps_sizes (cfg := Demo.cfg) 8 Bench.sampler (Bench.processed).1
           (Bench.processed).2 Hrun).
Defined.

End SizesWitness.

(** On a sampler that is set up (pool and channel array of their declared
    sizes, a timbre on every channel, every entry of [playingNotes]
    inside the pool), whatever calls of [Sampler::NoteOn],
    [Sampler::NoteOff] and [Sampler::PitchBend] the producers make, the
    calls change nothing but the queue, and the message loop of
    [Sampler::Process] handles every queued message without an access
    outside the channel array or the pool, leaving the sampler set up. *)
Theorem sent_events_are_handled {cfg : Config} (this : Sampler.t)
    (events : list event) :
  sampler_ok this →
  (0 < CH_COUNT)%nat →
  Sampler.messageQueue this = [] →
  Forall event_ok events →
  let queued := foldl send this events in
  Sampler.players queued = Sampler.players this ∧
  Sampler.channels queued = Sampler.channels this ∧
  (length (Sampler.messageQueue queued) <= length events)%nat ∧
  ∃ this', Sampler.drain (Sampler.messageQueue queued) queued = Some this' ∧
           sampler_ok this'.
Proof.
  intros Hok Hch Hq He. cbn zeta.
  destruct (sends_ok events this Hch He) as (Hq' & Hp & Hc & _).
  { rewrite Hq. constructor. }
  split; [done|]. split; [done|]. split.
  - clear -Hq. assert (Hgen : ∀ evs st,
      (length (Sampler.messageQueue (foldl send st evs))
       <= length (Sampler.messageQueue st) + length evs)%nat).
    { induction evs as [|e rest IH]; intros st; cbn [foldl length]; [lia|].
      etrans; [apply IH|].
      assert ((length (Sampler.messageQueue (send st e))
               <= S (length (Sampler.messageQueue st)))%nat); [|lia].
      destruct e as [n v c|n v c|b c]; cbn; rewrite ?length_app; cbn; try lia.
      unfold Sampler.PitchBend. destruct (_ <=? _); cbn; rewrite ?length_app; cbn; lia. }
    specialize (Hgen events this). rewrite Hq in Hgen. cbn in Hgen. lia.
  - apply drain_ok; [|done].
    unfold sampler_ok in *. by rewrite Hp, Hc.
Qed.

Section EventsWitness.
#[local] Existing Instance Demo.cfg.

Lemma sent_events_are_handled_witness :
  sampler_ok Demo.idle_sampler ∧
  Forall event_ok Bench.events ∧
  Sampler.players (foldl send Demo.idle_sampler Bench.events)
    = Sampler.players Demo.idle_sampler ∧
  Sampler.channels (foldl send Demo.idle_sampler Bench.events)
    = Sampler.channels Demo.idle_sampler ∧
  (length (Sampler.messageQueue (foldl send Demo.idle_sampler Bench.events))
   <= length Bench.events)%nat ∧
  ∃ this',
    Sampler.drain (Sampler.messageQueue (foldl send Demo.idle_sampler Bench.events))
      (foldl send Demo.idle_sampler Bench.events) = Some this' ∧
    sampler_ok this'.
Proof.
  assert (Hok : sampler_ok Demo.idle_sampler).
  { split; [split; [reflexivity|cbn; lia]|]. split; [reflexivity|].
    repeat constructor. by eexists. }
  assert (Hev : Forall event_ok Bench.events).
  { repeat constructor; cbn; lia. }
  split; [exact Hok|]. split; [exact Hev|].
  exact (sent_events_are_handled (cfg := Demo.cfg) Demo.idle_sampler Bench.events Hok
           ltac:(cbn; lia) eq_refl Hev).
Defined.

End EventsWitness.

(** ** The mixing pass on well-formed voices *)

Section MixingDefined.
Context {cfg : Config}.

Lemma iterations_of_nat (n : nat) : (0 < n)%nat → iterations (Z.of_nat n) = n.
Proof. intros H. unfold iterations. destruct (Z.eqb_spec (Z.of_nat n) 0); lia. Qed.

Lemma step_player_fields (s : Sample.t) (p : SamplePlayer.t) :
  SamplePlayer.sample (step_player s p) = SamplePlayer.sample p ∧
  SamplePlayer.pos_f (step_player s p) = SamplePlayer.pos_f p ∧
  SamplePlayer.pitch (step_player s p) = SamplePlayer.pitch p ∧
  SamplePlayer.pos (step_player s p) = SamplePlayer.pos p.
Proof.
  unfold step_player. destruct (Sample.adsrEnabled s); [|done].
  destruct (UpdateGain_frame p) as (?&?&?&?&?&?&?&?&?&?&?&?&?). done.
Qed.

(** An envelope step of a well-formed playing voice is defined, given
    room in the bus and fuel for the wrap loop. *)
Lemma envelope_step_defined (fuel : nat) (masterVolume : float) (j : nat)
    (p : SamplePlayer.t) (data : list float) :
  voice_ok p →
  SamplePlayer.playing p = true →
  (0 < ADSR_UPDATE_SAMPLE_COUNT)%nat →
  (j * ADSR_UPDATE_SAMPLE_COUNT + ADSR_UPDATE_SAMPLE_COUNT <= length data)%nat →
  2 ^ 32 <= Z.of_nat fuel →
  ∃ r, Sampler.envelope_step fuel masterVolume j p data = Some r ∧
       voice_ok (result_player r) ∧
       match r with
       | Sampler.Continue q data' =>
           SamplePlayer.playing q = true ∧ length data' = length data
       | Sampler.Break _ data' => length data' = length data
       end.
Proof.
  intros Hok Hplay Hpos Hroom Hfuel.
  destruct (SamplePlayer.sample p) as [s|] eqn:Hs.
  2:{ exists (Sampler.Break p data). unfold Sampler.envelope_step. rewrite Hs.
      split; [done|]. split; [done|done]. }
  destruct (Hok Hplay s Hs) as (Hloop & Hfrac & Hpitch).
  destruct (step_player_fields s p) as (Hs1 & Hf1 & Hp1 & _).
  destruct (SamplePlayer.playing (step_player s p)) eqn:Hpl1.
  2:{ exists (Sampler.Break (step_player s p) data).
      unfold Sampler.envelope_step. rewrite Hs. fold (step_player s p).
      rewrite Hpl1. cbn. split; [done|]. split; [|done].
      intros H. cbn in H. congruence. }
  destruct (kernel_loop_spec (Sample.sample s) ADSR_UPDATE_SAMPLE_COUNT data
              (step_work masterVolume j (step_player s p)))
    as (data' & w' & Hk & _ & Hfrac' & _ & _ & _ & Hl & _).
  { cbn. by rewrite Hf1. }
  { cbn. by rewrite Hp1. }
  { cbn. lia. }
  assert (Hrun : sampler_process_inner (Sample.sample s) data
                   (step_work masterVolume j (step_player s p))
                   (Z.of_nat ADSR_UPDATE_SAMPLE_COUNT) = Some (data', w')).
  { unfold sampler_process_inner. by rewrite iterations_of_nat. }
  rewrite (envelope_step_run fuel masterVolume j p s data data' w' Hs Hpl1 Hrun Hloop).
  cbn zeta.
  assert (Hcont : ∀ n, voice_ok (SamplePlayer.set_pos n (Work.pos_f w') (step_player s p))).
  { intros n _ s' Hs'. cbn in Hs'. rewrite Hs1, Hs in Hs'. injection Hs' as <-.
    cbn. rewrite Hp1. done. }
  pose proof (wrap_uint32_range (Work.src w')) as Hrange.
  destruct Hloop as [Hle Hlb].
  destruct (Z.leb_spec (loop_end s) (wrap_uint32 (Work.src w'))) as [Hend|Hin].
  - destruct (Z.eqb_spec (loop_back s) 0) as [Hz|Hnz].
    + eexists. split; [done|]. split; [|done]. intros H. cbn in H. done.
    + destruct (wrap_loop_spec fuel (loop_back s) (loop_end s) (wrap_uint32 (Work.src w')))
        as (k & _ & -> & _); try lia.
      cbn. eexists. split; [done|]. split; [apply Hcont|]. done.
  - eexists. split; [done|]. split; [apply Hcont|]. done.
Qed.

Lemma mix_steps_defined (fuel : nat) (masterVolume : float) (n : nat) :
  ∀ (j : nat) (p : SamplePlayer.t) (data : list float),
  voice_ok p →
  SamplePlayer.playing p = true →
  ((0 < n)%nat → (0 < ADSR_UPDATE_SAMPLE_COUNT)%nat) →
  ((j + n) * ADSR_UPDATE_SAMPLE_COUNT <= length data)%nat →
  2 ^ 32 <= Z.of_nat fuel →
  ∃ p' data', Sampler.mix_steps fuel masterVolume n j p data = Some (p', data') ∧
              voice_ok p' ∧ length data' = length data.
Proof.
  induction n as [|n IH]; intros j p data Hok Hplay Hpos Hroom Hfuel.
  - by exists p, data.
  - destruct (envelope_step_defined fuel masterVolume j p data) as (r & Hr & Hok' & Hres);
      try done; try lia.
    cbn [Sampler.mix_steps]. rewrite Hr. cbn.
    destruct r as [q d|q d]; cbn in Hok'.
    + destruct Hres as [Hq Hl].
      destruct (IH (S j) q d) as (p' & data' & Hrun & Hok'' & Hl'); try done; try lia.
      exists p', data'. split; [done|]. split; [done|congruence].
    + by exists q, d.
Qed.

Lemma mix_voice_defined (fuel : nat) (masterVolume : float)
    (p : SamplePlayer.t) (data : list float) :
  voice_ok p →
  length data = SAMPLE_BUFFER_SIZE →
  2 ^ 32 <= Z.of_nat fuel →
  ∃ p' data', Sampler.mix_voice fuel masterVolume p data = Some (p', data') ∧
              voice_ok p' ∧ length data' = length data.
Proof.
  intros Hok Hl Hfuel. unfold Sampler.mix_voice.
  destruct (SamplePlayer.playing p) eqn:Hpl; cbn [negb]; [|by exists p, data].
  apply mix_steps_defined; try done.
  - intros Hn. destruct ADSR_UPDATE_SAMPLE_COUNT; [cbn in Hn|]; lia.
  - rewrite Hl. cbn. rewrite Nat.mul_comm. apply Nat.Div0.mul_div_le.
Qed.

Lemma mix_players_defined (fuel : nat) (masterVolume : float) (n : nat) :
  ∀ (i : nat) (players : list SamplePlayer.t) (data : list float),
  (i + n <= length players)%nat →
  Forall voice_ok players →
  length data = SAMPLE_BUFFER_SIZE →
  2 ^ 32 <= Z.of_nat fuel →
  ∃ players' data',
    Sampler.mix_players fuel masterVolume n i players data = Some (players', data') ∧
    Forall voice_ok players' ∧ length data' = SAMPLE_BUFFER_SIZE.
Proof.
  induction n as [|n IH]; intros i players data Hlen Hok Hl Hfuel.
  - by exists players, data.
  - destruct (lookup_lt_is_Some_2 players i) as [p Hp]; [lia|].
    pose proof (proj1 (Forall_lookup _ _) Hok i p Hp) as Hokp.
    destruct (mix_voice_defined fuel masterVolume p data Hokp Hl Hfuel)
      as (p' & d1 & Hv & Hok' & Hl1).
    destruct (IH (S i) (<[i := p']> players) d1) as (players' & data' & Hrun & Hall & Hl');
      try done.
    { rewrite length_insert. lia. }
    { by apply Forall_insert. }
    { congruence. }
    exists players', data'. split; [|done].
    cbn [Sampler.mix_players]. rewrite Hp. cbn. rewrite Hv. cbn. done.
Qed.

End MixingDefined.

(** ** Sequences of calls *)

Section ComposeFacts.
Context {cfg : Config}.

Lemma UpdateGain_sustain (s : Sample.t) (p : SamplePlayer.t) :
  SamplePlayer.sample p = Some s →
  Sample.adsrEnabled s = true →
  SamplePlayer.released p = false →
  SamplePlayer.adsrState p = sustain →
  SamplePlayer.UpdateGain p = p.
Proof.
  intros Hs Ha Hr Hst. unfold SamplePlayer.UpdateGain.
  rewrite Hs, Ha, Hr. cbn. by rewrite Hst.
Qed.

Lemma mix_steps_sustained (s : Sample.t) (fuel : nat) (masterVolume : float) (n : nat) :
  ∀ (j : nat) (p p' : SamplePlayer.t) (data data' : list float),
  SamplePlayer.sample p = Some s →
  Sample.adsrEnabled s = true →
  SamplePlayer.released p = false →
  SamplePlayer.adsrState p = sustain →
  Sampler.mix_steps fuel masterVolume n j p data = Some (p', data') →
  SamplePlayer.gain p' = SamplePlayer.gain p ∧
  SamplePlayer.adsrState p' = sustain ∧
  SamplePlayer.released p' = false.
Proof.
  induction n as [|n IH]; intros j p p' data data' Hs Ha Hr Hst.
  - by intros [= <- <-].
  - cbn [Sampler.mix_steps].
    destruct (Sampler.envelope_step _ _ _ _ _) as [r|] eqn:Hstep; [cbn|done].
    apply envelope_step_shape in Hstep. rewrite Hs in Hstep. cbn zeta in Hstep.
    unfold step_player in Hstep. rewrite Ha, (UpdateGain_sustain s p Hs Ha Hr Hst) in Hstep.
    destruct Hstep as [[_ ->]|(_ & d1 & w1 & _ & [->|(pos & _ & ->)])].
    + by intros [= <- <-].
    + by intros [= <- <-].
    + intros Hrun. by apply IH in Hrun.
Qed.

End ComposeFacts.

(** A held voice in the sustain segment keeps its gain: over a whole
    buffer of [Sampler::Process], however many envelope steps it takes and
    whether or not the voice ends, the gain, the segment and the released
    flag are what they were. *)
Theorem sustained_voice_keeps_gain {cfg : Config} (s : Sample.t) (fuel : nat)
    (masterVolume : float) (p p' : SamplePlayer.t) (data data' : list float) :
  SamplePlayer.sample p = Some s →
  Sample.adsrEnabled s = true →
  SamplePlayer.released p = false →
  SamplePlayer.adsrState p = sustain →
  Sampler.mix_voice fuel masterVolume p data = Some (p', data') →
  SamplePlayer.gain p' = SamplePlayer.gain p ∧
  SamplePlayer.adsrState p' = sustain ∧
  SamplePlayer.released p' = false.
Proof.
  intros Hs Ha Hr Hst. unfold Sampler.mix_voice.
  destruct (SamplePlayer.playing p); cbn [negb].
  - by apply (mix_steps_sustained s).
  - by intros [= <- <-].
Qed.

Section SustainWitness.
#[local] Existing Instance Demo.cfg.

Lemma sustained_voice_keeps_gain_witness :
  Sampler.mix_voice 8 Demo.half Bench.held Demo.bus0 = Some Bench.mixed_held ∧
  SamplePlayer.gain (Bench.mixed_held).1 = SamplePlayer.gain Bench.held ∧
  SamplePlayer.adsrState (Bench.mixed_held).1 = sustain ∧
  SamplePlayer.released (Bench.mixed_held).1 = false.
Proof.
  assert (Hrun : Sampler.mix_voice 8 Demo.half Bench.held Demo.bus0
                 = Some Bench.mixed_held) by reflexivity.
  split; [exact Hrun|].
  exact (sustained_voice_keeps_gain (cfg := Demo.cfg) Bench.pad 8 Demo.half Bench.held
           (Bench.mixed_held).1 Demo.bus0 (Bench.mixed_held).2
           eq_refl eq_refl eq_refl eq_refl Hrun).
Defined.

End SustainWitness.

(** A sample with ADSR whose [loopEnd] is 0 and whose [loopStart] is not:
    the unsigned position is never below [loopEnd], so the wrap loop
    [do pos += loopBack; while (pos >= loopEnd)] has no exit, whatever the
    position, and no envelope step of a playing voice of that sample
    returns. *)
Theorem zero_loopEnd_never_leaves_wrap_loop {cfg : Config} (s : Sample.t)
    (p : SamplePlayer.t) :
  SamplePlayer.sample p = Some s →
  Sample.adsrEnabled s = true →
  Sample.loopEnd s = 0 →
  0 < Sample.loopStart s < 2 ^ 31 →
  SamplePlayer.playing (SamplePlayer.UpdateGain p) = true →
  (∀ fuel pos, Sampler.wrap_loop fuel pos (Sample.loopStart s) 0 = None) ∧
  ∀ fuel masterVolume j data,
    Sampler.envelope_step fuel masterVolume j p data = None.
Proof.
  intros Hs Ha Hle Hst Hpl.
  assert (Hloop : ∀ fuel pos, Sampler.wrap_loop fuel pos (Sample.loopStart s) 0 = None).
  { induction fuel as [|fuel IH]; intros pos; [done|]. cbn [Sampler.wrap_loop].
    change (wrap_uint32 0) with 0.
    destruct (Z.leb_spec 0 (wrap_uint32 (pos + Sample.loopStart s))) as [_|Hneg];
      [apply IH|].
    pose proof (Z.mod_pos_bound (pos + Sample.loopStart s) (2 ^ 32) ltac:(lia)).
    unfold wrap_uint32 in Hneg. lia. }
  split; [done|]. intros fuel mv j data.
  unfold Sampler.envelope_step. rewrite Hs, Ha, Hpl. cbn [negb].
  destruct (sampler_process_inner _ _ _ _) as [[data' w']|]; [cbn|done].
  rewrite Hle. change (wrap_int32 0) with 0. change (wrap_uint32 0) with 0.
  rewrite Z.sub_0_r.
  assert (Hw : wrap_int32 (Sample.loopStart s) = Sample.loopStart s).
  { unfold wrap_int32. rewrite Z.mod_small; lia. }
  rewrite Hw.
  destruct (Z.leb_spec 0 (wrap_uint32 (Work.src w'))) as [_|Hneg].
  - destruct (Z.eqb_spec (Sample.loopStart s) 0); [lia|]. by rewrite Hloop.
  - pose proof (Z.mod_pos_bound (Work.src w') (2 ^ 32) ltac:(lia)).
    unfold wrap_uint32 in Hneg. lia.
Qed.

Section WrapWitness.
#[local] Existing Instance Demo.cfg.

Lemma zero_loopEnd_never_leaves_wrap_loop_witness :
  SamplePlayer.playing (SamplePlayer.UpdateGain Bench.stuck) = true ∧
  (∀ fuel pos, Sampler.wrap_loop fuel pos (Sample.loopStart Bench.unlooped) 0 = None) ∧
  ∀ fuel masterVolume j data,
    Sampler.envelope_step fuel masterVolume j Bench.stuck data = None.
Proof.
  split; [reflexivity|].
  exact (zero_loopEnd_never_leaves_wrap_loop (cfg := Demo.cfg) Bench.unlooped Bench.stuck
           eq_refl eq_refl eq_refl ltac:(cbn; lia) eq_refl).
Defined.

End WrapWitness.


Section RoundTrips.
Context {cfg : Config}.

Lemma kept_notes_app (noteNo : Z) (l1 l2 : list PlayingNote.t) :
  kept_notes noteNo (l1 ++ l2) = kept_notes noteNo l1 ++ kept_notes noteNo l2.
Proof. unfold kept_notes. apply filter_app. Qed.

Lemma kept_notes_id (noteNo : Z) (l : list PlayingNote.t) :
  (∀ e, e ∈ l → PlayingNote.noteNo e ≠ noteNo) → kept_notes noteNo l = l.
Proof.
  intros H. unfold kept_notes. induction l as [|e l IH]; [done|].
  rewrite filter_cons, decide_True by (apply H; left).
  f_equal. apply IH. intros e' He'. apply H. by right.
Qed.

End RoundTrips.

(** A note-on followed by the note-off of the same note on the same
    channel: the voice the note-on wrote carries the note and is
    released ([released = true], nothing else of it changed), and the
    channel is left with the entries it had for other
    notes, none for this one.  If the channel had no entry for the note
    before, its entries are exactly what they were and no other voice was
    touched. *)
Theorem NoteOn_then_NoteOff_releases_the_voice {cfg : Config} (index : nat)
    (noteNo velocity offVelocity tick : Z) (this : Channel.t)
    (players : list SamplePlayer.t) (tm : Timbre.t) :
  Channel.sampler this = Alive →
  Channel.timbre this = Some tm →
  pool_ok players →
  notes_ok (Channel.playingNotes this) players →
  ∃ (id : nat) (this1 this2 : Channel.t) (players1 players2 : list SamplePlayer.t)
    (v : SamplePlayer.t),
    Channel.NoteOn index noteNo velocity this players tick = Some (this1, players1, tick + 1) ∧
    Channel.NoteOff index noteNo offVelocity this1 players1 = Some (this2, players2) ∧
    Channel.playingNotes this2 = kept_notes noteNo (Channel.playingNotes this) ∧
    (∀ e, e ∈ Channel.playingNotes this2 → PlayingNote.noteNo e ≠ noteNo) ∧
    players1 !! id = Some v ∧
    players2 !! id = Some (SamplePlayer.set_released true v) ∧
    (∃ v2, players2 !! id = Some v2 ∧ SamplePlayer.released v2 = true ∧
           same_but_released v v2) ∧
    SamplePlayer.noteNo v = noteNo ∧
    SamplePlayer.sample v = Timbre.GetAppropriateSample tm noteNo velocity ∧
    ((∀ e, e ∈ Channel.playingNotes this → PlayingNote.noteNo e ≠ noteNo) →
       Channel.playingNotes this2 = Channel.playingNotes this ∧
       ∀ k, k ≠ id → players2 !! k = players !! k).
Proof.
  intros Ha Htm Hpool Hok.
  destruct (NoteOn_alive index noteNo velocity tick this players tm Ha Htm Hpool)
    as (id & Hon & Hid & _).
  set (v := SamplePlayer.new (Timbre.GetAppropriateSample tm noteNo velocity) noteNo
              (velocityTable velocity) (Channel.pitchBend this)
              (Channel.channelIndex index) tick) in *.
  set (e0 := {| PlayingNote.noteNo := noteNo; PlayingNote.playerId := id |}) in *.
  set (notes1 := Channel.playingNotes this ++ [e0]) in *.
  set (players1 := <[id := v]> players) in *.
  destruct (new_fields (Timbre.GetAppropriateSample tm noteNo velocity) noteNo
              (velocityTable velocity) (Channel.pitchBend this)
              (Channel.channelIndex index) tick) as (Hvs & Hvn & _ & _ & Hvc & _).
  fold v in Hvs, Hvn, Hvc.
  assert (Hlen : (id < length players)%nat) by (destruct Hpool; lia).
  assert (Hok1 : notes_ok notes1 players1).
  { unfold notes_ok, notes1, players1 in *. rewrite length_insert.
    apply Forall_app. split; [done|]. by repeat constructor. }
  assert (Hv1 : players1 !! id = Some v) by (by apply list_lookup_insert_eq).
  assert (Hkept : kept_notes noteNo notes1 = kept_notes noteNo (Channel.playingNotes this)).
  { unfold notes1. rewrite kept_notes_app. unfold kept_notes at 2.
    rewrite filter_cons, decide_False by (intros H; by apply H).
    rewrite filter_nil. apply app_nil_r. }
  eexists id, _, _, players1, _, v.
  split; [exact Hon|]. split.
  { unfold Channel.NoteOff. cbn. rewrite Ha.
    rewrite (NoteOff_loop_spec index noteNo notes1 players1 Hok1). cbn. reflexivity. }
  cbn. split; [done|]. split.
  { intros e. rewrite Hkept. unfold kept_notes. rewrite list_elem_of_filter. tauto. }
  split; [done|].
  assert (Hv2 : imap (λ i p, if released_by index noteNo notes1 i p
                             then SamplePlayer.set_released true p else p) players1 !! id
                = Some (SamplePlayer.set_released true v)).
  { rewrite list_lookup_imap, Hv1. cbn.
    assert (Hrel : released_by index noteNo notes1 id v = true).
    { apply released_by_true. split; [|done]. exists e0. split; [|done].
      unfold notes1. apply elem_of_app. right. by left. }
    by rewrite Hrel. }
  split; [exact Hv2|]. split.
  { eexists. split; [exact Hv2|]. split; [done|]. by repeat split. }
  split; [done|]. split; [done|].
  intros Hfresh. split.
  { rewrite Hkept. by apply kept_notes_id. }
  intros k Hk. rewrite list_lookup_imap. unfold players1.
  rewrite list_lookup_insert_ne by done.
  destruct (players !! k) as [q|]; [cbn|done].
  destruct (released_by index noteNo notes1 k q) eqn:Hrel; [|done].
  apply released_by_true in Hrel as [(e & He & Hn & Hi) _].
  unfold notes1 in He. apply elem_of_app in He as [He|He].
  - by destruct (Hfresh e He).
  - apply list_elem_of_singleton in He. subst e. cbn in Hi. congruence.
Qed.

Section OnOffWitness.
#[local] Existing Instance Demo.cfg.

Lemma NoteOn_then_NoteOff_releases_the_voice_witness :
  pool_ok Demo.pool0 ∧
  notes_ok (Channel.playingNotes Demo.channel0) Demo.pool0 ∧
  ∃ (id : nat) (this1 this2 : Channel.t) (players1 players2 : list SamplePlayer.t)
    (v : SamplePlayer.t),
    Channel.NoteOn 0 60 100 Demo.channel0 Demo.pool0 5 = Some (this1, players1, 5 + 1) ∧
    Channel.NoteOff 0 60 0 this1 players1 = Some (this2, players2) ∧
    Channel.playingNotes this2 = kept_notes 60 (Channel.playingNotes Demo.channel0) ∧
    (∀ e, e ∈ Channel.playingNotes this2 → PlayingNote.noteNo e ≠ 60) ∧
    players1 !! id = Some v ∧
    players2 !! id = Some (SamplePlayer.set_released true v) ∧
    (∃ v2, players2 !! id = Some v2 ∧ SamplePlayer.released v2 = true ∧
           same_but_released v v2) ∧
    SamplePlayer.noteNo v = 60 ∧
    SamplePlayer.sample v = Timbre.GetAppropriateSample Demo.timbre 60 100 ∧
    ((∀ e, e ∈ Channel.playingNotes Demo.channel0 → PlayingNote.noteNo e ≠ 60) →
       Channel.playingNotes this2 = Channel.playingNotes Demo.channel0 ∧
       ∀ k, k ≠ id → players2 !! k = Demo.pool0 !! k).
Proof.
  assert (Hpool : pool_ok Demo.pool0) by (split; [reflexivity|cbn; lia]).
  assert (Hok : notes_ok (Channel.playingNotes Demo.channel0) Demo.pool0) by constructor.
  split; [exact Hpool|]. split; [exact Hok|].
  exact (NoteOn_then_NoteOff_releases_the_voice (cfg := Demo.cfg) 0 60 100 0 5
           Demo.channel0 Demo.pool0 Demo.timbre eq_refl eq_refl Hpool Hok).
Defined.

End OnOffWitness.

(** Of two pitch bends handled one after the other on a live channel, the
    later one wins: the channel and every voice are left exactly as the
    later bend alone leaves them. *)
Theorem later_PitchBend_wins {cfg : Config} (index : nat) (x y : Z)
    (this : Channel.t) (players : list SamplePlayer.t) :
  Channel.sampler this = Alive →
  notes_ok (Channel.playingNotes this) players →
  ∃ (this1 this2 : Channel.t) (players1 players2 : list SamplePlayer.t),
    Channel.PitchBend index x this players = Some (this1, players1) ∧
    Channel.PitchBend index y this1 players1 = Some (this2, players2) ∧
    Channel.PitchBend index y this players = Some (this2, players2) ∧
    Channel.pitchBend this2 = semitones y.
Proof.
  intros Ha Hok.
  set (notes := Channel.playingNotes this).
  set (f := λ (b : Z) (i : nat) (p : SamplePlayer.t),
              if bent_by index notes i p then rebend (semitones b) p else p).
  assert (Hff : ∀ i p, f y i (f x i p) = f y i p).
  { intros i p. unfold f. destruct (bent_by index notes i p) eqn:Hb.
    - by rewrite bent_by_rebend, Hb, rebend_rebend.
    - by rewrite Hb. }
  exists (Channel.set_pitchBend (semitones x) this),
         (Channel.set_pitchBend (semitones y) this),
         (imap (f x) players), (imap (f y) players).
  split; [by apply PitchBend_alive|]. split.
  { rewrite PitchBend_alive; [|done|].
    - cbn. f_equal. f_equal. apply list_eq. intros i.
      rewrite !list_lookup_imap. destruct (players !! i) as [p|]; [cbn|done].
      f_equal. apply Hff.
    - cbn. unfold notes_ok. by rewrite length_imap. }
  split; [by apply PitchBend_alive|]. reflexivity.
Qed.

Section LaterBendWitness.
#[local] Existing Instance Demo.cfg.

Lemma later_PitchBend_wins_witness :
  notes_ok (Channel.playingNotes Demo.holding_channel) Demo.busy_pool ∧
  ∃ (this1 this2 : Channel.t) (players1 players2 : list SamplePlayer.t),
    Channel.PitchBend 0 4096 Demo.holding_channel Demo.busy_pool = Some (this1, players1) ∧
    Channel.PitchBend 0 (-100) this1 players1 = Some (this2, players2) ∧
    Channel.PitchBend 0 (-100) Demo.holding_channel Demo.busy_pool = Some (this2, players2) ∧
    Channel.pitchBend this2 = semitones (-100).
Proof.
  assert (Hok : notes_ok (Channel.playingNotes Demo.holding_channel) Demo.busy_pool)
    by (repeat constructor).
  split; [exact Hok|].
  exact (later_PitchBend_wins (cfg := Demo.cfg) 0 4096 (-100) Demo.holding_channel
           Demo.busy_pool eq_refl Hok).
Defined.

End LaterBendWitness.

(** A note started after a pitch bend carries the bend: the voice that
    [NoteOn] writes after [PitchBend(b)] is constructed with
    [pitchBend = b * 12 / 8192], the value [PitchBend] stored in the
    channel, and the voices have been re-pitched before that. *)
Theorem PitchBend_reaches_later_notes {cfg : Config} (index : nat)
    (b noteNo velocity tick : Z) (this : Channel.t)
    (players : list SamplePlayer.t) (tm : Timbre.t) :
  Channel.sampler this = Alive →
  Channel.timbre this = Some tm →
  pool_ok players →
  notes_ok (Channel.playingNotes this) players →
  ∃ (id : nat) (this1 this2 : Channel.t) (players1 players2 : list SamplePlayer.t)
    (v : SamplePlayer.t),
    Channel.PitchBend index b this players = Some (this1, players1) ∧
    Channel.NoteOn index noteNo velocity this1 players1 tick = Some (this2, players2, tick + 1) ∧
    players2 = <[id := v]> players1 ∧
    players2 !! id = Some v ∧
    SamplePlayer.pitchBend v = semitones b ∧
    SamplePlayer.noteNo v = noteNo ∧
    Channel.pitchBend this2 = semitones b.
Proof.
  intros Ha Htm Hpool Hok.
  set (this1 := Channel.set_pitchBend (semitones b) this).
  set (players1 := imap (λ i p, if bent_by index (Channel.playingNotes this) i p
                                then rebend (semitones b) p else p) players).
  assert (Hpool1 : pool_ok players1).
  { destruct Hpool. split; [|done]. unfold players1. by rewrite length_imap. }
  destruct (NoteOn_alive index noteNo velocity tick this1 players1 tm Ha Htm Hpool1)
    as (id & Hon & Hid & _).
  eexists id, this1, _, players1, _, _.
  split; [by apply PitchBend_alive|]. split; [exact Hon|]. split; [reflexivity|].
  split. { apply list_lookup_insert_eq. destruct Hpool1. lia. }
  destruct (new_fields (Timbre.GetAppropriateSample tm noteNo velocity) noteNo
              (velocityTable velocity) (Channel.pitchBend this1)
              (Channel.channelIndex index) tick) as (_ & Hn & _ & Hb & _).
  split; [exact Hb|]. split; [exact Hn|]. reflexivity.
Qed.

Section ReachWitness.
#[local] Existing Instance Demo.cfg.

Lemma PitchBend_reaches_later_notes_witness :
  pool_ok Demo.pool0 ∧
  ∃ (id : nat) (this1 this2 : Channel.t) (players1 players2 : list SamplePlayer.t)
    (v : SamplePlayer.t),
    Channel.PitchBend 0 4096 Demo.channel0 Demo.pool0 = Some (this1, players1) ∧
    Channel.NoteOn 0 66 100 this1 players1 1 = Some (this2, players2, 1 + 1) ∧
    players2 = <[id := v]> players1 ∧
    players2 !! id = Some v ∧
    SamplePlayer.pitchBend v = semitones 4096 ∧
    SamplePlayer.noteNo v = 66 ∧
    Channel.pitchBend this2 = semitones 4096.
Proof.
  assert (Hpool : pool_ok Demo.pool0) by (split; [reflexivity|cbn; lia]).
  split; [exact Hpool|].
  exact (PitchBend_reaches_later_notes (cfg := Demo.cfg) 0 4096 66 100 1
           Demo.channel0 Demo.pool0 Demo.timbre eq_refl eq_refl Hpool
           ltac:(constructor)).
Defined.

End ReachWitness.

Section BendFacts.

Lemma is_dyadic_inj (x : float) (n n' k : Z) :
  is_dyadic x n k = true → is_dyadic x n' k = true → n = n'.
Proof.
  destruct x as [s| | |s m e]; cbn; try done.
  - intros ?%Z.eqb_eq ?%Z.eqb_eq. congruence.
  - destruct (Z.leb_spec 0 (e + k)).
    + intros ?%Z.eqb_eq ?%Z.eqb_eq. congruence.
    + intros H1%Z.eqb_eq H2%Z.eqb_eq.
      assert (0 < 2 ^ (- (e + k))) by (apply Z.pow_pos_nonneg; lia).
      rewrite H1 in H2. apply Z.mul_cancel_r in H2; lia.
Qed.

Lemma all_from_spec (f : Z → bool) (n : nat) :
  ∀ z, all_from f n z = true → ∀ k, z <= k < z + Z.of_nat n → f k = true.
Proof.
  induction n as [|n IH]; intros z Hall k Hk; [lia|].
  cbn [all_from] in Hall. apply andb_true_iff in Hall as [Hz Hrest].
  destruct (decide (k = z)) as [->|Hne]; [done|].
  apply (IH (z + 1) Hrest). lia.
Qed.

Lemma semitones_dyadic (b : Z) :
  -32768 <= b <= 32767 → is_dyadic (semitones b) (3 * b) 11 = true.
Proof.
  intros Hb.
  assert (Hall : all_from (λ b, is_dyadic (semitones b) (3 * b) 11)
                   (Z.to_nat 65536) (-32768) = true) by (vm_compute; reflexivity).
  apply (all_from_spec _ _ _ Hall). lia.
Qed.

Lemma semitones_octave (b : Z) :
  -8192 <= b <= 8191 →
  fle (of_int (-12)) (semitones b) = true ∧ flt (semitones b) twelve = true.
Proof.
  intros Hb. apply andb_true_iff.
  assert (Hall : all_from (λ b, fle (of_int (-12)) (semitones b) && flt (semitones b) twelve)
                   (Z.to_nat 16384) (-8192) = true) by (vm_compute; reflexivity).
  apply (all_from_spec _ _ _ Hall). lia.
Qed.

End BendFacts.

(** The bend that [Channel::PitchBend] stores for a 16-bit [b] is
    [b * 12 / 8192] without any rounding error, that is [3 b / 2^11]
    exactly; different values of [b] give different bends, and for a
    value in the range [[-8192, 8191]] the producers clamp to, the bend
    lies in [[-12, 12)] semitones. *)
Theorem PitchBend_stores_exact_semitones {cfg : Config} (index : nat) (b : Z)
    (this this' : Channel.t) (players players' : list SamplePlayer.t) :
  -32768 <= b <= 32767 →
  Channel.PitchBend index b this players = Some (this', players') →
  is_dyadic (Channel.pitchBend this') (3 * b) 11 = true ∧
  (∀ b' this2 players2,
     -32768 <= b' <= 32767 →
     Channel.PitchBend index b' this players = Some (this2, players2) →
     Channel.pitchBend this2 = Channel.pitchBend this' → b' = b) ∧
  (-8192 <= b <= 8191 →
     fle (of_int (-12)) (Channel.pitchBend this') = true ∧
     flt (Channel.pitchBend this') twelve = true).
Proof.
  intros Hb Hrun. apply PitchBend_stores in Hrun. subst this'. cbn.
  fold (semitones b). split; [by apply semitones_dyadic|]. split.
  - intros b' this2 players2 Hb' Hrun' Heq.
    apply PitchBend_stores in Hrun'. subst this2. cbn in Heq. fold (semitones b') in Heq.
    pose proof (semitones_dyadic b Hb) as H1.
    pose proof (semitones_dyadic b' Hb') as H2. rewrite Heq in H2.
    pose proof (is_dyadic_inj _ _ _ _ H1 H2). lia.
  - apply semitones_octave.
Qed.

Section ExactWitness.
#[local] Existing Instance Demo.cfg.

Lemma PitchBend_stores_exact_semitones_witness :
  Channel.PitchBend 0 4096 Demo.channel0 Demo.pool0 = Some Bench.bent ∧
  is_dyadic (Channel.pitchBend (Bench.bent).1) (3 * 4096) 11 = true ∧
  fle (of_int (-12)) (Channel.pitchBend (Bench.bent).1) = true ∧
  flt (Channel.pitchBend (Bench.bent).1) twelve = true.
Proof.
  assert (Hrun : Channel.PitchBend 0 4096 Demo.channel0 Demo.pool0 = Some Bench.bent)
    by reflexivity.
  destruct (PitchBend_stores_exact_semitones (cfg := Demo.cfg) 0 4096 Demo.channel0
              (Bench.bent).1 Demo.pool0 (Bench.bent).2 ltac:(lia) Hrun)
    as (Hd & _ & Hoct).
  split; [exact Hrun|]. split; [exact Hd|]. exact (Hoct ltac:(lia)).
Defined.

End ExactWitness.

(** ** Footprints *)

Section Footprints.
Context {cfg : Config}.

Lemma NoteOff_loop_frame (index : nat) (noteNo : Z) (notes : list PlayingNote.t) :
  ∀ (players : list SamplePlayer.t) notes' players',
  Channel.NoteOff_loop index noteNo notes players = Some (notes', players') →
  ∀ k p, players !! k = Some p →
    ∃ q, players' !! k = Some q ∧
         (q = p ∨ (q = SamplePlayer.set_released true p ∧
                   SamplePlayer.noteNo p = noteNo ∧
                   SamplePlayer.channel p = Channel.channelIndex index)).
Proof.
  induction notes as [|itr rest IH]; intros players notes' players'.
  - intros [= <- <-] k p Hp. exists p. split; [done|by left].
  - cbn [Channel.NoteOff_loop]. destruct (_ =? _).
    + destruct (players !! PlayingNote.playerId itr) as [player|] eqn:Hpl; [cbn|done].
      intros Hrun k p Hp.
      destruct ((SamplePlayer.noteNo player =? noteNo)
                && (SamplePlayer.channel player =? Channel.channelIndex index)) eqn:Hhit.
      2:{ by apply (IH _ _ _ Hrun). }
      apply andb_true_iff in Hhit as [Hn%Z.eqb_eq Hc%Z.eqb_eq].
      destruct (decide (k = PlayingNote.playerId itr)) as [->|Hne].
      * assert (p = player) by congruence. subst p.
        destruct (IH _ _ _ Hrun (PlayingNote.playerId itr)
                    (SamplePlayer.set_released true player)) as (q & Hq & Hcase).
        { apply list_lookup_insert_eq. by eapply lookup_lt_Some. }
        exists q. split; [done|]. right. split; [|done].
        by destruct Hcase as [->|[-> _]].
      * apply (IH _ _ _ Hrun). by rewrite list_lookup_insert_ne.
    + destruct (Channel.NoteOff_loop _ _ rest players) as [[r ps]|] eqn:Hr; [cbn|done].
      intros [= <- <-]. by apply (IH _ _ _ Hr).
Qed.

Lemma PitchBend_loop_frame (index : nat) (bend : float) (notes : list PlayingNote.t) :
  ∀ (players players' : list SamplePlayer.t),
  Channel.PitchBend_loop index bend notes players = Some players' →
  ∀ k p, players !! k = Some p →
    ∃ q, players' !! k = Some q ∧
         (q = p ∨ (q = rebend bend p ∧
                   SamplePlayer.channel p = Channel.channelIndex index)).
Proof.
  induction notes as [|itr rest IH]; intros players players'.
  - intros [= <-] k p Hp. exists p. split; [done|by left].
  - cbn [Channel.PitchBend_loop].
    destruct (players !! PlayingNote.playerId itr) as [player|] eqn:Hpl; [cbn|done].
    intros Hrun k p Hp.
    destruct (Z.eqb_spec (SamplePlayer.channel player) (Channel.channelIndex index))
      as [Hc|Hc].
    2:{ by apply (IH _ _ Hrun). }
    destruct (decide (k = PlayingNote.playerId itr)) as [->|Hne].
    + assert (p = player) by congruence. subst p.
      fold (rebend bend player) in Hrun.
      destruct (IH _ _ Hrun (PlayingNote.playerId itr) (rebend bend player))
        as (q & Hq & Hcase).
      { apply list_lookup_insert_eq. by eapply lookup_lt_Some. }
      exists q. split; [done|]. right. split; [|done].
      destruct Hcase as [->|[-> _]]; [done|]. apply rebend_rebend.
    + apply (IH _ _ Hrun). by rewrite list_lookup_insert_ne.
Qed.

End Footprints.

(** [sampler_process_inner] reads the sample memory only from the read
    position it is called with up to one sample past the read position it
    returns with: on a memory that agrees with the given one between these
    two indices it returns the same bus and the same work record. *)
Theorem kernel_reads_between_positions (mem mem' : Z → Z) (buf buf' : list float)
    (w w' : Work.t) (len : Z) :
  sampler_process_inner mem buf w len = Some (buf', w') →
  (∀ i, Work.src w <= i <= Work.src w' + 1 → mem' i = mem i) →
  sampler_process_inner mem' buf w len = Some (buf', w').
Proof.
  unfold sampler_process_inner. generalize (iterations len) as n.
  intros n. revert buf buf' w w'.
  induction n as [|n IH]; intros buf buf' w w'; [done|].
  cbn [kernel_loop].
  destruct (kernel_body mem buf w) as [[buf1 w1]|] eqn:Hb; [cbn|done].
  intros Hrun Hsame.
  pose proof (kernel_body_inv _ _ _ _ _ Hb) as (_ & _ & _ & _ & Hs1 & _).
  pose proof (kernel_loop_inv _ _ _ _ _ _ Hrun) as (_ & _ & _ & _ & Hs2 & _).
  assert (Hb' : kernel_body mem' buf w = Some (buf1, w1)).
  { rewrite <- Hb. unfold kernel_body, interpolate.
    rewrite (Hsame (Work.src w)), (Hsame (Work.src w + 1)) by lia. done. }
  rewrite Hb'. cbn. apply IH; [done|]. intros i Hi. apply Hsame. lia.
Qed.

Lemma kernel_reads_between_positions_witness :
  sampler_process_inner (Sample.sample Bench.pad) Demo.bus0 Bench.work 4
    = Some Bench.kernel_result ∧
  sampler_process_inner (λ i, if i <=? 3 then 8192 else 0) Demo.bus0 Bench.work 4
    = Some Bench.kernel_result.
Proof.
  assert (Hrun : sampler_process_inner (Sample.sample Bench.pad) Demo.bus0 Bench.work 4
                 = Some Bench.kernel_result) by reflexivity.
  split; [exact Hrun|].
  apply (kernel_reads_between_positions (Sample.sample Bench.pad)
           (λ i, if i <=? 3 then 8192 else 0) Demo.bus0 (Bench.kernel_result).1
           Bench.work (Bench.kernel_result).2 4 Hrun).
  intros i Hi. cbn in Hi. cbn. destruct (Z.leb_spec i 3); [reflexivity|lia].
Defined.

(** Envelope step [j] of the mixing loop writes the bus only in its own
    slice [[j * N, (j + 1) * N)], [N] being [ADSR_UPDATE_SAMPLE_COUNT];
    the slices of the steps the loop takes lie inside the bus of
    [SAMPLE_BUFFER_SIZE] samples. *)
Theorem envelope_step_writes_its_slice {cfg : Config} (fuel : nat)
    (masterVolume : float) (j : nat) (p : SamplePlayer.t) (data : list float)
    (r : Sampler.step_result) :
  (0 < ADSR_UPDATE_SAMPLE_COUNT)%nat →
  Sampler.envelope_step fuel masterVolume j p data = Some r →
  let data' := match r with Sampler.Continue _ d | Sampler.Break _ d => d end in
  length data' = length data ∧
  (∀ i, (i < j * ADSR_UPDATE_SAMPLE_COUNT ∨ (j + 1) * ADSR_UPDATE_SAMPLE_COUNT <= i)%nat →
        data' !! i = data !! i) ∧
  ((j < SAMPLE_BUFFER_SIZE / ADSR_UPDATE_SAMPLE_COUNT)%nat →
     ((j + 1) * ADSR_UPDATE_SAMPLE_COUNT <= SAMPLE_BUFFER_SIZE)%nat).
Proof.
  intros Hpos Hr. cbn zeta. split_and!.
  - apply envelope_step_mixed in Hr as [_ Hl]. by destruct r.
  - apply envelope_step_shape in Hr.
    destruct (SamplePlayer.sample p) as [s|]; [|by subst r].
    cbn zeta in Hr. destruct Hr as [[_ ->]|(_ & data' & w' & Hk & Hr)]; [done|].
    unfold sampler_process_inner in Hk. rewrite iterations_of_nat in Hk by done.
    apply kernel_loop_inv in Hk as (_ & _ & _ & Hf & _). cbn in Hf.
    intros i Hi. destruct Hr as [->|(pos & _ & ->)]; apply Hf; lia.
  - intros Hj.
    pose proof (Nat.Div0.mul_div_le SAMPLE_BUFFER_SIZE ADSR_UPDATE_SAMPLE_COUNT).
    assert ((j + 1) * ADSR_UPDATE_SAMPLE_COUNT
            <= ADSR_UPDATE_SAMPLE_COUNT * (SAMPLE_BUFFER_SIZE / ADSR_UPDATE_SAMPLE_COUNT))%nat;
      [|lia].
    rewrite (Nat.mul_comm ADSR_UPDATE_SAMPLE_COUNT). apply Nat.mul_le_mono_r. lia.
Qed.

Section SliceWitness.
#[local] Existing Instance Demo.cfg.

Lemma envelope_step_writes_its_slice_witness :
  Sampler.envelope_step 8 Demo.half 1 Bench.held Demo.bus0 = Some Bench.second_step ∧
  ∀ i, (i < 4 ∨ 8 <= i)%nat →
       match Bench.second_step with
       | Sampler.Continue _ d | Sampler.Break _ d => d
       end !! i = Demo.bus0 !! i.
Proof.
  assert (Hrun : Sampler.envelope_step 8 Demo.half 1 Bench.held Demo.bus0
                 = Some Bench.second_step) by reflexivity.
  split; [exact Hrun|].
  exact (proj1 (proj2 (envelope_step_writes_its_slice (cfg := Demo.cfg) 8 Demo.half 1
                         Bench.held Demo.bus0 Bench.second_step ltac:(cbn; lia) Hrun))).
Defined.

End SliceWitness.

(** A stale entry of [playingNotes] is harmless to other channels:
    [Channel::NoteOff] and [Channel::PitchBend] leave every voice that
    carries another channel's index as it is, whatever the entries refer
    to.  A voice of the channel is either left alone or, by [NoteOff],
    only marked released (and then it carries the note) and, by
    [PitchBend], only re-pitched with the new bend. *)
Theorem other_channels_voices_are_left_alone {cfg : Config} (index : nat)
    (noteNo velocity b : Z) (this : Channel.t) (players : list SamplePlayer.t)
    (k : nat) (p : SamplePlayer.t) :
  players !! k = Some p →
  (∀ this' players',
     Channel.NoteOff index noteNo velocity this players = Some (this', players') →
     ∃ q, players' !! k = Some q ∧
          (q = p ∨ (q = SamplePlayer.set_released true p ∧
                    SamplePlayer.noteNo p = noteNo ∧
                    SamplePlayer.channel p = Channel.channelIndex index))) ∧
  (∀ this' players',
     Channel.PitchBend index b this players = Some (this', players') →
     ∃ q, players' !! k = Some q ∧
          (q = p ∨ (q = rebend (semitones b) p ∧
                    SamplePlayer.channel p = Channel.channelIndex index))).
Proof.
  intros Hp. split.
  - intros this' players'. unfold Channel.NoteOff.
    destruct (Channel.sampler this).
    + intros [= <- <-]. exists p. split; [done|by left].
    + destruct (Channel.NoteOff_loop _ _ _ _) as [[ns ps]|] eqn:Hl; [cbn|done].
      intros [= <- <-]. by apply (NoteOff_loop_frame _ _ _ _ _ _ Hl).
  - intros this' players'. unfold Channel.PitchBend. cbn.
    destruct (Channel.sampler this).
    + intros [= <- <-]. exists p. split; [done|by left].
    + destruct (Channel.PitchBend_loop _ _ _ _) as [ps|] eqn:Hl; [cbn|done].
      intros [= <- <-]. by apply (PitchBend_loop_frame _ _ _ _ _ Hl).
Qed.

Section IsolationWitness.
#[local] Existing Instance Demo.cfg.

Lemma other_channels_voices_are_left_alone_witness :
  Bench.shared_pool !! 1%nat = Some Bench.foreign ∧
  (∀ this' players',
     Channel.NoteOff 0 60 0 Bench.stale_channel Bench.shared_pool = Some (this', players') →
     ∃ q, players' !! 1%nat = Some q ∧
          (q = Bench.foreign ∨
           (q = SamplePlayer.set_released true Bench.foreign ∧
            SamplePlayer.noteNo Bench.foreign = 60 ∧
            SamplePlayer.channel Bench.foreign = Channel.channelIndex 0))) ∧
  (∀ this' players',
     Channel.PitchBend 0 4096 Bench.stale_channel Bench.shared_pool = Some (this', players') →
     ∃ q, players' !! 1%nat = Some q ∧
          (q = Bench.foreign ∨
           (q = rebend (semitones 4096) Bench.foreign ∧
            SamplePlayer.channel Bench.foreign = Channel.channelIndex 0))).
Proof.
  split; [reflexivity|].
  exact (other_channels_voices_are_left_alone (cfg := Demo.cfg) 0 60 0 4096
           Bench.stale_channel Bench.shared_pool 1 Bench.foreign eq_refl).
Defined.

End IsolationWitness.

(** ** The position of a playing voice *)

Section PositionFacts.
Context {cfg : Config}.

Lemma wrap_loop_result (fuel : nat) (loopBack loopEnd : Z) :
  ∀ pos r, Sampler.wrap_loop fuel pos loopBack loopEnd = Some r →
           0 <= r < wrap_uint32 loopEnd.
Proof.
  induction fuel as [|fuel IH]; intros pos r; [done|]. cbn [Sampler.wrap_loop].
  destruct (Z.leb_spec (wrap_uint32 loopEnd) (wrap_uint32 (pos + loopBack))) as [_|Hlt];
    [apply IH|].
  intros [= <-]. pose proof (wrap_uint32_range (pos + loopBack)). lia.
Qed.

(** A step after which the voice goes on leaves it below the loop end. *)
Lemma envelope_step_position (fuel : nat) (masterVolume : float) (j : nat)
    (p q : SamplePlayer.t) (s : Sample.t) (data d : list float) :
  SamplePlayer.sample p = Some s →
  loop_ok s →
  Sampler.envelope_step fuel masterVolume j p data = Some (Sampler.Continue q d) →
  0 <= SamplePlayer.pos q < loop_end s ∧
  SamplePlayer.playing q = true ∧
  SamplePlayer.sample q = Some s.
Proof.
  intros Hs Hloop Hstep. pose proof Hstep as Hshape.
  apply envelope_step_shape in Hshape. rewrite Hs in Hshape. cbn zeta in Hshape.
  destruct Hshape as [[_ ?]|(Hpl & data' & w' & Hk & _)]; [done|].
  rewrite (envelope_step_run fuel masterVolume j p s data data' w' Hs Hpl Hk Hloop) in Hstep.
  cbn zeta in Hstep.
  destruct (step_player_fields s p) as (Hs1 & _).
  pose proof (wrap_uint32_range (Work.src w')) as Hrange.
  destruct Hloop as [Hle Hlb].
  destruct (Z.leb_spec (loop_end s) (wrap_uint32 (Work.src w'))) as [Hend|Hin].
  - destruct (loop_back s =? 0); [done|].
    destruct (Sampler.wrap_loop _ _ _ _) as [pos'|] eqn:Hw; [cbn in Hstep|done].
    injection Hstep as <- <-. cbn. apply wrap_loop_result in Hw.
    rewrite wrap_uint32_small in Hw by lia. split; [done|]. split; [done|congruence].
  - injection Hstep as <- <-. cbn. split; [lia|]. split; [done|congruence].
Qed.

Lemma mix_steps_position (s : Sample.t) (fuel : nat) (masterVolume : float) (n : nat) :
  ∀ (j : nat) (p p' : SamplePlayer.t) (data data' : list float),
  SamplePlayer.sample p = Some s →
  loop_ok s →
  0 <= SamplePlayer.pos p < loop_end s →
  Sampler.mix_steps fuel masterVolume n j p data = Some (p', data') →
  SamplePlayer.playing p' = true →
  0 <= SamplePlayer.pos p' < loop_end s.
Proof.
  induction n as [|n IH]; intros j p p' data data' Hs Hloop Hpos.
  - by intros [= <- <-].
  - cbn [Sampler.mix_steps].
    destruct (Sampler.envelope_step _ _ _ _ _) as [r|] eqn:Hstep; [cbn|done].
    destruct r as [q d|q d].
    + destruct (envelope_step_position _ _ _ _ _ _ _ _ Hs Hloop Hstep) as (Hq & _ & Hsq).
      intros Hrun. by apply (IH _ _ _ _ _ Hsq Hloop Hq Hrun).
    + intros [= <- <-] Hpl.
      apply envelope_step_shape in Hstep. rewrite Hs in Hstep. cbn zeta in Hstep.
      destruct Hstep as [[Hoff [= ->]]|(_ & d1 & w1 & _ & [[= ->]|(? & _ & ?)])];
        [congruence|done|done].
Qed.

End PositionFacts.

(** The position of a voice stays inside its sample: if a voice of a
    sample with a well-formed loop region enters the mixing loop with
    [0 <= pos < end] ([end] being the loop end with ADSR and the length
    without), then it leaves it either stopped or, again, with
    [0 <= pos < end]. *)
Theorem playing_voice_stays_below_the_end {cfg : Config} (s : Sample.t) (fuel : nat)
    (masterVolume : float) (p p' : SamplePlayer.t) (data data' : list float) :
  SamplePlayer.sample p = Some s →
  loop_ok s →
  0 <= SamplePlayer.pos p < loop_end s →
  Sampler.mix_voice fuel masterVolume p data = Some (p', data') →
  SamplePlayer.playing p' = true →
  0 <= SamplePlayer.pos p' < loop_end s.
Proof.
  intros Hs Hloop Hpos. unfold Sampler.mix_voice.
  destruct (SamplePlayer.playing p); cbn [negb].
  - by apply (mix_steps_position s).
  - by intros [= <- <-].
Qed.

Section PositionWitness.
#[local] Existing Instance Demo.cfg.

Lemma playing_voice_stays_below_the_end_witness :
  loop_ok Bench.pad ∧
  Sampler.mix_voice 8 Demo.half Bench.held Demo.bus0 = Some Bench.mixed_held ∧
  SamplePlayer.playing (Bench.mixed_held).1 = true ∧
  0 <= SamplePlayer.pos (Bench.mixed_held).1 < loop_end Bench.pad.
Proof.
  assert (Hloop : loop_ok Bench.pad) by (unfold loop_ok; cbn; lia).
  assert (Hrun : Sampler.mix_voice 8 Demo.half Bench.held Demo.bus0
                 = Some Bench.mixed_held) by reflexivity.
  split; [exact Hloop|]. split; [exact Hrun|]. split; [reflexivity|].
  exact (playing_voice_stays_below_the_end (cfg := Demo.cfg) Bench.pad 8 Demo.half
           Bench.held (Bench.mixed_held).1 Demo.bus0 (Bench.mixed_held).2
           eq_refl Hloop ltac:(cbn; lia) Hrun eq_refl).
Defined.

End PositionWitness.

(** On a well-formed loop region the wrap loop is the reduction of the
    position into the region modulo its length: from a position at or past
    the loop end it returns
    [loopStart + (pos - loopStart) mod (loopEnd - loopStart)], given one
    iteration per loop length to go back. *)
Theorem wrap_loop_is_modular_reduction (fuel : nat) (loopStart loopEnd pos : Z) :
  0 <= loopStart < loopEnd →
  loopEnd < 2 ^ 31 →
  loopEnd <= pos < 2 ^ 32 →
  pos - loopEnd < Z.of_nat fuel →
  Sampler.wrap_loop fuel pos (loopStart - loopEnd) loopEnd =
    Some (loopStart + (pos - loopStart) mod (loopEnd - loopStart)) ∧
  loopStart <= loopStart + (pos - loopStart) mod (loopEnd - loopStart) < loopEnd.
Proof.
  intros Hreg Hle Hpos Hfuel.
  destruct (wrap_loop_spec fuel (loopStart - loopEnd) loopEnd pos) as (k & Hk & Hrun & Hres);
    try lia.
  pose proof (Z.mod_pos_bound (pos - loopStart) (loopEnd - loopStart) ltac:(lia)) as Hmod.
  split; [|lia]. rewrite Hrun. f_equal.
  assert (Heq : (pos - loopStart) mod (loopEnd - loopStart)
                = pos + k * (loopStart - loopEnd) - loopStart).
  { symmetry. apply Z.mod_unique with (q := k); lia. }
  lia.
Qed.

Lemma wrap_loop_is_modular_reduction_witness :
  Sampler.wrap_loop 300 446 (100 - 200) 200 = Some (100 + (446 - 100) mod (200 - 100)) ∧
  100 <= 100 + (446 - 100) mod (200 - 100) < 200.
Proof.
  apply (wrap_loop_is_modular_reduction 300 100 200 446); lia.
Defined.

(** ** The end of the release segment *)

Section ReleaseFloat.

(** Rounding a mantissa that has to be shifted right: the result is zero
    or a valid float that exceeds the exact value by at most half a unit
    of the last place kept. *)
Lemma round_aux_shift (s : bool) (m : positive) (e : Z) :
  let mag := Zpos (digits2_pos m) + e in
  let f := fexp prec emax mag in
  e < f → f <= 104 →
  binary_round_aux prec emax s (Zpos m) e loc_Exact = S754_zero s ∨
  (∃ m' e', binary_round_aux prec emax s (Zpos m) e loc_Exact = S754_finite s m' e' ∧
            bounded prec emax m' e' = true ∧
            f <= e' <= f + 1 ∧
            Zpos m' * 2 ^ (e' - e) <= Zpos m + 2 ^ (f - e - 1)) ∨
  (f = 104 ∧ 2 ^ 24 * 2 ^ (f - e) <= Zpos m + 2 ^ (f - e - 1)).
Proof.
  intros mag f Hlt H103'.
  assert (Hf : f = Z.max (mag - 24) (-149)) by (unfold f; by rewrite fexp_eq).
  set (c := f - e).
  assert (Hc : 0 < c) by (unfold c; lia).
  pose proof (digits_bounds m) as [Hlo Hhi].
  assert (H2c : 0 < 2 ^ c) by (apply Z.pow_pos_nonneg; lia).
  set (m1 := Zpos m / 2 ^ c).
  assert (Hm1 : 0 <= m1 < 2 ^ 24).
  { unfold m1. split; [apply Z.div_pos; lia|].
    apply Z.div_lt_upper_bound; [done|].
    rewrite <- Z.pow_add_r by lia.
    eapply Z.lt_le_trans; [exact Hhi|]. apply Z.pow_le_mono_r; [lia|].
    unfold c. unfold mag in Hf. lia. }
  assert (Hm1n : -149 < f → 2 ^ 23 <= m1).
  { intros Hn. unfold m1. apply Z.div_le_lower_bound; [done|].
    rewrite <- Z.pow_add_r by lia.
    eapply Z.le_trans; [|exact Hlo]. apply Z.pow_le_mono_r; [lia|].
    unfold c. unfold mag in Hf. lia. }
  unfold binary_round_aux.
  destruct c as [|cp|cp] eqn:Hcp; try lia.
  assert (Hshr : ∃ r1 s1,
             shr_fexp prec emax (Zpos m) e loc_Exact
               = ({| shr_m := m1; shr_r := r1; shr_s := s1 |}, f) ∧
             r1 = Z.odd (Zpos m / 2 ^ (Zpos cp - 1))).
  { unfold shr_fexp, shr. cbn [Zdigits2 shr_record_of_loc]. fold mag. fold f.
    replace (f - e) with (Zpos cp) by lia.
    destruct (iter_shr cp (Zpos m) false false) as [Hm Hr]; [lia|].
    destruct (SpecFloat.iter_pos shr_1 cp _) as [mm rr ss]. cbn in Hm, Hr.
    exists rr, ss. split; [|done]. f_equal; [by f_equal|lia]. }
  destruct Hshr as (r1 & s1 & Hshr & Hr1). rewrite Hshr. cbn [shr_m].
  set (m2 := round_nearest_even m1 (loc_of_shr_record
               {| shr_m := m1; shr_r := r1; shr_s := s1 |})).
  assert (Hm2 : (m2 = m1 ∨ (m2 = m1 + 1 ∧ r1 = true))).
  { unfold m2. destruct r1, s1; cbn; try destruct (Z.even m1); auto. }
  assert (Hval : m2 * 2 ^ Zpos cp <= Zpos m + 2 ^ (Zpos cp - 1)).
  { assert (0 < 2 ^ (Zpos cp - 1)) by (apply Z.pow_pos_nonneg; lia).
    pose proof (Z.div_mod (Zpos m) (2 ^ Zpos cp) ltac:(lia)) as Hdm.
    pose proof (Z.mod_pos_bound (Zpos m) (2 ^ Zpos cp) ltac:(lia)) as Hmod.
    fold m1 in Hdm.
    destruct Hm2 as [->|[-> Hr]]; [nia|].
    rewrite Hr in Hr1. symmetry in Hr1.
    assert (Hpow : 2 ^ Zpos cp = 2 * 2 ^ (Zpos cp - 1)) by (apply pow2_pred; lia).
    assert (Hq : Zpos m / 2 ^ (Zpos cp - 1) / 2 = m1).
    { unfold m1. rewrite Z.div_div by lia. f_equal. lia. }
    pose proof (Z.div_mod (Zpos m / 2 ^ (Zpos cp - 1)) 2 ltac:(lia)) as Hd2.
    rewrite Hq in Hd2. rewrite Zmod_odd, Hr1 in Hd2.
    pose proof (Z.div_mod (Zpos m) (2 ^ (Zpos cp - 1)) ltac:(lia)) as Hd3.
    pose proof (Z.mod_pos_bound (Zpos m) (2 ^ (Zpos cp - 1)) ltac:(lia)) as Hmod3.
    nia. }
  assert (Hm2r : 0 <= m2 <= 2 ^ 24) by lia.
  destruct m2 as [|p2|p2] eqn:Hp2; try lia.
  - left.
    assert (Hshr2 : shr_fexp prec emax 0 f loc_Exact
                    = ({| shr_m := 0; shr_r := false; shr_s := false |}, f)).
    { unfold shr_fexp, shr. cbn [Zdigits2 shr_record_of_loc]. rewrite fexp_eq.
      destruct (Z.max (0 + f - 24) (-149) - f) eqn:Hz; try done. lia. }
    rewrite Hshr2. done.
  - right. destruct (Z.ltb_spec (Zpos p2) (2 ^ 24)) as [Hsmall|Hbig]; [left|].
    + assert (Hd2 : Zpos (digits2_pos p2) <= 24) by (apply digits_le; lia).
      assert (Hd2n : -149 < f → Zpos (digits2_pos p2) = 24).
      { intros Hn. apply digits_unique. specialize (Hm1n Hn).
        destruct Hm2 as [?|[? _]]; lia. }
      assert (Hshr2 : shr_fexp prec emax (Zpos p2) f loc_Exact
                      = ({| shr_m := Zpos p2; shr_r := false; shr_s := false |}, f)).
      { unfold shr_fexp, shr. cbn [Zdigits2 shr_record_of_loc]. rewrite fexp_eq.
        destruct (Z.max (Zpos (digits2_pos p2) + f - 24) (-149) - f) eqn:Hz; try done.
        lia. }
      rewrite Hshr2. cbn [shr_m]. change (emax - prec) with 104.
      rewrite (proj2 (Z.leb_le f 104)) by lia.
      exists p2, f. split; [done|]. split; [|split; [lia|]].
      * apply bounded_iff. split; [|lia].
        destruct (Z.eq_dec f (-149)) as [->|Hn]; [lia|].
        rewrite Hd2n by lia. lia.
      * replace (f - e) with (Zpos cp) by lia. lia.
    + assert (Hp2' : Zpos p2 = 2 ^ 24) by lia.
      destruct (Z.eq_dec f 104) as [H104|H104].
      { right. split; [done|]. replace (f - e) with (Zpos cp) by lia.
        rewrite <- Hp2'. lia. }
      left.
      assert (Hd2 : Zpos (digits2_pos p2) = 25) by (apply digits_unique; lia).
      assert (Hshr2 : shr_fexp prec emax (Zpos p2) f loc_Exact
                      = ({| shr_m := 2 ^ 23; shr_r := false; shr_s := false |}, f + 1)).
      { unfold shr_fexp, shr. cbn [Zdigits2 shr_record_of_loc]. rewrite Hd2, fexp_eq.
        replace (Z.max (25 + f - 24) (-149) - f) with 1 by lia.
        cbn [SpecFloat.iter_pos]. rewrite shr_1_nonneg by lia. rewrite Hp2'.
        reflexivity. }
      rewrite Hshr2. cbn [shr_m]. change (2 ^ 23) with (Zpos 8388608).
      cbn iota. change (emax - prec) with 104.
      rewrite (proj2 (Z.leb_le (f + 1) 104)) by lia.
      exists 8388608%positive, (f + 1). split; [done|]. split; [|split; [lia|]].
      * apply bounded_iff. cbn [digits2_pos Pos.succ]. lia.
      * replace (f + 1 - e) with (Zpos cp + 1) by lia.
        rewrite Z.pow_add_r by lia. change (Zpos 8388608) with (2 ^ 23).
        replace (2 ^ 23 * (2 ^ Zpos cp * 2 ^ 1)) with (2 ^ 24 * 2 ^ Zpos cp) by lia.
        rewrite <- Hp2'. lia.
Qed.

Lemma flt_one_inv (m : positive) (e : Z) :
  bounded prec emax m e = true →
  flt (S754_finite false m e) one = true →
  e <= -23 ∧ Zpos m < 2 ^ (- e).
Proof.
  intros Hb Hlt. apply bounded_digits in Hb as (He & Hd & _).
  pose proof (digits_bounds m) as [_ Hhi].
  assert (Hm : Zpos m < 2 ^ 24).
  { eapply Z.lt_le_trans; [exact Hhi|]. apply Z.pow_le_mono_r; lia. }
  unfold flt, SFltb, one, SFcompare in Hlt.
  destruct (Z.compare_spec e (-23)) as [->|Hl|Hg]; try discriminate.
  - destruct (Pos.compare_cont Eq m 8388608) eqn:Hc; try discriminate.
    apply (proj1 (compare_cont_lt _ _)) in Hc. split; [lia|]. exact Hc.
  - split; [lia|]. eapply Z.lt_le_trans; [exact Hm|]. apply Z.pow_le_mono_r; lia.
Qed.

Lemma flt_small (m : positive) (e : Z) :
  e <= -34 → flt (S754_finite false m e) f0_001 = true.
Proof.
  intros He. unfold flt, SFltb, f0_001, SFcompare.
  destruct (Z.compare_spec e (-33)); (done || lia).
Qed.

(** Multiplying a positive float by a factor below one gives a value
    below [0.001] or a valid float of smaller value. *)
Lemma fmul_shrinks (mg mr : positive) (eg er : Z) :
  bounded prec emax mg eg = true →
  bounded prec emax mr er = true →
  flt (S754_finite false mr er) one = true →
  let y := fmul (S754_finite false mg eg) (S754_finite false mr er) in
  flt y f0_001 = true ∨
  ∃ m' e', y = S754_finite false m' e' ∧ bounded prec emax m' e' = true ∧
           Zpos m' * 2 ^ (e' + 298) < Zpos mg * 2 ^ (eg + 298).
Proof.
  intros Hbg Hbr Hr1. cbn zeta.
  destruct (flt_one_inv mr er Hbr Hr1) as [Her Hmr].
  pose proof (bounded_digits mg eg Hbg) as (Heg & Hdg & Hng).
  pose proof (bounded_digits mr er Hbr) as (Her' & Hdr & _).
  change (fmul (S754_finite false mg eg) (S754_finite false mr er))
    with (binary_round_aux prec emax false (Zpos (mg * mr)) (eg + er) loc_Exact).
  set (m := (mg * mr)%positive). set (e := eg + er).
  set (a := - er). assert (Ha : 23 <= a <= 149) by (unfold a; lia).
  assert (HP : 0 < 2 ^ a) by (apply Z.pow_pos_nonneg; lia).
  set (X := 2 ^ (e + 298)).
  assert (HX : 0 < X) by (apply Z.pow_pos_nonneg; unfold e; lia).
  assert (Hord : 2 ^ (eg + 298) = X * 2 ^ a).
  { unfold X, a, e. rewrite <- Z.pow_add_r by lia. f_equal. lia. }
  assert (Hm : Zpos m = Zpos mg * Zpos mr) by (unfold m; lia).
  fold a in Hmr.
  pose proof (digits_bounds m) as [Hlo Hhi].
  pose proof (digits_bounds mg) as [Hglo Hghi].
  assert (Hmg24 : Zpos mg < 2 ^ 24).
  { eapply Z.lt_le_trans; [exact Hghi|]. apply Z.pow_le_mono_r; lia. }
  pose proof (digits_bounds mr) as [_ Hrhi].
  assert (Hmr24 : Zpos mr < 2 ^ 24).
  { eapply Z.lt_le_trans; [exact Hrhi|]. apply Z.pow_le_mono_r; lia. }
  set (dm := Zpos (digits2_pos m)) in *.
  assert (Hdm : dm <= 24 + a).
  { apply digits_le. rewrite Hm, Z.pow_add_r by lia. nia. }
  set (mag := dm + e).
  assert (Hfe : fexp prec emax mag = Z.max (mag - 24) (-149)) by apply fexp_eq.
  destruct (Z.le_gt_cases (fexp prec emax mag) e) as [Hexact|Hshift].
  - (* no rounding *)
    rewrite round_aux_noshift
      by (change (Zpos (digits2_pos m) + e) with mag; unfold e in *; lia).
    right. exists m, e. split; [done|].
    assert (Hdg24 : Zpos (digits2_pos mg) = 24).
    { destruct (Z.eq_dec eg (-149)) as [->|Hn]; [unfold e in *; lia|]. apply Hng. lia. }
    assert (Hdm24 : 24 <= dm).
    { destruct (Z.le_gt_cases 24 dm) as [?|Hsmall]; [done|]. exfalso.
      rewrite Hdg24 in Hglo. change (2 ^ (24 - 1)) with 8388608 in Hglo.
      assert (Zpos m < 2 ^ 23).
      { eapply Z.lt_le_trans; [exact Hhi|]. apply Z.pow_le_mono_r; lia. }
      change (2 ^ 23) with 8388608 in *. nia. }
    split.
    + apply bounded_iff. change (Zpos (digits2_pos m) + e) with mag.
      unfold mag, e in *. lia.
    + rewrite Hord, Hm. fold X. nia.
  - (* rounding *)
    destruct (round_aux_shift false m e) as [Hz|[(m' & e' & Hy & Hb' & He' & Hval)|[H104 Hval]]].
    { change (e < fexp prec emax mag). lia. }
    { change (fexp prec emax mag <= 104). unfold mag, e, a in *. lia. }
    + rewrite Hz. left. reflexivity.
    + change (Zpos (digits2_pos m) + e) with mag in He', Hval. rewrite Hy.
      destruct (Z.le_gt_cases (mag - 24) (-149)) as [Hsub|Hnorm].
      * left. apply flt_small. lia.
      * right. exists m', e'. split; [done|]. split; [done|].
        assert (Hf : fexp prec emax mag = mag - 24) by lia.
        rewrite Hf in Hval, He'.
        set (c := mag - 24 - e) in *.
        assert (Hc : 0 < c) by (unfold c; lia).
        assert (Hc24 : c = dm - 24) by (unfold c, mag; lia).
        assert (Hhalf : 2 ^ (c - 1) < Zpos mg).
        { assert (2 ^ (c - 1) * 2 ^ 24 <= Zpos m).
          { rewrite <- Z.pow_add_r by lia. replace (c - 1 + 24) with (dm - 1) by lia. done. }
          nia. }
        assert (Hlt : Zpos m' * 2 ^ (e' - e) < Zpos mg * 2 ^ a) by nia.
        replace (e' + 298) with (e' - e + (e + 298)) by lia.
        rewrite Z.pow_add_r by (unfold e in *; lia). fold X. rewrite Hord. nia.
    + exfalso. change (Zpos (digits2_pos m) + e) with mag in H104, Hval.
      assert (Hf : fexp prec emax mag = mag - 24) by lia.
      rewrite Hf in Hval.
      set (c := mag - 24 - e) in *.
      assert (Hc : 0 < c) by (unfold c; lia).
      assert (Hhalf : 2 ^ (c - 1) < Zpos mg).
      { assert (2 ^ (c - 1) * 2 ^ 24 <= Zpos m).
        { rewrite <- Z.pow_add_r by lia. replace (c - 1 + 24) with (dm - 1) by (unfold c, mag; lia).
          done. }
        nia. }
      assert (Hca : 2 ^ a <= 2 ^ c).
      { apply Z.pow_le_mono_r; [lia|]. unfold c, a, e. lia. }
      nia.
Qed.

End ReleaseFloat.

Section ReleaseEnds.
Context {cfg : Config}.

Lemma finite_nonneg_inv (x : float) :
  finite_nonneg x →
  (∃ s, x = S754_zero s) ∨
  (∃ m e, x = S754_finite false m e ∧ bounded prec emax m e = true).
Proof.
  intros (Hv & Hle & Hlt). destruct x as [s|s| |s m e]; try done.
  - left. by exists s.
  - by destruct s.
  - right. destruct s; [done|]. by exists m, e.
Qed.

Lemma release_step_stops (s : Sample.t) (p : SamplePlayer.t) :
  flt (fmul (SamplePlayer.gain p) (Sample.release s)) f0_001 = true →
  SamplePlayer.playing (release_step s p) = false ∧
  SamplePlayer.gain (release_step s p) = zero.
Proof. intros H. unfold release_step. by rewrite H. Qed.

Lemma release_ends (s : Sample.t) (mr : positive) (er : Z) (n : nat) :
  Sample.adsrEnabled s = true →
  Sample.release s = S754_finite false mr er →
  bounded prec emax mr er = true →
  flt (S754_finite false mr er) one = true →
  ∀ (p : SamplePlayer.t) (mg : positive) (eg : Z),
  SamplePlayer.sample p = Some s →
  SamplePlayer.released p = true →
  SamplePlayer.gain p = S754_finite false mg eg →
  bounded prec emax mg eg = true →
  Zpos mg * 2 ^ (eg + 298) < Z.of_nat n →
  ∃ k, SamplePlayer.playing (Nat.iter (S k) SamplePlayer.UpdateGain p) = false ∧
       SamplePlayer.gain (Nat.iter (S k) SamplePlayer.UpdateGain p) = zero.
Proof.
  intros Ha Hr Hbr Hr1.
  induction n as [|n IH]; intros p mg eg Hs Hrel Hg Hbg Hord.
  - assert (0 < 2 ^ (eg + 298)); [|nia].
    apply Z.pow_pos_nonneg; [lia|]. apply bounded_digits in Hbg. lia.
  - pose proof (UpdateGain_release s p Hs Ha (or_introl Hrel)) as Hstep.
    destruct (flt (fmul (SamplePlayer.gain p) (Sample.release s)) f0_001) eqn:Hlow.
    + exists 0%nat. unfold Nat.iter; cbn [nat_rect]. rewrite Hstep. by apply release_step_stops.
    + destruct (fmul_shrinks mg mr eg er Hbg Hbr Hr1) as [Hsmall|(m' & e' & Hy & Hb' & Hlt)].
      { rewrite Hg, Hr in Hlow. congruence. }
      assert (Hq : release_step s p
                   = SamplePlayer.set_gain (S754_finite false m' e')
                       (SamplePlayer.set_adsrState release p)).
      { unfold release_step. rewrite Hlow. rewrite Hg, Hr. fold fmul in Hy. by rewrite Hy. }
      destruct (IH (release_step s p) m' e') as (k & Hk1 & Hk2).
      { rewrite Hq. done. }
      { rewrite Hq. done. }
      { rewrite Hq. done. }
      { done. }
      { lia. }
      exists (S k). rewrite Nat.iter_succ_r, Hstep. done.
Qed.

End ReleaseEnds.

(** A released voice ends: for a sample with ADSR whose release factor is
    a binary32 value in [[0, 1)], and a released voice whose gain is
    finite and not negative, finitely many calls of [UpdateGain] (one per
    envelope step) bring the gain below [0.001], stop the voice and set
    its gain to zero. *)
Theorem released_voice_ends {cfg : Config} (s : Sample.t) (p : SamplePlayer.t) :
  SamplePlayer.sample p = Some s →
  Sample.adsrEnabled s = true →
  SamplePlayer.released p = true →
  is_frac (Sample.release s) →
  finite_nonneg (SamplePlayer.gain p) →
  ∃ k, SamplePlayer.playing (Nat.iter (S k) SamplePlayer.UpdateGain p) = false ∧
       SamplePlayer.gain (Nat.iter (S k) SamplePlayer.UpdateGain p) = zero.
Proof.
  intros Hs Ha Hrel Hr Hg.
  pose proof (UpdateGain_release s p Hs Ha (or_introl Hrel)) as Hstep.
  assert (Hzero : ∀ sg, fmul (SamplePlayer.gain p) (Sample.release s) = S754_zero sg →
            ∃ k, SamplePlayer.playing (Nat.iter (S k) SamplePlayer.UpdateGain p) = false ∧
                 SamplePlayer.gain (Nat.iter (S k) SamplePlayer.UpdateGain p) = zero).
  { intros sg Hz. exists 0%nat. unfold Nat.iter; cbn [nat_rect]. rewrite Hstep.
    apply release_step_stops. rewrite Hz. by destruct sg. }
  destruct (is_frac_inv _ Hr) as [[sr Hr0]|(mr & er & Hrf & Hbr & _)];
    destruct (finite_nonneg_inv _ Hg) as [[sg Hg0]|(mg & eg & Hgf & Hbg)].
  - apply (Hzero (xorb sg sr)). rewrite Hg0, Hr0. reflexivity.
  - apply (Hzero (xorb false sr)). rewrite Hgf, Hr0. reflexivity.
  - apply (Hzero (xorb sg false)). rewrite Hg0, Hrf. reflexivity.
  - assert (Hr1 : flt (S754_finite false mr er) one = true).
    { destruct Hr as (_ & _ & Hlt). by rewrite Hrf in Hlt. }
    assert (Hpos : 0 <= Zpos mg * 2 ^ (eg + 298)).
    { apply Z.mul_nonneg_nonneg; [lia|]. apply Z.pow_nonneg. lia. }
    apply (release_ends s mr er (Z.to_nat (Zpos mg * 2 ^ (eg + 298) + 1)) Ha Hrf Hbr Hr1
             p mg eg Hs Hrel Hgf Hbg).
    lia.
Qed.

Section ReleaseEndsWitness.
#[local] Existing Instance Demo.cfg.

Lemma released_voice_ends_witness :
  is_frac (Sample.release Demo.looped) ∧
  finite_nonneg (SamplePlayer.gain Demo.released_voice) ∧
  ∃ k, SamplePlayer.playing (Nat.iter (S k) SamplePlayer.UpdateGain Demo.released_voice)
         = false ∧
       SamplePlayer.gain (Nat.iter (S k) SamplePlayer.UpdateGain Demo.released_voice) = zero.
Proof.
  assert (Hr : is_frac (Sample.release Demo.looped)) by (split_and!; reflexivity).
  assert (Hg : finite_nonneg (SamplePlayer.gain Demo.released_voice))
    by (split_and!; reflexivity).
  split; [exact Hr|]. split; [exact Hg|].
  exact (released_voice_ends (cfg := Demo.cfg) Demo.looped Demo.released_voice
           eq_refl eq_refl eq_refl Hr Hg).
Defined.

End ReleaseEndsWitness.

(** ** Integer playback rates *)

Section IntegerPitch.

Lemma of_int_exact (n : positive) :
  Zpos n < 2 ^ 24 →
  ∃ m e, of_int (Zpos n) = S754_finite false m e ∧
         bounded prec emax m e = true ∧ e <= 0 ∧ Zpos m = Zpos n * 2 ^ (- e).
Proof.
  intros Hn. rewrite of_int_pos.
  assert (Hd : Zpos (digits2_pos n) <= 24) by (apply digits_le; lia).
  destruct (binary_round_exact false n 0) as (m & Hr & Hm & Hb).
  { rewrite fexp_eq. lia. }
  { rewrite fexp_eq. lia. }
  eexists m, _. split; [exact Hr|]. split; [exact Hb|].
  unfold fexp, emin, prec, emax in *. split; [lia|].
  rewrite Hm. reflexivity.
Qed.

Lemma to_uint32_of_int (n : positive) :
  Zpos n < 2 ^ 24 → to_uint32 (of_int (Zpos n)) = Some (Zpos n).
Proof.
  intros Hn. destruct (of_int_exact n Hn) as (m & e & -> & _ & He & Hm).
  cbn [to_uint32]. unfold trunc_abs.
  destruct (Z.leb_spec 0 e) as [H0|Hneg].
  - assert (e = 0) by lia. subst e. change (2 ^ (- 0)) with 1 in Hm.
    change (2 ^ 0) with 1. rewrite Z.mul_1_r in *. rewrite Hm.
    destruct (Z.ltb_spec (Zpos n) (2 ^ 32)); [done|lia].
  - rewrite Hm. rewrite Z.div_mul by (apply Z.pow_nonzero; lia).
    destruct (Z.ltb_spec (Zpos n) (2 ^ 32)); [done|lia].
Qed.

Lemma fsub_diag (s : bool) (m : positive) (e : Z) :
  fsub (S754_finite s m e) (S754_finite s m e) = zero.
Proof.
  unfold fsub, SFsub. cbn zeta.
  destruct (shl_align m e (Z.min e e)) as [m1 e1]. cbn [fst].
  by rewrite Z.sub_diag.
Qed.

Lemma of_int_shape (z : Z) :
  - 2 ^ 24 < z < 2 ^ 24 →
  of_int z = S754_zero false ∨ ∃ s m e, of_int z = S754_finite s m e.
Proof.
  intros Hz. destruct z as [|n|n].
  - by left.
  - right. destruct (of_int_exact n) as (m & e & -> & _); [lia|]. by eexists _, _, _.
  - right. change (of_int (Zneg n)) with (binary_round prec emax true n 0).
    assert (Hd : Zpos (digits2_pos n) <= 24) by (apply digits_le; lia).
    destruct (binary_round_exact true n 0) as (m & -> & _).
    { rewrite fexp_eq. lia. }
    { rewrite fexp_eq. lia. }
    by eexists _, _, _.
Qed.

Lemma wrap_int16_range (z : Z) : - 2 ^ 15 <= wrap_int16 z < 2 ^ 15.
Proof.
  unfold wrap_int16. pose proof (Z.mod_pos_bound (z + 2 ^ 15) (2 ^ 16) ltac:(lia)). lia.
Qed.

(** With no fractional position there is nothing to interpolate. *)
Lemma interpolate_zero (mem : Z → Z) (src : Z) :
  interpolate mem src zero = of_int (wrap_int16 (mem src)).
Proof.
  unfold interpolate.
  pose proof (wrap_int16_range (mem src)) as H0.
  pose proof (wrap_int16_range (mem (src + 1))) as H1.
  set (s0 := wrap_int16 (mem src)) in *. set (s1 := wrap_int16 (mem (src + 1))) in *.
  assert (Hz : ∃ sg, fmul (of_int (s1 - s0)) zero = S754_zero sg).
  { destruct (of_int_shape (s1 - s0)) as [->|(s & m & e & ->)]; [lia| |]; by eexists. }
  destruct Hz as [sg ->].
  destruct (of_int_shape s0) as [->|(s & m & e & ->)]; [lia| |].
  - by destruct sg.
  - done.
Qed.

Lemma kernel_body_integer (mem : Z → Z) (buf : list float) (w : Work.t)
    (n : positive) (d0 : float) :
  Zpos n < 2 ^ 24 →
  Work.pos_f w = zero →
  Work.pitch w = of_int (Zpos n) →
  buf !! Work.dst w = Some d0 →
  kernel_body mem buf w =
    Some (<[Work.dst w :=
              fadd d0 (fmul (of_int (wrap_int16 (mem (Work.src w)))) (Work.gain w))]> buf,
          {| Work.src := Work.src w + Zpos n; Work.dst := S (Work.dst w);
             Work.pos_f := zero; Work.gain := Work.gain w;
             Work.pitch := Work.pitch w |}).
Proof.
  intros Hn Hf Hp Hd. unfold kernel_body. rewrite Hd, Hf, Hp.
  cbn [mbind option_bind]. rewrite interpolate_zero.
  destruct (of_int_exact n Hn) as (m & e & Hx & _).
  assert (Hadd : fadd zero (of_int (Zpos n)) = of_int (Zpos n)) by (by rewrite Hx).
  rewrite Hadd, (to_uint32_of_int n Hn). cbn [mbind option_bind].
  rewrite Hx, fsub_diag. reflexivity.
Qed.

Lemma kernel_loop_integer (mem : Z → Z) (n : positive) (k : nat) :
  Zpos n < 2 ^ 24 →
  ∀ (buf : list float) (w : Work.t),
  Work.pos_f w = zero →
  Work.pitch w = of_int (Zpos n) →
  (Work.dst w + k <= length buf)%nat →
  ∃ buf',
    kernel_loop k mem buf w =
      Some (buf', {| Work.src := Work.src w + Z.of_nat k * Zpos n;
                     Work.dst := (Work.dst w + k)%nat;
                     Work.pos_f := zero; Work.gain := Work.gain w;
                     Work.pitch := Work.pitch w |}) ∧
    length buf' = length buf ∧
    (∀ i d, (i < k)%nat → buf !! (Work.dst w + i)%nat = Some d →
       buf' !! (Work.dst w + i)%nat =
         Some (fadd d (fmul (of_int (wrap_int16 (mem (Work.src w + Z.of_nat i * Zpos n))))
                         (Work.gain w)))) ∧
    (∀ i, (i < Work.dst w ∨ Work.dst w + k <= i)%nat → buf' !! i = buf !! i).
Proof.
  intros Hn. induction k as [|k IH]; intros buf w Hf Hp Hlen.
  - exists buf. split_and!; try done.
    + cbn. destruct w; cbn in *. subst. f_equal. f_equal. f_equal; lia.
    + intros i d Hi. lia.
  - destruct (lookup_lt_is_Some_2 buf (Work.dst w)) as [d0 Hd0]; [lia|].
    cbn [kernel_loop]. rewrite (kernel_body_integer mem buf w n d0 Hn Hf Hp Hd0). cbn.
    set (buf1 := <[Work.dst w := _]> buf).
    set (w1 := {| Work.src := Work.src w + Zpos n; Work.dst := S (Work.dst w);
                  Work.pos_f := zero; Work.gain := Work.gain w;
                  Work.pitch := Work.pitch w |}).
    destruct (IH buf1 w1) as (buf' & Hrun & Hl & Hin & Hout); try done.
    { unfold buf1. rewrite length_insert. cbn. lia. }
    cbn in Hrun, Hin, Hout.
    exists buf'. split_and!.
    + rewrite Hrun. f_equal. f_equal. f_equal; lia.
    + rewrite Hl. unfold buf1. by rewrite length_insert.
    + intros i d Hi Hd. destruct i as [|i].
      * rewrite Nat.add_0_r in *. rewrite Hout by lia. unfold buf1.
        rewrite list_lookup_insert_eq by (by eapply lookup_lt_Some).
        assert (d = d0) by congruence. subst d.
        by replace (Work.src w + Z.of_nat 0 * Zpos n) with (Work.src w) by lia.
      * replace (Work.dst w + S i)%nat with (S (Work.dst w + i))%nat in * by lia.
        rewrite (Hin i d); [|lia|].
        -- by replace (Work.src w + Z.of_nat (S i) * Zpos n)
             with (Work.src w + Zpos n + Z.of_nat i * Zpos n) by lia.
        -- unfold buf1. rewrite list_lookup_insert_ne by lia. done.
    + intros i Hi. rewrite Hout by lia. unfold buf1.
      apply list_lookup_insert_ne. lia.
Qed.

End IntegerPitch.

(** At an integer playback rate the kernel is exact: called with no
    fractional position and a pitch that is the integer [N]
    ([1 <= N < 2^24]), it adds to output sample [k] the source sample at
    [src + k * N] times the gain, without interpolation, and returns with
    the read position advanced by [length * N] and a fractional position
    that is zero again. *)
Theorem integer_pitch_is_exact (mem : Z → Z) (buf : list float) (w : Work.t)
    (len N : Z) :
  1 <= N < 2 ^ 24 →
  Work.pos_f w = zero →
  Work.pitch w = of_int N →
  1 <= len < 2 ^ 32 →
  (Work.dst w + Z.to_nat len <= length buf)%nat →
  ∃ buf',
    sampler_process_inner mem buf w len =
      Some (buf', {| Work.src := Work.src w + len * N;
                     Work.dst := (Work.dst w + Z.to_nat len)%nat;
                     Work.pos_f := zero; Work.gain := Work.gain w;
                     Work.pitch := Work.pitch w |}) ∧
    length buf' = length buf ∧
    (∀ i d, (i < Z.to_nat len)%nat → buf !! (Work.dst w + i)%nat = Some d →
       buf' !! (Work.dst w + i)%nat =
         Some (fadd d (fmul (of_int (wrap_int16 (mem (Work.src w + Z.of_nat i * N))))
                         (Work.gain w)))) ∧
    (∀ i, (i < Work.dst w ∨ Work.dst w + Z.to_nat len <= i)%nat → buf' !! i = buf !! i).
Proof.
  intros HN Hf Hp Hlen Hroom. destruct N as [|n|n]; try lia.
  unfold sampler_process_inner, iterations.
  destruct (Z.eqb_spec len 0); [lia|].
  destruct (kernel_loop_integer mem n (Z.to_nat len) ltac:(lia) buf w Hf Hp Hroom)
    as (buf' & Hrun & Hl & Hin & Hout).
  exists buf'. split_and!; try done.
  rewrite Hrun. do 3 f_equal. lia.
Qed.

Lemma integer_pitch_is_exact_witness :
  ∃ buf',
    sampler_process_inner (Sample.sample Bench.pad) Demo.bus0 Bench.unit_work 4 =
      Some (buf', {| Work.src := Work.src Bench.unit_work + 4 * 1;
                     Work.dst := (Work.dst Bench.unit_work + Z.to_nat 4)%nat;
                     Work.pos_f := zero; Work.gain := Work.gain Bench.unit_work;
                     Work.pitch := Work.pitch Bench.unit_work |}) ∧
    length buf' = length Demo.bus0 ∧
    (∀ i d, (i < Z.to_nat 4)%nat → Demo.bus0 !! (Work.dst Bench.unit_work + i)%nat = Some d →
       buf' !! (Work.dst Bench.unit_work + i)%nat =
         Some (fadd d (fmul (of_int (wrap_int16
                                       (Sample.sample Bench.pad
                                          (Work.src Bench.unit_work + Z.of_nat i * 1))))
                         (Work.gain Bench.unit_work)))) ∧
    (∀ i, (i < Work.dst Bench.unit_work ∨ Work.dst Bench.unit_work + Z.to_nat 4 <= i)%nat →
          buf' !! i = Demo.bus0 !! i).
Proof.
  apply (integer_pitch_is_exact (Sample.sample Bench.pad) Demo.bus0 Bench.unit_work 4 1).
  - lia.
  - reflexivity.
  - reflexivity.
  - lia.
  - cbn. lia.
Defined.

(** ** One-shot voices at integer rates *)

Section OneShotRate.
Context {cfg : Config}.

(** An envelope step of a one-shot voice at an integer rate. *)
Lemma envelope_step_oneshot_integer (fuel : nat) (masterVolume : float) (j : nat)
    (p : SamplePlayer.t) (s : Sample.t) (data : list float) (n : positive) :
  SamplePlayer.sample p = Some s →
  Sample.adsrEnabled s = false →
  SamplePlayer.playing p = true →
  SamplePlayer.pos_f p = zero →
  SamplePlayer.pitch p = of_int (Zpos n) →
  Zpos n < 2 ^ 24 →
  (0 < ADSR_UPDATE_SAMPLE_COUNT)%nat →
  (j * ADSR_UPDATE_SAMPLE_COUNT + ADSR_UPDATE_SAMPLE_COUNT <= length data)%nat →
  0 <= SamplePlayer.pos p →
  0 <= Sample.length s < 2 ^ 31 →
  SamplePlayer.pos p + Z.of_nat ADSR_UPDATE_SAMPLE_COUNT * Zpos n < 2 ^ 32 →
  let pos' := SamplePlayer.pos p + Z.of_nat ADSR_UPDATE_SAMPLE_COUNT * Zpos n in
  ∃ data', length data' = length data ∧
    Sampler.envelope_step fuel masterVolume j p data =
      Some (if Sample.length s <=? pos'
            then Sampler.Break (SamplePlayer.set_playing false p) data'
            else Sampler.Continue (SamplePlayer.set_pos pos' zero p) data').
Proof.
  intros Hs Ha Hpl Hf Hp Hn HA Hroom Hpos Hlen Hfit. cbn zeta.
  destruct (kernel_loop_integer (Sample.sample s) n ADSR_UPDATE_SAMPLE_COUNT Hn data
              (step_work masterVolume j p)) as (data' & Hk & Hl & _); try done.
  exists data'. split; [done|].
  unfold Sampler.envelope_step. rewrite Hs, Ha, Hpl. cbn [negb].
  fold (step_work masterVolume j p).
  unfold sampler_process_inner. rewrite iterations_of_nat by done. rewrite Hk.
  cbn [mbind option_bind Work.src Work.pos_f step_work].
  rewrite (wrap_int32_small (Sample.length s)) by lia.
  rewrite (wrap_uint32_small (Sample.length s)) by lia.
  rewrite wrap_uint32_small by lia.
  destruct (Z.leb_spec (Sample.length s)
              (SamplePlayer.pos p + Z.of_nat ADSR_UPDATE_SAMPLE_COUNT * Zpos n));
    reflexivity.
Qed.

Lemma mix_steps_oneshot_integer (fuel : nat) (masterVolume : float) (s : Sample.t)
    (n : positive) (k : nat) :
  Sample.adsrEnabled s = false →
  Zpos n < 2 ^ 24 →
  ((0 < k)%nat → (0 < ADSR_UPDATE_SAMPLE_COUNT)%nat) →
  0 <= Sample.length s < 2 ^ 31 →
  Sample.length s + Z.of_nat ADSR_UPDATE_SAMPLE_COUNT * Zpos n < 2 ^ 32 →
  ∀ (j : nat) (p : SamplePlayer.t) (data : list float),
  SamplePlayer.sample p = Some s →
  SamplePlayer.playing p = true →
  SamplePlayer.pos_f p = zero →
  SamplePlayer.pitch p = of_int (Zpos n) →
  ((j + k) * ADSR_UPDATE_SAMPLE_COUNT <= length data)%nat →
  0 <= SamplePlayer.pos p < Sample.length s →
  let pos' := SamplePlayer.pos p
              + Z.of_nat k * (Z.of_nat ADSR_UPDATE_SAMPLE_COUNT * Zpos n) in
  ∃ p' data',
    Sampler.mix_steps fuel masterVolume k j p data = Some (p', data') ∧
    length data' = length data ∧
    SamplePlayer.gain p' = SamplePlayer.gain p ∧
    (Sample.length s <= pos' → SamplePlayer.playing p' = false) ∧
    (pos' < Sample.length s →
       SamplePlayer.playing p' = true ∧ SamplePlayer.pos p' = pos' ∧
       SamplePlayer.pos_f p' = zero).
Proof.
  intros Ha Hn HA Hlen Hfit.
  induction k as [|k IH]; intros j p data Hs Hpl Hf Hp Hroom Hpos; cbn zeta.
  - exists p, data. split_and!; try done; try lia. intros _. split_and!; (done || lia).
  - assert (HA' : (0 < ADSR_UPDATE_SAMPLE_COUNT)%nat) by (apply HA; lia).
    destruct (envelope_step_oneshot_integer fuel masterVolume j p s data n)
      as (d1 & Hl1 & Hstep); try done; try lia.
    cbn [Sampler.mix_steps]. rewrite Hstep. cbn [mbind option_bind].
    set (step := Z.of_nat ADSR_UPDATE_SAMPLE_COUNT * Zpos n) in *.
    assert (Hstep0 : 0 < step) by (unfold step; lia).
    destruct (Z.leb_spec (Sample.length s) (SamplePlayer.pos p + step)) as [Hend|Hgo].
    + exists (SamplePlayer.set_playing false p), d1.
      split_and!; try done. intros Hlt. nia.
    + destruct (IH ltac:(lia) (S j) (SamplePlayer.set_pos (SamplePlayer.pos p + step) zero p) d1)
        as (p' & data' & Hrun & Hl & Hg & Hstop & Hcont); try done.
      { rewrite Hl1. lia. }
      { cbn. lia. }
      cbn [SamplePlayer.pos SamplePlayer.set_pos SamplePlayer.gain] in Hstop, Hcont, Hg.
      exists p', data'. split; [done|]. split; [congruence|]. split; [done|].
      replace (SamplePlayer.pos p + Z.of_nat (S k) * step)
        with (SamplePlayer.pos p + step + Z.of_nat k * step) by lia.
      done.
Qed.

End OneShotRate.

(** A one-shot voice (sample without ADSR) at an integer playback rate
    [N] and without fractional position advances by exactly [N] per
    output sample: over one buffer of the mixing loop its position grows
    by [(SAMPLE_BUFFER_SIZE / M) * M * N], [M] being
    [ADSR_UPDATE_SAMPLE_COUNT], with the fractional position still zero
    and the gain unchanged, unless that reaches the length of the sample,
    in which case the voice is stopped in this buffer. *)
Theorem oneshot_at_integer_rate_ends {cfg : Config} (fuel : nat) (masterVolume : float)
    (s : Sample.t) (N : Z) (p : SamplePlayer.t) (data : list float) :
  SamplePlayer.sample p = Some s →
  Sample.adsrEnabled s = false →
  SamplePlayer.playing p = true →
  SamplePlayer.pos_f p = zero →
  SamplePlayer.pitch p = of_int N →
  1 <= N < 2 ^ 24 →
  0 <= SamplePlayer.pos p < Sample.length s →
  Sample.length s < 2 ^ 31 →
  Sample.length s + Z.of_nat ADSR_UPDATE_SAMPLE_COUNT * N < 2 ^ 32 →
  length data = SAMPLE_BUFFER_SIZE →
  let pos' := SamplePlayer.pos p
              + Z.of_nat (SAMPLE_BUFFER_SIZE / ADSR_UPDATE_SAMPLE_COUNT)
                * (Z.of_nat ADSR_UPDATE_SAMPLE_COUNT * N) in
  ∃ p' data',
    Sampler.mix_voice fuel masterVolume p data = Some (p', data') ∧
    length data' = length data ∧
    SamplePlayer.gain p' = SamplePlayer.gain p ∧
    (Sample.length s <= pos' → SamplePlayer.playing p' = false) ∧
    (pos' < Sample.length s →
       SamplePlayer.playing p' = true ∧ SamplePlayer.pos p' = pos' ∧
       SamplePlayer.pos_f p' = zero).
Proof.
  intros Hs Ha Hpl Hf Hp HN Hpos Hlen Hfit Hdata. destruct N as [|n|n]; try lia.
  unfold Sampler.mix_voice. rewrite Hpl. cbn [negb].
  apply (mix_steps_oneshot_integer fuel masterVolume s n); try done; try lia.
  - intros Hk. destruct ADSR_UPDATE_SAMPLE_COUNT; [cbn in Hk|]; lia.
  - rewrite Hdata. cbn. rewrite Nat.mul_comm. apply Nat.Div0.mul_div_le.
Qed.

Section OneShotRateWitness.
#[local] Existing Instance Demo.cfg.

Lemma oneshot_at_integer_rate_ends_witness :
  SamplePlayer.pitch Demo.oneshot_voice = of_int 1 ∧
  ∃ p' data',
    Sampler.mix_voice 0 Demo.half Demo.oneshot_voice Demo.bus0 = Some (p', data') ∧
    length data' = length Demo.bus0 ∧
    SamplePlayer.gain p' = SamplePlayer.gain Demo.oneshot_voice ∧
    SamplePlayer.playing p' = false.
Proof.
  split; [reflexivity|].
  destruct (oneshot_at_integer_rate_ends (cfg := Demo.cfg) 0 Demo.half Demo.oneshot 1
              Demo.oneshot_voice Demo.bus0 eq_refl eq_refl eq_refl eq_refl eq_refl
              ltac:(lia) ltac:(cbn; lia) ltac:(cbn; lia) ltac:(cbn; lia) eq_refl)
    as (p' & data' & Hrun & Hl & Hg & Hstop & _).
  exists p', data'. split; [exact Hrun|]. split; [exact Hl|]. split; [exact Hg|].
  apply Hstop. cbn. lia.
Defined.

End OneShotRateWitness.

(** ** Reads of sample memory *)

Section ReadFloat.






End ReadFloat.

Section ReadsInside.
Context {cfg : Config}.

(** A kernel call of [i + k] iterations is one of [i] iterations followed
    by one of [k] iterations. *)
Lemma kernel_loop_split (mem : Z → Z) (i k : nat) :
  ∀ (buf : list float) (w : Work.t),
  kernel_loop (i + k) mem buf w =
    '(buf_i, w_i) ← kernel_loop i mem buf w; kernel_loop k mem buf_i w_i.
Proof.
  induction i as [|i IH]; intros buf w; [done|].
  cbn [Nat.add kernel_loop].
  destruct (kernel_body mem buf w) as [[buf1 w1]|]; [cbn|done]. apply IH.
Qed.










End ReadsInside.


Section InsideWitness.
#[local] Existing Instance Demo.cfg.


End InsideWitness.
